(** * whatsapp_archive.py: a shallow embedding and its verified properties

    The program reads a WhatsApp conversation export and writes an HTML page.
    This development embeds [replace_attachment], [ParseLine],
    [IdentifyMessages], [TemplateData] and [FormatHTML] as Rocq functions
    and proves (or refutes) the statements of the specification about them.

    Conventions of the embedding
    - a Python [str] is a [list ascii]: a sequence of characters, each a code
      point below 256;
    - a Python tuple [(date, user, body)] is a Rocq triple;
    - the dictionary [user_idx] is a [gmap] from sender names to indices;
    - an exception is an explicit constructor of the result type. *)

From Stdlib Require Import Ascii String.
From stdpp Require Import gmap strings list fin_maps.

Set Default Proof Using "Type".

Abbreviation str := (list ascii).

(** A string literal read as a Python [str]. *)
Definition s_ (s : string) : str := list_ascii_of_string s.

(* ===================================================================== *)
(** * Python's [str] operations used by the program                      *)
(* ===================================================================== *)

Module PyStr.

Definition nl : ascii := "010"%char.
Definition dquote : ascii := "034"%char.
Definition squote : ascii := "039"%char.
Definition backslash : ascii := "092"%char.

(** [old] is a prefix of [s]: on success, what follows it. *)
Fixpoint strip_prefix (old s : str) : option str :=
  match old, s with
  | [], _ => Some s
  | a :: old', c :: s' => if decide (a = c) then strip_prefix old' s' else None
  | _ :: _, [] => None
  end.

Definition startswith (s old : str) : bool :=
  bool_decide (is_Some (strip_prefix old s)).

(** [old in s] *)
Fixpoint contains (old s : str) : bool :=
  startswith s old ||
  match s with
  | [] => false
  | _ :: s' => contains old s'
  end.

(** [s.replace(old, new)] for a non-empty [old]: the scan goes left to
    right; after a replacement the next [length old - 1] characters are
    skipped, so occurrences do not overlap and [new] is not rescanned. *)
Fixpoint replace_from (old new : str) (skip : nat) (s : str) : str :=
  match s with
  | [] => []
  | c :: s' =>
      match skip with
      | S n => replace_from old new n s'
      | O =>
          if startswith s old
          then new ++ replace_from old new (length old - 1) s'
          else c :: replace_from old new 0 s'
      end
  end.

(** [s.replace(old, new)]; an empty [old] matches between all characters. *)
Definition replace (s old new : str) : str :=
  match old with
  | [] => new ++ concat ((λ c, c :: new) <$> s)
  | _ :: _ => replace_from old new 0 s
  end.

(** [s.split(sep)] for a one-character separator. *)
Fixpoint split_from (sep : ascii) (piece : str) (s : str) : list str :=
  match s with
  | [] => [piece]
  | c :: s' =>
      if decide (c = sep) then piece :: split_from sep [] s'
      else split_from sep (piece ++ [c]) s'
  end.

Definition split (s : str) (sep : ascii) : list str := split_from sep [] s.

(** [l[-1]] on the non-empty list returned by [split]. *)
Definition last_item (l : list str) : str := List.last l [].

(** [c.isspace()] for a code point below 256. *)
Definition isspace (c : ascii) : bool :=
  let n := nat_of_ascii c in
  ((9 <=? n) && (n <=? 13)) || ((28 <=? n) && (n <=? 32))
  || (n =? 133) || (n =? 160).

Fixpoint lstrip (s : str) : str :=
  match s with
  | c :: s' => if isspace c then lstrip s' else s
  | [] => []
  end.

Definition rstrip (s : str) : str := reverse (lstrip (reverse s)).

(** [s.strip()] *)
Definition strip (s : str) : str := rstrip (lstrip s).

Definition hexdigit (n : nat) : ascii :=
  if n <? 10 then ascii_of_nat (48 + n) else ascii_of_nat (87 + n).

(** [c.isprintable()] for a code point below 256. *)
Definition isprintable (c : ascii) : bool :=
  let n := nat_of_ascii c in
  ((32 <=? n) && (n <? 127)) || ((161 <=? n) && negb (n =? 173)).

(** One character of [repr(s)] inside the quotes [q]. *)
Definition repr_char (q : ascii) (c : ascii) : str :=
  if decide (c = q ∨ c = backslash) then [backslash; c]
  else if decide (c = "009"%char) then [backslash; "t"%char]
  else if decide (c = nl) then [backslash; "n"%char]
  else if decide (c = "013"%char) then [backslash; "r"%char]
  else if isprintable c then [c]
  else let n := nat_of_ascii c in
       [backslash; "x"%char; hexdigit (n / 16); hexdigit (n mod 16)].

(** [repr(s)]: single quotes unless the string has a single quote and no
    double quote. *)
Definition repr (s : str) : str :=
  let q := if bool_decide (squote ∈ s) && negb (bool_decide (dquote ∈ s))
           then dquote else squote in
  [q] ++ concat (repr_char q <$> s) ++ [q].

(** [str(n)] for a non-negative integer. *)
Fixpoint digits_fuel (fuel n : nat) (acc : str) : str :=
  match fuel with
  | O => acc
  | S fuel' =>
      let acc' := ascii_of_nat (48 + n mod 10) :: acc in
      if n <? 10 then acc' else digits_fuel fuel' (n / 10) acc'
  end.

Definition str_of_nat (n : nat) : str := digits_fuel (S n) n [].

End PyStr.

(* ===================================================================== *)
(** * Python's [re]: the backtracking matcher for the constructs used    *)
(* ===================================================================== *)

Module Re.
Import PyStr.

(** The pattern constructs that occur in the program's four patterns.
    Repetition is only ever applied to a single character class. *)
Inductive regex :=
| Lit (w : str)                      (* literal text *)
| Class (p : ascii → bool)           (* one character of a class *)
| Cat (r1 r2 : regex)                (* r1 r2 *)
| Alt (r1 r2 : regex)                (* r1|r2 *)
| Opt (r : regex)                    (* r? *)
| Plus (p : ascii → bool)            (* [p]+ greedy *)
| PlusLazy (p : ascii → bool)        (* [p]+? reluctant *)
| Star (p : ascii → bool)            (* [p]* greedy *)
| Group (name : string) (r : regex)  (* (r) or (?P<name>r) *)
| Eol.                               (* $ *)

(** Captured groups, most recent binding first. *)
Definition captures := list (string * str).

(** [m.group(name)]; every group read by the program takes part in
    every match of its pattern. *)
Fixpoint group (caps : captures) (name : string) : str :=
  match caps with
  | [] => []
  | (n, v) :: caps' => if decide (n = name) then v else group caps' name
  end.

Section Matcher.
Context {R : Type}.

(** Greedy repetition: the longest run first, then shorter ones. *)
Fixpoint greedy (p : ascii → bool) (s : str) (k : str → option R)
    : option R :=
  match s with
  | c :: s' =>
      if p c then
        match greedy p s' k with
        | Some x => Some x
        | None => k s
        end
      else k s
  | [] => k s
  end.

(** Reluctant repetition: the shortest run first, then longer ones. *)
Fixpoint reluctant (p : ascii → bool) (s : str) (k : str → option R)
    : option R :=
  match k s with
  | Some x => Some x
  | None =>
      match s with
      | c :: s' => if p c then reluctant p s' k else None
      | [] => None
      end
  end.

(** [rmatch r s caps k]: match [r] at the start of [s], then continue
    with [k] on the rest; alternatives are tried in the order of the
    [sre] engine, and the first success of the whole is returned. *)
Fixpoint rmatch (r : regex) (s : str) (caps : captures)
    (k : str → captures → option R) : option R :=
  match r with
  | Lit w =>
      match strip_prefix w s with
      | Some s' => k s' caps
      | None => None
      end
  | Class p =>
      match s with
      | c :: s' => if p c then k s' caps else None
      | [] => None
      end
  | Cat r1 r2 => rmatch r1 s caps (λ s' caps', rmatch r2 s' caps' k)
  | Alt r1 r2 =>
      match rmatch r1 s caps k with
      | Some x => Some x
      | None => rmatch r2 s caps k
      end
  | Opt r1 =>
      match rmatch r1 s caps k with
      | Some x => Some x
      | None => k s caps
      end
  | Plus p =>
      match s with
      | c :: s' => if p c then greedy p s' (λ s'', k s'' caps) else None
      | [] => None
      end
  | PlusLazy p =>
      match s with
      | c :: s' => if p c then reluctant p s' (λ s'', k s'' caps) else None
      | [] => None
      end
  | Star p => greedy p s (λ s', k s' caps)
  | Group name r1 =>
      rmatch r1 s caps
        (λ s' caps', k s' ((name, take (length s - length s') s) :: caps'))
  | Eol => if decide (s = [] ∨ s = [nl]) then k s caps else None
  end.
End Matcher.

(** A match object: the text before the match, the groups, the text
    after the match. *)
Record match_obj := {
  m_pre : str;
  m_groups : captures;
  m_post : str
}.

(** [re.match(r, s)] *)
Definition re_match (r : regex) (s : str) : option match_obj :=
  rmatch r s []
    (λ s' caps, Some {| m_pre := []; m_groups := caps; m_post := s' |}).

(** [re.search(r, s)]: the match at the leftmost position that has one;
    [pre] is the text already passed. *)
Fixpoint search_from (r : regex) (pre : str) (s : str) : option match_obj :=
  match rmatch r s []
          (λ s' caps, Some {| m_pre := pre; m_groups := caps; m_post := s' |})
  with
  | Some m => Some m
  | None =>
      match s with
      | [] => None
      | c :: s' => search_from r (pre ++ [c]) s'
      end
  end.

Definition re_search (r : regex) (s : str) : option match_obj :=
  search_from r [] s.



(** Character classes. *)
Definition is_digit (c : ascii) : bool :=
  let n := nat_of_ascii c in (48 <=? n) && (n <=? 57).
Definition dot (c : ascii) : bool := negb (bool_decide (c = nl)).
Definition one_of (cs : str) (c : ascii) : bool := bool_decide (c ∈ cs).
Definition none_of (cs : str) (c : ascii) : bool := negb (bool_decide (c ∈ cs)).

End Re.

(* ===================================================================== *)
(** * The program (whatsapp_archive.py)                                  *)
(* ===================================================================== *)

Import PyStr Re.

(** A Python string literal; a backquote stands for the double quote
    character (the program's text has no backquote of its own). *)
Definition py (s : string) : str :=
  (λ c, if decide (c = "`"%char) then dquote else c) <$> s_ s.

(** ** Exceptions and results *)

Inductive exn :=
| Error (msg : str)            (* class Error(Exception), line 32 *)
| ParserError (timestr : str)  (* dateutil.parser.ParserError *)
| OverflowError                (* the builtin, raised by dateutil *)
| UndefinedError.              (* jinja2.exceptions.UndefinedError *)

Inductive result (A : Type) :=
| Return (a : A)
| Raise (e : exn).
Arguments Return {A} a.
Arguments Raise {A} e.

(** Sequencing: an exception raised by the first step propagates. *)
Global Instance result_bind : MBind result := λ A B f x,
  match x with
  | Return a => f a
  | Raise e => Raise e
  end.

(** ** The patterns (lines 16-29)

    A pattern is kept both as its text, which the error message of
    [IdentifyMessages] prints, and as the expression the text denotes.
    Python's [+] on pattern texts is [pcat]. *)

Record pattern := { source : str; compiled : regex }.

Definition pcat (a b : pattern) : pattern :=
  {| source := source a ++ source b;
     compiled := Cat (compiled a) (compiled b) |}.
Infix "+++" := pcat (at level 60, right associativity).

(** [[\d/\-.]] and [[\d:]] *)
Definition date_char (c : ascii) : bool := is_digit c || one_of (s_ "/-.") c.
Definition time_char (c : ascii) : bool := is_digit c || one_of (s_ ":") c.

Definition DATE_RE : pattern :=
  {| source := s_ "(?P<date>[\d/\-.]+)";
     compiled := Group "date" (Plus date_char) |}.

Definition TIME_RE : pattern :=
  {| source := s_ "(?P<time>[\d:]+( [AP]M)?)";
     compiled :=
       Group "time"
         (Cat (Plus time_char)
              (Opt (Group "3" (Cat (Lit (s_ " "))
                              (Cat (Class (one_of (s_ "AP")))
                                   (Lit (s_ "M"))))))) |}.

Definition DATETIME_RE : pattern :=
  {| source := s_ "\[?"; compiled := Opt (Lit (s_ "[")) |} +++
  DATE_RE +++
  {| source := s_ ",? "; compiled := Cat (Opt (Lit (s_ ","))) (Lit (s_ " ")) |} +++
  TIME_RE +++
  {| source := s_ "\]?"; compiled := Opt (Lit (s_ "]")) |}.

Definition SEPARATOR_RE : pattern :=
  {| source := s_ "( - |: | )";
     compiled :=
       Group "4" (Alt (Lit (s_ " - ")) (Alt (Lit (s_ ": ")) (Lit (s_ " ")))) |}.

Definition NAME_RE : pattern :=
  {| source := s_ "(?P<name>[^:]+?)";
     compiled := Group "name" (PlusLazy (none_of (s_ ":"))) |}.

Definition BODY_RE : pattern :=
  {| source := s_ "(?P<body>.*$)";
     compiled := Group "body" (Cat (Star dot) Eol) |}.

Definition WHATSAPP_RE : pattern :=
  DATETIME_RE +++
  SEPARATOR_RE +++
  NAME_RE +++
  {| source := s_ ": "; compiled := Lit (s_ ": ") |} +++
  BODY_RE.

Definition FIRSTLINE_RE : pattern :=
  DATETIME_RE +++
  SEPARATOR_RE +++
  BODY_RE.

(** ['(<attached: (.+?)>)'], line 37 *)
Definition ATTACHED_RE : pattern :=
  {| source := s_ "(<attached: (.+?)>)";
     compiled :=
       Group "1" (Cat (Lit (s_ "<attached: "))
                 (Cat (Group "2" (PlusLazy dot)) (Lit (s_ ">")))) |}.

(** ** replace_attachment (lines 36-50) *)

(** The replacement text [ret] chosen from the extension of [file]. *)
Definition attachment_html (file : str) : str :=
  let ext := last_item (split file "."%char) in
  if bool_decide (ext ∈ [s_ "jpg"; s_ "png"; s_ "jpeg"]) then
    py "<a target=`_blank` href=`" ++ file ++
    py "`><img width=`128` height=`128` src=`" ++ file ++ py "` /></a><br>"
  else if bool_decide (ext ∈ [s_ "opus"]) then
    py "<audio controls src=`" ++ file ++ py "` /><br>"
  else if bool_decide (ext ∈ [s_ "mp4"]) then
    py "<video controls src=`" ++ file ++ py "` /><br>"
  else
    py "<a target=`_blank` href=`" ++ file ++ py "` />" ++ file ++ py "</a>".

Definition replace_attachment (body : str) : str :=
  match re_search (compiled ATTACHED_RE) body with
  | Some attachment =>
      let file := group (m_groups attachment) "2" in
      let ret := attachment_html file in
      replace body (group (m_groups attachment) "1") ret
  | None => body
  end.

(** ** dateutil

    [dateutil.parser.parse] is an external library.  It is taken as a
    parameter: a function from the text to an abstract [datetime] or to
    the exception that it raises.  For a string its documentation names
    two: [ParserError], for a text that holds no date or no valid one,
    and [OverflowError], for a text with a number too large for the
    platform.  One more fact is used about it: a text made only of
    separator characters holds no date. *)

Definition is_separator (c : ascii) : bool := bool_decide (c ∈ s_ " ./-:").

Class DateParser := {
  datetime : Type;
  (** [dateutil.parser.parse(timestr, dayfirst=True)] *)
  dateutil_parse : str → result datetime;
  (** [str(d)] *)
  datetime_str : datetime → str;
  dateutil_parse_raises :
    ∀ timestr e, dateutil_parse timestr = Raise e →
                 e = ParserError timestr ∨ e = OverflowError;
  dateutil_parse_separators :
    ∀ timestr, forallb is_separator timestr = true →
               dateutil_parse timestr = Raise (ParserError timestr)
}.

(** A parser to run the program on examples: it keeps the text as the
    date and rejects only what every parser must reject. *)
Definition text_dates_parse (timestr : str) : result str :=
  if forallb is_separator timestr then Raise (ParserError timestr)
  else Return timestr.

#[local] Program Instance text_dates : DateParser := {|
  datetime := str;
  dateutil_parse := text_dates_parse;
  datetime_str d := d
|}.
Next Obligation.
  intros timestr e. unfold text_dates_parse.
  destruct (forallb is_separator timestr); [|done]. intros [= <-]. by left.
Qed.
Next Obligation. intros timestr Hsep. unfold text_dates_parse. by rewrite Hsep. Qed.

(** A message is the tuple [(msg_date, msg_user, msg_body)]. *)
Definition message (datetime : Type) : Type := datetime * str * str.

Section Parsing.
Context `{DateParser}.

(** ** ParseLine (lines 53-70) *)
Definition ParseLine (line : str) : result (option (message datetime)) :=
  match re_match (compiled WHATSAPP_RE) line with
  | Some m =>
      let body := replace_attachment (group (m_groups m) "body") in
      d ← dateutil_parse (group (m_groups m) "date" ++ s_ " " ++
                          group (m_groups m) "time");
      Return (Some (d, group (m_groups m) "name", body))
  | None =>
      match re_match (compiled FIRSTLINE_RE) line with
      | Some m =>
          let body := replace_attachment (group (m_groups m) "body") in
          d ← dateutil_parse (group (m_groups m) "date" ++ s_ " " ++
                              group (m_groups m) "time");
          Return (Some (d, s_ "nobody", body))
      | None => Return None
      end
  end.

(** ** IdentifyMessages (lines 73-100)

    [msg_date], [msg_user] and [msg_body] are assigned together (line 90)
    from a tuple whose date is a [datetime], so they are [None] together:
    the loop state is [messages] and the optional message in progress. *)
Record reassembler_state := {
  messages : list (message datetime);
  in_progress : option (message datetime)
}.

Definition first_line_error (line : str) : str :=
  s_ "Can't parse the first line: " ++ repr line ++
  s_ ", regexes are FIRSTLINE_RE=" ++ repr (source FIRSTLINE_RE) ++
  s_ " and WHATSAPP_RE=" ++ repr (source WHATSAPP_RE).

(** The text appended to [msg_body] for a continuation line (line 96). *)
Definition continuation (line : str) : str := [nl] ++ strip line.

(** One iteration of [for line in lines]. *)
Definition IdentifyMessages_step (st : reassembler_state) (line : str)
    : result reassembler_state :=
  m ← ParseLine line;
  match m with
  | Some m' =>
      let messages' :=
        match in_progress st with
        | Some cur => messages st ++ [cur]
        | None => messages st
        end in
      Return {| messages := messages'; in_progress := Some m' |}
  | None =>
      match in_progress st with
      | None => Raise (Error (first_line_error line))
      | Some (msg_date, msg_user, msg_body) =>
          Return {| messages := messages st;
                    in_progress :=
                      Some (msg_date, msg_user,
                            msg_body ++ continuation line) |}
      end
  end.

Fixpoint IdentifyMessages_loop (st : reassembler_state) (lines : list str)
    : result reassembler_state :=
  match lines with
  | [] => Return st
  | line :: lines' =>
      st' ← IdentifyMessages_step st line;
      IdentifyMessages_loop st' lines'
  end.

Definition IdentifyMessages (lines : list str)
    : result (list (message datetime)) :=
  st ← IdentifyMessages_loop {| messages := []; in_progress := None |} lines;
  match in_progress st with
  | Some cur => Return (messages st ++ [cur])
  | None => Return (messages st)
  end.

(** [ParseLine] returned a tuple (not [None], and did not raise). *)
Definition is_matched (r : result (option (message datetime))) : bool :=
  match r with
  | Return (Some _) => true
  | _ => false
  end.

(** The number of lines on which [ParseLine] returns a match. *)
Definition matched_lines (lines : list str) : nat :=
  length (filter (λ line, is_matched (ParseLine line) = true) lines).

End Parsing.

(* ===================================================================== *)
(** ** itertools.groupby and TemplateData (lines 103-118)                *)
(* ===================================================================== *)

(** [itertools.groupby(iterable, key)]: the group under construction has
    key [k] (the key of its first element) and members [grp]; an element
    whose key differs closes it and opens the next group. *)
Fixpoint groupby_from {A K : Type} `{EqDecision K} (key : A → K)
    (k : K) (grp : list A) (l : list A) : list (K * list A) :=
  match l with
  | [] => [(k, grp)]
  | x :: l' =>
      if decide (key x = k) then groupby_from key k (grp ++ [x]) l'
      else (k, grp) :: groupby_from key (key x) [x] l'
  end.

Definition groupby {A K : Type} `{EqDecision K} (key : A → K)
    (l : list A) : list (K * list A) :=
  match l with
  | [] => []
  | x :: l' => groupby_from key (key x) [x] l'
  end.

(** ** os.path

    [os.path] is the path module of the platform the program runs on,
    [posixpath] or [ntpath], and the two split a path differently.
    [os.path.basename] is taken as a parameter. *)
Class OsPath := {
  (** [os.path.basename(p)] *)
  os_path_basename : str → str
}.

(** [posixpath.basename], to run the program on examples: the text after
    the last slash. *)
Fixpoint basename_from (acc : str) (p : str) : str :=
  match p with
  | [] => acc
  | c :: p' =>
      if decide (c = "/"%char) then basename_from [] p'
      else basename_from (acc ++ [c]) p'
  end.

Definition basename (p : str) : str := basename_from [] p.

#[local] Instance posixpath : OsPath := {| os_path_basename := basename |}.

Section Grouper.
Context {datetime : Type} `{OsPath}.

(** [lambda x: x[1]] *)
Definition sender (x : message datetime) : str := x.1.2.

(** The dictionary returned by [TemplateData]. *)
Record template_data := {
  by_user : list (str * list (message datetime));
  input_basename : str;
  input_full_path : str;
  user_idx : gmap str nat
}.

(** The loop variables [user_idx], [idx], [by_user]. *)
Record grouper_state := {
  gs_user_idx : gmap str nat;
  gs_idx : nat;
  gs_by_user : list (str * list (message datetime))
}.

(** One iteration of the [for user, msgs_of_user in groupby(...)] loop. *)
Definition TemplateData_step (st : grouper_state)
    (g : str * list (message datetime)) : grouper_state :=
  let '(user, msgs_of_user) := g in
  match gs_user_idx st !! user with
  | None =>
      {| gs_user_idx := <[user := gs_idx st]> (gs_user_idx st);
         gs_idx := gs_idx st + 1;
         gs_by_user := gs_by_user st ++ [(user, msgs_of_user)] |}
  | Some _ =>
      {| gs_user_idx := gs_user_idx st;
         gs_idx := gs_idx st;
         gs_by_user := gs_by_user st ++ [(user, msgs_of_user)] |}
  end.

Definition TemplateData_init : grouper_state :=
  {| gs_user_idx := ∅; gs_idx := 1; gs_by_user := [] |}.

Definition TemplateData (messages : list (message datetime))
    (input_filename : str) : template_data :=
  let st := foldl TemplateData_step TemplateData_init
              (groupby sender messages) in
  {| by_user := gs_by_user st;
     input_basename := os_path_basename input_filename;
     input_full_path := input_filename;
     user_idx := gs_user_idx st |}.

(** The specification's words for the sender index: [u] is the [n]-th
    distinct sender of [msgs] when the first message of [u] comes after
    messages of exactly [n - 1] distinct senders. *)
Definition nth_distinct_sender (msgs : list (message datetime))
    (n : nat) (u : str) : Prop :=
  ∃ pre m post,
    msgs = pre ++ m :: post ∧ sender m = u ∧
    (u ∉ sender <$> pre) ∧
    S (size (list_to_set (sender <$> pre) : gset str)) = n.

End Grouper.
Arguments template_data : clear implicits.
Arguments grouper_state : clear implicits.

(* ===================================================================== *)
(** ** FormatHTML (lines 121-247)                                        *)
(* ===================================================================== *)

(** The literal text of the template (lines 122-246) between its Jinja
    tags, in order. *)
Module Template.
Definition tmpl_title : str := py "<!DOCTYPE html>
    <html>
    <head>
        <title>WhatsApp archive ".

Definition tmpl_style : str := py "</title>
        <meta charset=`utf-8`/>
        <meta name=`viewport` content=`width=device-width, initial-scale=1`>
        <style>
            body {
                font-family: sans-serif;
                font-size: 10px;
            }
            ol.users {
                list-style-type: none;
                list-style-position: inside;
                margin: 0;
                padding: 0;
            }
            ol.messages {
                list-style-type: none;
                list-style-position: inside;
                margin: 0;
                padding: 0;
            }
            ol.messages li {
                margin-left: 1em;
                font-size: 12px;
            }
            span.username {
                color: gray;
            }
            span.date {
                color: gray;
            }
            a {
  color: hotpink;
}

.chatbox {
    width: 100%;
    margin-bottom: 10px;
    background: #bfbfbf;
}

.u1 {
    background: #0A1518 !important;
    color: white;
    font-weight: bold;
}
.chatbox.u1 span {
    color: #fffb00 !important;
}

.u2 {
    background: #423103 !important;
    color: white;
    font-weight: bold;
}
.chatbox.u2 span {
    color: #fffb00 !important;
}

.u3 {
    background: #707010 !important;
    color: white;
    font-weight: bold;
}
.chatbox.u3 span {
    color: #fffb00 !important;
}

.u5 {
    background: #0D376E !important;
    color: white;
    font-weight: bold;
}
.chatbox.u5 span {
    color: #fffb00 !important;
}

.u6 {
    background: #692D6E !important;
    color: white;
    font-weight: bold;
}
.chatbox.u6 span {
    color: #fffb00 !important;
}

.u7 {
    background: #413A6E !important;
    color: white;
    font-weight: bold;
}
.chatbox.u7 span {
    color: #fffb00 !important;
}

.chatbox span {
    padding-bottom: 5px;
    color: darkred;
    font-weight: bold;
}



        </style>
    </head>
    <body>
        <h1>".

Definition tmpl_container : str := py "</h1>
        <div class=`container`>
        ".

Definition tmpl_chatbox : str := py "
    <div class=`chatbox u".

Definition tmpl_username : str := py "`>
            <div class=`user`>
            <span class=`username` style=`margin-left: 15px`>".

Definition tmpl_date : str := py "</span>
            <span class=`date` style=`margin-left: 15px`>".

Definition tmpl_messages : str := py "</span>
            ".

Definition tmpl_message : str := py "
                <div style=`margin-left: 20px`>".

Definition tmpl_message_end : str := py "</div><br>
            ".

Definition tmpl_chatbox_end : str := py "
            </div>
      </div>
        ".

Definition tmpl_end : str := py "
        </div>
    </body>
    </html>
    ".

End Template.

(** ** Jinja's subscript

    [{{ user_idx[user] }}] prints the index of a user that is a key of
    [user_idx].  For a user that is no key, Jinja's [getitem] looks the
    name up among the attributes of the dict: for the name of a method,
    such as [keys], it prints the text of the bound method, which holds
    an address, and for a name that is no attribute it gives [Undefined],
    which prints as the empty text.  What is printed for a user that is
    no key is taken as a parameter. *)
Class DictAttributes := {
  missing_key_text : str → str
}.

(** No user bears the name of an attribute: to run the program on
    examples. *)
#[local] Instance no_attributes : DictAttributes :=
  {| missing_key_text _ := [] |}.

Section Renderer.
Context `{DateParser} `{OsPath} `{DictAttributes}.
Import Template.

(** [{{ user_idx[user] }}] *)
Definition render_user_idx (idx : gmap str nat) (user : str) : str :=
  match idx !! user with
  | Some i => str_of_nat i
  | None => missing_key_text user
  end.

(** [{{ messages[0][0] }}]: subscripting the [Undefined] of an empty list
    raises. *)
Definition render_first_date (msgs : list (message datetime))
    : result str :=
  match msgs with
  | m :: _ => Return (datetime_str m.1.1)
  | [] => Raise UndefinedError
  end.

(** The body of [{% for message in messages %}]. *)
Definition render_message (m : message datetime) : str :=
  tmpl_message ++ m.2 ++ tmpl_message_end.

(** The body of [{% for user, messages in by_user %}]. *)
Definition render_run (idx : gmap str nat)
    (run : str * list (message datetime)) : result str :=
  let '(user, msgs) := run in
  date ← render_first_date msgs;
  Return (tmpl_chatbox ++ render_user_idx idx user ++
          tmpl_username ++ user ++
          tmpl_date ++ date ++
          tmpl_messages ++ concat (render_message <$> msgs) ++
          tmpl_chatbox_end).

Fixpoint render_runs (idx : gmap str nat)
    (runs : list (str * list (message datetime))) : result str :=
  match runs with
  | [] => Return []
  | run :: runs' =>
      a ← render_run idx run;
      b ← render_runs idx runs';
      Return (a ++ b)
  end.

Definition FormatHTML (data : template_data datetime) : result str :=
  blocks ← render_runs (user_idx data) (by_user data);
  Return (tmpl_title ++ input_basename data ++
          tmpl_style ++ input_basename data ++
          tmpl_container ++ blocks ++ tmpl_end).



End Renderer.

(* ===================================================================== *)
(** * Notions used in the statements and in the proofs                   *)
(* ===================================================================== *)

(** ** Markers *)

Section MarkerNotions.
Import PyStr Re.

(** The marker text [<attached: FILENAME>]. *)
Definition marker (file : str) : str := s_ "<attached: " ++ file ++ s_ ">".

(** The specification's notion: the string holds a marker with some
    non-empty file name on one line. *)
Definition has_marker (s : str) : Prop :=
  ∃ pre file post, s = pre ++ marker file ++ post ∧ file ≠ [] ∧ nl ∉ file.

(** The reluctant [.+?>] after the first character of the name: the text
    up to the next [>], which a line break must not precede. *)
Fixpoint scan_file (t : str) : option (str * str) :=
  match t with
  | [] => None
  | x :: t' =>
      if decide (x = ">"%char) then Some ([], t')
      else if dot x then
        match scan_file t' with
        | Some (f, post) => Some (x :: f, post)
        | None => None
        end
      else None
  end.

(** The marker that starts at the head of [s]: its file name and the
    text behind it. *)
Definition marker_at (s : str) : option (str * str) :=
  match strip_prefix (s_ "<attached: ") s with
  | Some (c :: t) =>
      if dot c then
        match scan_file t with
        | Some (f, post) => Some (c :: f, post)
        | None => None
        end
      else None
  | _ => None
  end.

(** The leftmost marker of [s]: the text before it, its file name and
    the text behind it. *)
Fixpoint first_marker_from (pre s : str) : option (str * str * str) :=
  match marker_at s with
  | Some (file, post) => Some (pre, file, post)
  | None =>
      match s with
      | [] => None
      | c :: s' => first_marker_from (pre ++ [c]) s'
      end
  end.

Definition first_marker (s : str) : option (str * str * str) :=
  first_marker_from [] s.


(** The match object that [re.search] returns for the leftmost marker. *)
Definition attached_match (m : str * str * str) : match_obj :=
  {| m_pre := m.1.1;
     m_groups := [("1"%string, marker m.1.2); ("2"%string, m.1.2)];
     m_post := m.2 |}.

(** The specification's words for the extension: the text after the
    last dot.  A name without dot has no such text. *)
Definition text_after_last_dot (file ext : str) : Prop :=
  ∃ stem, file = stem ++ "."%char :: ext ∧ "."%char ∉ ext.

(** What the code takes for the extension, [file.split('.')[-1]]: the
    text after the last dot, and the whole name when it has no dot. *)
Definition after_last_dot (file ext : str) : Prop :=
  text_after_last_dot file ext ∨ (("."%char ∉ file) ∧ ext = file).

End MarkerNotions.

(** ** Matches of a line *)

Section LineNotions.
Context `{DateParser}.
Import PyStr Re.

(** The date and time text handed to [dateutil] for a match. *)
Definition timestr_of (m : match_obj) : str :=
  group (m_groups m) "date" ++ s_ " " ++ group (m_groups m) "time".

(** The match that [ParseLine] works with: of the full pattern, or else
    of the first-line pattern. *)
Definition line_match (line : str) : option (match_obj * bool) :=
  match re_match (compiled WHATSAPP_RE) line with
  | Some m => Some (m, true)
  | None =>
      match re_match (compiled FIRSTLINE_RE) line with
      | Some m => Some (m, false)
      | None => None
      end
  end.

(** The messages that a state accounts for: those emitted and the one in
    progress. *)
Definition accounted (st : reassembler_state) : nat :=
  length (messages st) + (if in_progress st is Some _ then 1 else 0).

End LineNotions.

(** ** Sender ranks *)

Section RankNotions.
Context {datetime : Type}.

(** [u] is the [n]-th distinct element of [us]. *)
Definition nth_distinct (us : list str) (n : nat) (u : str) : Prop :=
  ∃ pre post, us = pre ++ u :: post ∧ (u ∉ pre) ∧
              S (size (list_to_set pre : gset str)) = n.

(** The effect of one iteration on [user_idx] and [idx] depends on the
    sender of the group only. *)
Definition assign (p : gmap str nat * nat) (u : str) : gmap str nat * nat :=
  match p.1 !! u with
  | None => (<[u := p.2]> p.1, p.2 + 1)
  | Some _ => p
  end.

Definition index_of (st : grouper_state datetime) : gmap str nat * nat := (gs_user_idx st, gs_idx st).

(** What the loop has established once the senders [seen] are passed. *)
Definition index_inv (seen : list str) (p : gmap str nat * nat) : Prop :=
  (∀ u n, p.1 !! u = Some n ↔ nth_distinct seen n u) ∧
  p.2 = S (size (list_to_set seen : gset str)).

End RankNotions.

(** ** Style classes *)

Section PaletteNotions.
Import PyStr Re.



End PaletteNotions.

(** ** Example data *)


(* ===================================================================== *)
(** * Further notions: what a pattern accepts                            *)
(* ===================================================================== *)

Section PatternNotions.
Import PyStr Re.

(** [matches r w rest caps caps']: the pattern [r] accepts the text [w]
    when [rest] follows it (which [$] looks at), and the groups [caps]
    bound before become [caps']. *)
Inductive matches : regex → str → str → captures → captures → Prop :=
| matches_Lit w rest caps :
    matches (Lit w) w rest caps caps
| matches_Class (p : ascii → bool) c rest caps :
    p c = true → matches (Class p) [c] rest caps caps
| matches_Cat r1 r2 w1 w2 rest caps caps1 caps2 :
    matches r1 w1 (w2 ++ rest) caps caps1 →
    matches r2 w2 rest caps1 caps2 →
    matches (Cat r1 r2) (w1 ++ w2) rest caps caps2
| matches_Alt_l r1 r2 w rest caps caps1 :
    matches r1 w rest caps caps1 → matches (Alt r1 r2) w rest caps caps1
| matches_Alt_r r1 r2 w rest caps caps1 :
    matches r2 w rest caps caps1 → matches (Alt r1 r2) w rest caps caps1
| matches_Opt_some r w rest caps caps1 :
    matches r w rest caps caps1 → matches (Opt r) w rest caps caps1
| matches_Opt_none r rest caps :
    matches (Opt r) [] rest caps caps
| matches_Plus (p : ascii → bool) c w rest caps :
    p c = true → Forall (λ x, p x = true) w →
    matches (Plus p) (c :: w) rest caps caps
| matches_PlusLazy (p : ascii → bool) c w rest caps :
    p c = true → Forall (λ x, p x = true) w →
    matches (PlusLazy p) (c :: w) rest caps caps
| matches_Star (p : ascii → bool) w rest caps :
    Forall (λ x, p x = true) w → matches (Star p) w rest caps caps
| matches_Group name r w rest caps caps1 :
    matches r w rest caps caps1 →
    matches (Group name r) w rest caps ((name, w) :: caps1)
| matches_Eol rest caps :
    rest = [] ∨ rest = [nl] → matches Eol [] rest caps caps.

End PatternNotions.

(** ** The layout of a message line *)

Section LayoutNotions.
Import PyStr Re.

(** The date of a line: characters of [[\d/\-.]], at least one. *)
Definition date_text (date : str) : Prop :=
  date ≠ [] ∧ Forall (λ c, date_char c = true) date.

(** The time of a line: characters of [[\d:]], at least one, and then
    possibly [ AM] or [ PM]. *)
Definition time_text (time : str) : Prop :=
  ∃ t ampm, time = t ++ ampm ∧ t ≠ [] ∧
            Forall (λ c, time_char c = true) t ∧
            ampm ∈ [[]; s_ " AM"; s_ " PM"].

(** The head of a line: date and time with the optional bracket, comma
    and bracket of [DATETIME_RE]. *)
Definition datetime_text (date time head : str) : Prop :=
  ∃ ob comma cb,
    head = ob ++ date ++ comma ++ s_ " " ++ time ++ cb ∧
    ob ∈ [[]; s_ "["] ∧ comma ∈ [[]; s_ ","] ∧ cb ∈ [[]; s_ "]"] ∧
    date_text date ∧ time_text time.

(** The groups that the date and the time leave behind. *)
Definition datetime_groups (date time : str) (c c' : captures) : Prop :=
  c' = ("time"%string, time) :: ("date"%string, date) :: c ∨
  ∃ a, c' = ("time"%string, time) :: ("3"%string, a) ::
              ("date"%string, date) :: c.

(** A line with a sender, as [WHATSAPP_RE] describes it. *)
Definition named_line (date time name body line : str) : Prop :=
  ∃ head sep eol,
    line = head ++ sep ++ name ++ s_ ": " ++ body ++ eol ∧
    datetime_text date time head ∧
    sep ∈ [s_ " - "; s_ ": "; s_ " "] ∧
    name ≠ [] ∧ (":"%char ∉ name) ∧ (nl ∉ body) ∧
    eol ∈ [[]; [nl]].

(** A line without a sender, as [FIRSTLINE_RE] describes it. *)
Definition unnamed_line (date time body line : str) : Prop :=
  ∃ head sep eol,
    line = head ++ sep ++ body ++ eol ∧
    datetime_text date time head ∧
    sep ∈ [s_ " - "; s_ ": "; s_ " "] ∧
    (nl ∉ body) ∧
    eol ∈ [[]; [nl]].

(** The pattern of [ AM] and [ PM] inside [TIME_RE]. *)
Definition AMPM_RE : regex :=
  Group "3" (Cat (Lit (s_ " ")) (Cat (Class (one_of (s_ "AP"))) (Lit (s_ "M")))).

End LayoutNotions.

(** ** Message starts *)

Section StartNotions.
Context `{DateParser}.

(** The tuples that [ParseLine] returns on the lines of a file, in file
    order. *)
Definition message_starts (lines : list str) : list (message datetime) :=
  omap (λ line, if ParseLine line is Return (Some m) then Some m else None)
       lines.

(** A message and the tuple of its first line: same date, same sender,
    and the body of the first line opens the body of the message. *)
Definition grown_from (msg first : message datetime) : Prop :=
  msg.1 = first.1 ∧ first.2 `prefix_of` msg.2.

(** The messages of a state, the one in progress last. *)
Definition state_messages (st : reassembler_state) : list (message datetime) :=
  messages st ++ option_list (in_progress st).

End StartNotions.

(** ** The range of the sender indices *)

(** The indices handed out so far are the numbers from 1 up to, but not
    including, the next index, each to one sender. *)
Definition index_range (p : gmap str nat * nat) : Prop :=
  1 ≤ p.2 ∧
  (∀ u n, p.1 !! u = Some n → 1 ≤ n < p.2) ∧
  (∀ n, 1 ≤ n < p.2 → ∃ u, p.1 !! u = Some n) ∧
  (∀ u v n, p.1 !! u = Some n → p.1 !! v = Some n → u = v).

(* ===================================================================== *)
(** * Properties of the Grouper                                          *)
(* ===================================================================== *)

Section GroupbyFacts.
Context {A K : Type} `{EqDecision K} (key : A → K).

Lemma groupby_from_concat k grp l :
  concat (snd <$> groupby_from key k grp l) = grp ++ l.
Proof.
  revert k grp. induction l as [|x l IH]; intros k grp; simpl.
  - by rewrite !app_nil_r.
  - case_decide; simpl.
    + rewrite IH. by rewrite <- app_assoc.
    + by rewrite IH.
Qed.

Lemma groupby_concat l : concat (snd <$> groupby key l) = l.
Proof. destruct l as [|x l]; [done|]. simpl. apply groupby_from_concat. Qed.

(** Every group is non-empty and uniform in its key. *)
Lemma groupby_from_uniform k grp l :
  grp ≠ [] → Forall (λ x, key x = k) grp →
  Forall (λ g, g.2 ≠ [] ∧ Forall (λ x, key x = g.1) g.2)
         (groupby_from key k grp l).
Proof.
  revert k grp. induction l as [|x l IH]; intros k grp Hne Hall; simpl.
  - by repeat constructor.
  - case_decide.
    + apply IH; [by destruct grp|]. apply Forall_app. by repeat constructor.
    + constructor; [done|]. apply IH; [done|]. by repeat constructor.
Qed.

Lemma groupby_uniform l :
  Forall (λ g, g.2 ≠ [] ∧ Forall (λ x, key x = g.1) g.2) (groupby key l).
Proof.
  destruct l as [|x l]; [constructor|]. simpl.
  apply groupby_from_uniform; [done|]. by repeat constructor.
Qed.

Lemma groupby_from_head k grp l :
  ∃ g gs, groupby_from key k grp l = (k, g) :: gs.
Proof.
  revert grp. induction l as [|x l IH]; intros grp; simpl; [by eauto|].
  case_decide; eauto.
Qed.

(** Neighbouring groups have different keys: the groups are maximal. *)
Lemma groupby_from_maximal k grp l i g1 g2 :
  groupby_from key k grp l !! i = Some g1 →
  groupby_from key k grp l !! S i = Some g2 →
  g1.1 ≠ g2.1.
Proof.
  revert k grp i. induction l as [|x l IH]; intros k grp i; simpl.
  - by destruct i.
  - case_decide as Hk; [by apply IH|].
    destruct i as [|i]; simpl; [|by apply IH].
    destruct (groupby_from_head (key x) [x] l) as (g & gs & ->).
    simpl. intros [= <-] [= <-]. simpl. congruence.
Qed.

Lemma groupby_maximal l i g1 g2 :
  groupby key l !! i = Some g1 → groupby key l !! S i = Some g2 →
  g1.1 ≠ g2.1.
Proof. destruct l as [|x l]; [done|]. simpl. apply groupby_from_maximal. Qed.
End GroupbyFacts.

Section GrouperFacts.
Context {datetime : Type} `{OsPath}.
Implicit Types (st : grouper_state datetime) (msgs : list (message datetime)).

Lemma TemplateData_step_by_user st g :
  gs_by_user (TemplateData_step st g) = gs_by_user st ++ [g].
Proof. destruct g as [u ms]. unfold TemplateData_step. by case_match. Qed.

Lemma TemplateData_loop_by_user st gs :
  gs_by_user (foldl TemplateData_step st gs) = gs_by_user st ++ gs.
Proof.
  revert st. induction gs as [|g gs IH]; intros st; simpl.
  - by rewrite app_nil_r.
  - rewrite IH, TemplateData_step_by_user. by rewrite <- app_assoc.
Qed.

Lemma TemplateData_by_user msgs fn :
  by_user (TemplateData msgs fn) = groupby sender msgs.
Proof. unfold TemplateData. simpl. by rewrite TemplateData_loop_by_user. Qed.

(** C5. Concatenating the message lists of the runs of [by_user], in run
    order, gives back the message sequence; the runs are non-empty, each
    holds messages of its own sender only, and neighbouring runs have
    different senders, so the runs are the maximal blocks of adjacent
    messages of one sender. *)
Theorem TemplateData_lossless_partition msgs fn :
  concat (snd <$> by_user (TemplateData msgs fn)) = msgs ∧
  (∀ user ms, (user, ms) ∈ by_user (TemplateData msgs fn) →
              ms ≠ [] ∧ Forall (λ m, sender m = user) ms) ∧
  (∀ i run1 run2,
      by_user (TemplateData msgs fn) !! i = Some run1 →
      by_user (TemplateData msgs fn) !! S i = Some run2 →
      run1.1 ≠ run2.1).
Proof.
  rewrite TemplateData_by_user. split; [apply groupby_concat|]. split.
  - intros user ms Hin.
    pose proof (groupby_uniform sender msgs) as Hall.
    rewrite Forall_forall in Hall. apply (Hall _ Hin).
  - intros i run1 run2. apply groupby_maximal.
Qed.
End GrouperFacts.

(** ** The sender index *)

Section SenderIndex.
Context {datetime : Type} `{OsPath}.
Implicit Types (st : grouper_state datetime) (msgs : list (message datetime)).
Implicit Types (us seen : list str) (m : gmap str nat).

Lemma nth_distinct_sender_senders msgs n u :
  nth_distinct_sender msgs n u ↔ nth_distinct (sender <$> msgs) n u.
Proof.
  split.
  - intros (pre & x & post & -> & <- & Hni & Hn).
    exists (sender <$> pre), (sender <$> post).
    by rewrite fmap_app, fmap_cons.
  - intros (pre & post & Heq & Hni & Hn).
    apply fmap_app_inv in Heq as (pre' & rest & -> & Hrest & ->).
    symmetry in Hrest.
    apply fmap_cons_inv in Hrest as (x & post' & -> & -> & ->).
    by exists pre', x, post'.
Qed.

(** The first occurrence of an element splits a list in one way only. *)
Lemma first_occurrence_unique us us' post post' u :
  us ++ u :: post = us' ++ u :: post' → u ∉ us → u ∉ us' →
  us = us' ∧ post = post'.
Proof.
  intros Heq Hni Hni'.
  apply app_inj_pivot in Heq as [[[Hin _]|[_ Hin]]|?]; [| |done].
  - by apply list_elem_of_In in Hin.
  - by apply list_elem_of_In in Hin.
Qed.

Lemma nth_distinct_elem us n u : nth_distinct us n u → u ∈ us.
Proof. intros (pre & post & -> & _). set_solver. Qed.

Lemma nth_distinct_exists us u : u ∈ us → ∃ n, nth_distinct us n u.
Proof.
  intros (pre & post & -> & Hni)%list_elem_of_split_l.
  eexists. by exists pre, post.
Qed.

(** Appending an element leaves the rank of those present as it is. *)
Lemma nth_distinct_snoc_old us v n u :
  u ∈ us → nth_distinct (us ++ [v]) n u ↔ nth_distinct us n u.
Proof.
  intros Hin. split.
  - intros (pre & post & Heq & Hni & Hn).
    destruct (list_elem_of_split_l _ _ Hin) as (pre' & post' & -> & Hni').
    exists pre', post'. split; [done|]. split; [done|].
    rewrite <- app_assoc in Heq. simpl in Heq.
    by apply first_occurrence_unique in Heq as [-> _].
  - intros (pre & post & -> & Hni & Hn).
    exists pre, (post ++ [v]). by rewrite <- app_assoc.
Qed.

(** A new element takes the next rank. *)
Lemma nth_distinct_snoc_new us n u :
  u ∉ us →
  nth_distinct (us ++ [u]) n u ↔ n = S (size (list_to_set us : gset str)).
Proof.
  intros Hni. split.
  - intros (pre & post & Heq & Hni' & <-). symmetry in Heq.
    by apply first_occurrence_unique in Heq as [-> _].
  - intros ->. by exists us, [].
Qed.

Lemma nth_distinct_snoc_other us v n u :
  u ≠ v → nth_distinct (us ++ [v]) n u ↔ nth_distinct us n u.
Proof.
  intros Hne. split; intros Hu.
  - assert (u ∈ us) as Hin.
    { apply nth_distinct_elem, elem_of_app in Hu as [?|Hv]; [done|].
      by apply list_elem_of_singleton in Hv. }
    by apply nth_distinct_snoc_old in Hu.
  - apply nth_distinct_snoc_old; [by eapply nth_distinct_elem|done].
Qed.

Lemma TemplateData_step_assign st g :
  index_of (TemplateData_step st g) = assign (index_of st) g.1.
Proof.
  destruct g as [u ms]. unfold TemplateData_step, assign, index_of. simpl.
  by case_match.
Qed.

Lemma TemplateData_loop_assign st gs :
  index_of (foldl TemplateData_step st gs)
  = foldl assign (index_of st) (fst <$> gs).
Proof.
  revert st. induction gs as [|g gs IH]; intros st; simpl; [done|].
  by rewrite IH, TemplateData_step_assign.
Qed.

(** A sender that was just passed changes nothing. *)
Lemma assign_again p u : assign (assign p u) u = assign p u.
Proof.
  unfold assign at 2 3. destruct (p.1 !! u) eqn:Hu; unfold assign; simpl.
  - by rewrite Hu.
  - by rewrite lookup_insert_eq.
Qed.

(** So the loop over the groups assigns what a loop over the messages
    would assign. *)
Lemma assign_groupby_from {A : Type} (key : A → str) p k grp l :
  foldl assign p (fst <$> groupby_from key k grp l)
  = foldl assign p (k :: (key <$> l)).
Proof.
  revert p k grp. induction l as [|x l IH]; intros p k grp; simpl; [done|].
  case_decide as Hk.
  - rewrite IH, Hk. simpl. by rewrite assign_again.
  - simpl. by rewrite IH.
Qed.

Lemma assign_groupby {A : Type} (key : A → str) p l :
  foldl assign p (fst <$> groupby key l) = foldl assign p (key <$> l).
Proof. destruct l as [|x l]; [done|]. apply assign_groupby_from. Qed.

Lemma index_inv_init : index_inv [] (∅, 1).
Proof.
  split; [|done]. intros u n. simpl. rewrite lookup_empty. split; [done|].
  by intros ?%nth_distinct_elem%elem_of_nil.
Qed.

Lemma index_inv_assign seen p u :
  index_inv seen p → index_inv (seen ++ [u]) (assign p u).
Proof.
  intros [Hm Hi]. unfold assign.
  destruct (p.1 !! u) as [k|] eqn:Hu.
  - assert (u ∈ seen) as Hin by (eapply nth_distinct_elem, Hm, Hu).
    split.
    + intros v n. rewrite Hm. destruct (decide (v = u)) as [->|Hne].
      * by rewrite nth_distinct_snoc_old.
      * by rewrite nth_distinct_snoc_other.
    + rewrite Hi, list_to_set_app_L. f_equal. f_equal.
      apply (anti_symm (⊆)); [apply union_subseteq_l|].
      apply union_least; [done|]. simpl. rewrite union_empty_r_L.
      by apply singleton_subseteq_l, elem_of_list_to_set.
  - assert (u ∉ seen) as Hni.
    { intros (n & Hn)%nth_distinct_exists. apply Hm in Hn. congruence. }
    split; simpl.
    + intros v n. destruct (decide (v = u)) as [->|Hne].
      * rewrite lookup_insert_eq, nth_distinct_snoc_new, Hi by done.
        split; [by intros [= <-]|by intros ->].
      * rewrite lookup_insert_ne, Hm by done.
        by rewrite nth_distinct_snoc_other.
    + rewrite Hi, list_to_set_app_L. simpl.
      rewrite size_union
        by (rewrite union_empty_r_L; apply disjoint_singleton_r;
            by rewrite elem_of_list_to_set).
      rewrite union_empty_r_L, size_singleton. lia.
Qed.

Lemma index_inv_loop seen p us :
  index_inv seen p → index_inv (seen ++ us) (foldl assign p us).
Proof.
  revert seen p. induction us as [|u us IH]; intros seen p Hinv; simpl.
  - by rewrite app_nil_r.
  - change (u :: us) with ([u] ++ us). rewrite (assoc_L (++)).
    apply IH. by apply index_inv_assign.
Qed.

Lemma TemplateData_index_inv msgs fn u n :
  user_idx (TemplateData msgs fn) !! u = Some n ↔
  nth_distinct (sender <$> msgs) n u.
Proof.
  pose proof (index_inv_loop [] (∅, 1) (sender <$> msgs) index_inv_init)
    as [Hm _].
  rewrite <- Hm. simpl.
  rewrite <- (assign_groupby sender).
  change (∅, 1) with (index_of (datetime:=datetime) TemplateData_init).
  by rewrite <- TemplateData_loop_assign.
Qed.

(** Every run of [by_user] has its sender in [user_idx]. *)
Lemma TemplateData_run_indexed msgs fn user ms :
  (user, ms) ∈ by_user (TemplateData msgs fn) →
  is_Some (user_idx (TemplateData msgs fn) !! user).
Proof.
  rewrite TemplateData_by_user. intros Hin.
  assert (user ∈ sender <$> msgs) as Huser.
  { pose proof (groupby_uniform sender msgs) as Hall.
    rewrite Forall_forall in Hall. destruct (Hall _ Hin) as [Hne Hms].
    simpl in *. destruct ms as [|m ms]; [done|].
    apply Forall_cons in Hms as [<- _].
    apply list_elem_of_fmap_2. rewrite <- (groupby_concat sender msgs).
    apply list_elem_of_In, in_concat. exists (m :: ms).
    split; [|by left].
    apply (list_elem_of_fmap_2 snd) in Hin. by apply list_elem_of_In. }
  destruct (nth_distinct_exists _ _ Huser) as [n Hn].
  exists n. by apply TemplateData_index_inv.
Qed.

(** The rank of an element stays when the list grows. *)
Lemma nth_distinct_app us more n u :
  nth_distinct us n u → nth_distinct (us ++ more) n u.
Proof.
  intros (pre & post & -> & Hni & Hn).
  exists pre, (post ++ more). by rewrite <- app_assoc.
Qed.

(** The ranks follow the order of first appearance. *)
Lemma nth_distinct_lt us (n n' : nat) u v :
  nth_distinct us n u → nth_distinct us n' v →
  n < n' ↔ ∃ pre post, us = pre ++ post ∧ u ∈ pre ∧ v ∉ pre.
Proof.
  intros (p1 & q1 & -> & Hu & <-) (p2 & q2 & Heq & Hv & <-). split.
  - intros Hlt. exists p2, (v :: q2). split; [done|]. split; [|done].
    apply app_eq_inv in Heq as [(k & -> & Hk)|(k & -> & Hk)].
    + exfalso. apply Nat.succ_lt_mono in Hlt.
      assert (size (list_to_set p2 : gset str)
              ≤ size (list_to_set (p2 ++ k) : gset str)); [|lia].
      apply subseteq_size. rewrite list_to_set_app_L. apply union_subseteq_l.
    + destruct k as [|c k]; [rewrite app_nil_r in Hlt; lia|].
      injection Hk as -> _. apply elem_of_app. right. by left.
  - intros (pre & post & Heq' & Hin & Hni).
    apply list_elem_of_split_l in Hin as (a & b' & -> & Ha).
    rewrite <- app_assoc in Heq'. simpl in Heq'.
    apply first_occurrence_unique in Heq' as [-> ->]; [|done..].
    change (a ++ u :: b' ++ post) with (a ++ (u :: b') ++ post) in Heq.
    rewrite (assoc_L (++)) in Heq.
    assert (∃ k, p2 = (a ++ u :: b') ++ k) as [k ->].
    { apply app_eq_inv in Heq as [(k & Hp & Hk)|(k & Hp & Hk)]; [|by eauto].
      destruct k as [|c k]; [exists []; by rewrite app_nil_r, Hp, app_nil_r|].
      injection Hk as <- _. destruct Hni. rewrite Hp.
      apply elem_of_app. right. by left. }
    apply Nat.succ_lt_mono. rewrite <- Nat.succ_lt_mono.
    assert (S (size (list_to_set a : gset str))
            = size (list_to_set (a ++ [u]) : gset str)) as Hsize.
    { rewrite list_to_set_app_L. simpl. rewrite union_empty_r_L.
      rewrite size_union, size_singleton; [lia|].
      apply disjoint_singleton_r. by rewrite elem_of_list_to_set. }
    apply Nat.lt_succ_r. rewrite Hsize. apply subseteq_size.
    intros x. rewrite !elem_of_list_to_set, !elem_of_app.
    intros [?|Hx]; [by left; left|]. apply list_elem_of_singleton in Hx as ->.
    left. right. by left.
Qed.

(** C6. In the [user_idx] of [TemplateData], a sender has index [n]
    exactly when it is the [n]-th distinct sender of the message
    sequence, counting from 1 in order of first appearance.  The
    assignment is stable: more messages leave the indices given so far
    as they are.  It is strictly increasing: of two senders, the one
    that appears first has the smaller index. *)
Theorem TemplateData_user_idx_nth_distinct msgs fn :
  (∀ u n, user_idx (TemplateData msgs fn) !! u = Some n ↔
          nth_distinct_sender msgs n u) ∧
  (∀ more fn', user_idx (TemplateData msgs fn)
               ⊆ user_idx (TemplateData (msgs ++ more) fn')) ∧
  (∀ u v (n n' : nat),
      user_idx (TemplateData msgs fn) !! u = Some n →
      user_idx (TemplateData msgs fn) !! v = Some n' →
      n < n' ↔ ∃ pre post, msgs = pre ++ post ∧
                           u ∈ sender <$> pre ∧ v ∉ sender <$> pre).
Proof.
  split; [|split].
  - intros u n. rewrite nth_distinct_sender_senders.
    apply TemplateData_index_inv.
  - intros more fn'. apply map_subseteq_spec. intros u n.
    rewrite !TemplateData_index_inv, fmap_app. apply nth_distinct_app.
  - intros u v n n' Hu%TemplateData_index_inv Hv%TemplateData_index_inv.
    rewrite (nth_distinct_lt _ _ _ _ _ Hu Hv). split.
    + intros (pre & post & Heq & Hin & Hni).
      apply fmap_app_inv in Heq as (pre' & post' & -> & -> & ->).
      by exists pre', post'.
    + intros (pre & post & -> & Hin & Hni).
      exists (sender <$> pre), (sender <$> post). by rewrite fmap_app.
Qed.
End SenderIndex.

(* ===================================================================== *)
(** * Properties of the string operations                                *)
(* ===================================================================== *)

Section PyStrFacts.
Import PyStr.
Implicit Types (s old new pre post : str).

Lemma strip_prefix_Some old s s' :
  strip_prefix old s = Some s' ↔ s = old ++ s'.
Proof.
  revert s. induction old as [|a old IH]; intros s; simpl.
  - split; [by intros [= ->]|by intros ->].
  - destruct s as [|c s]; [done|].
    case_decide as Hac.
    + subst c. rewrite IH. split; [by intros ->|by intros [= ->]].
    + split; [done|]. intros [= -> _]. done.
Qed.

Lemma strip_prefix_app old s : strip_prefix old (old ++ s) = Some s.
Proof. by apply strip_prefix_Some. Qed.

Lemma startswith_true s old :
  startswith s old = true ↔ ∃ t, s = old ++ t.
Proof.
  unfold startswith. rewrite bool_decide_eq_true. unfold is_Some.
  by setoid_rewrite strip_prefix_Some.
Qed.

Lemma startswith_app old s : startswith (old ++ s) old = true.
Proof. apply startswith_true. by exists s. Qed.

Lemma contains_true old s :
  contains old s = true ↔ ∃ pre post, s = pre ++ old ++ post.
Proof.
  induction s as [|c s IH]; simpl.
  - rewrite orb_false_r, startswith_true. split.
    + intros [t Ht]. by exists [], t.
    + intros (pre & post & Heq). destruct pre; [by exists post|done].
  - rewrite orb_true_iff, startswith_true, IH. split.
    + intros [[t Ht]|(pre & post & ->)]; [by exists [], t|].
      by exists (c :: pre), post.
    + intros ([|c' pre] & post & Heq); [left; by exists post|].
      right. injection Heq as -> ->. by exists pre, post.
Qed.

Lemma contains_false_cons old c s :
  contains old (c :: s) = false →
  startswith (c :: s) old = false ∧ contains old s = false.
Proof. simpl. by intros [? ?]%orb_false_elim. Qed.

(** The characters skipped after a replacement are dropped. *)
Lemma replace_from_skip old new n s :
  replace_from old new n s = replace_from old new 0 (drop n s).
Proof.
  revert n. induction s as [|c s IH]; intros [|n]; simpl; try done.
Qed.

Lemma replace_from_hit old new s :
  old ≠ [] →
  replace_from old new 0 (old ++ s) = new ++ replace_from old new 0 s.
Proof.
  intros Hne. destruct old as [|a old]; [done|].
  change ((a :: old) ++ s) with (a :: (old ++ s)).
  unfold replace_from at 1; fold replace_from.
  change (a :: (old ++ s)) with ((a :: old) ++ s).
  rewrite startswith_app, replace_from_skip. simpl.
  by rewrite Nat.sub_0_r, drop_app_length.
Qed.

Lemma replace_from_miss old new c s :
  startswith (c :: s) old = false →
  replace_from old new 0 (c :: s) = c :: replace_from old new 0 s.
Proof. intros Hs. simpl in *. by rewrite Hs. Qed.

Lemma replace_from_absent old new s :
  contains old s = false → replace_from old new 0 s = s.
Proof.
  induction s as [|c s IH]; [done|].
  intros [Hs Hc]%contains_false_cons.
  rewrite replace_from_miss by done. by rewrite IH.
Qed.

(** The first occurrence of [old] is replaced and the scan goes on
    behind it. *)
Lemma replace_from_first old new pre post :
  old ≠ [] →
  (∀ pre1 c pre2, pre = pre1 ++ c :: pre2 →
                  startswith (c :: pre2 ++ old ++ post) old = false) →
  replace_from old new 0 (pre ++ old ++ post)
  = pre ++ new ++ replace_from old new 0 post.
Proof.
  intros Hne. induction pre as [|c pre IH]; intros Hpre.
  - simpl. by apply replace_from_hit.
  - change ((c :: pre) ++ old ++ post) with (c :: (pre ++ old ++ post)).
    rewrite replace_from_miss by (by apply (Hpre [])).
    rewrite IH; [done|]. intros pre1 c' pre2 ->.
    by apply (Hpre (c :: pre1)).
Qed.

Lemma replace_nonempty s old new :
  old ≠ [] → replace s old new = replace_from old new 0 s.
Proof. by destruct old. Qed.
End PyStrFacts.

(* ===================================================================== *)
(** * Properties of the Attachment Normalizer                            *)
(* ===================================================================== *)

Section AttachmentFacts.
Import PyStr Re.
Implicit Types (s body pre post file : str).

Lemma take_app_suffix {A} (a b : list A) :
  take (length (a ++ b) - length b) (a ++ b) = a.
Proof.
  rewrite length_app, Nat.add_sub. by rewrite take_app_length.
Qed.

Lemma scan_file_Some t f post :
  scan_file t = Some (f, post) →
  t = f ++ ">"%char :: post ∧ (">"%char ∉ f) ∧ nl ∉ f.
Proof.
  revert f. induction t as [|x t IH]; intros f; simpl; [done|].
  case_decide as Hx.
  - intros [= <- <-]. subst x. split; [done|]. split; apply not_elem_of_nil.
  - destruct (dot x) eqn:Hdot; [|done].
    destruct (scan_file t) as [[f' post']|]; [|done].
    intros [= <- <-]. destruct (IH f' eq_refl) as (-> & Hgt & Hnl).
    split; [done|]. unfold dot in Hdot.
    apply negb_true_iff, bool_decide_eq_false in Hdot.
    split; intros [?|?]%elem_of_cons; congruence.
Qed.

Lemma scan_file_app f post :
  ">"%char ∉ f → nl ∉ f → scan_file (f ++ ">"%char :: post) = Some (f, post).
Proof.
  induction f as [|x f IH]; intros Hgt Hnl; simpl.
  - done.
  - apply not_elem_of_cons in Hgt as [? ?], Hnl as [? ?].
    rewrite decide_False by done.
    unfold dot. rewrite bool_decide_false by done. simpl.
    by rewrite IH.
Qed.

(** A [>] on the same line is enough for the scan to succeed. *)
Lemma scan_file_is_Some f post :
  nl ∉ f → is_Some (scan_file (f ++ ">"%char :: post)).
Proof.
  induction f as [|x f IH]; intros Hnl; simpl.
  - done.
  - apply not_elem_of_cons in Hnl as [? ?].
    case_decide; [done|].
    unfold dot. rewrite bool_decide_false by done. simpl.
    destruct (IH H0) as [[f' post'] ->]. done.
Qed.

Lemma reluctant_scan {R} (g : str → str → R) t :
  reluctant dot t
    (λ s2, match strip_prefix (s_ ">") s2 with
           | Some s3 => Some (g s2 s3)
           | None => None
           end)
  = match scan_file t with
    | Some (f, post) => Some (g (">"%char :: post) post)
    | None => None
    end.
Proof.
  induction t as [|x t IH]; [done|].
  unfold reluctant; fold (@reluctant R). cbv beta. cbn [scan_file].
  replace (strip_prefix (s_ ">") (x :: t))
    with (if decide (">"%char = x) then Some t else None) by done.
  destruct (decide (x = ">"%char)) as [->|Hx]; [done|].
  rewrite decide_False by done.
  destruct (dot x); [|done]. rewrite IH.
  by destruct (scan_file t) as [[f post]|].
Qed.

Lemma marker_at_Some s file post :
  marker_at s = Some (file, post) →
  s = marker file ++ post ∧ file ≠ [] ∧ (nl ∉ file) ∧
  ">"%char ∉ tail file.
Proof.
  unfold marker_at.
  destruct (strip_prefix _ s) as [[|c t]|] eqn:Hp; try done.
  apply strip_prefix_Some in Hp as ->.
  destruct (dot c) eqn:Hdot; [|done].
  destruct (scan_file t) as [[f post']|] eqn:Hscan; [|done].
  intros [= <- <-]. apply scan_file_Some in Hscan as (-> & Hgt & Hnl).
  unfold dot in Hdot. apply negb_true_iff, bool_decide_eq_false in Hdot.
  split; [|split; [done|split; [|done]]].
  - unfold marker. by rewrite <- !app_assoc.
  - intros [?|?]%elem_of_cons; congruence.
Qed.

(** What [re] computes for the pattern at the head of [s]. *)
Lemma rmatch_attached {R} (g : str → captures → R) s :
  rmatch (compiled ATTACHED_RE) s [] (λ s' caps, Some (g s' caps))
  = match marker_at s with
    | Some (file, post) => Some (g post [("1"%string, marker file); ("2"%string, file)])
    | None => None
    end.
Proof.
  unfold ATTACHED_RE, marker_at. cbn [compiled rmatch].
  destruct (strip_prefix _ s) as [[|c t]|] eqn:Hp; try done.
  apply strip_prefix_Some in Hp as ->.
  destruct (dot c); [|done].
  rewrite (reluctant_scan
    (λ s2 s3, g s3 [("1"%string, take (length (s_ "<attached: " ++ c :: t) - length s3)
                         (s_ "<attached: " ++ c :: t));
                    ("2"%string, take (length (c :: t) - length s2) (c :: t))])).
  destruct (scan_file t) as [[f post]|] eqn:Hscan; [|done].
  apply scan_file_Some in Hscan as (-> & _ & _).
  do 3 f_equal.
  - f_equal. unfold marker.
    replace (s_ "<attached: " ++ c :: f ++ ">"%char :: post)
      with ((s_ "<attached: " ++ (c :: f) ++ s_ ">") ++ post)
      by (by rewrite <- !app_assoc).
    apply take_app_suffix.
  - do 2 f_equal.
    replace (c :: f ++ ">"%char :: post)
      with ((c :: f) ++ (">"%char :: post)) by done.
    apply take_app_suffix.
Qed.

(** A marker text at the head of [s] is found, possibly with a shorter
    file name. *)
Lemma marker_at_complete file post :
  file ≠ [] → nl ∉ file → is_Some (marker_at (marker file ++ post)).
Proof.
  intros Hne Hnl. destruct file as [|c f]; [done|].
  apply not_elem_of_cons in Hnl as [Hc Hf].
  unfold marker_at, marker. rewrite <- app_assoc, strip_prefix_app.
  simpl. unfold dot at 1. rewrite bool_decide_false by done. simpl.
  rewrite <- app_assoc. simpl.
  destruct (scan_file_is_Some f post Hf) as [[f' post'] ->]. done.
Qed.

Lemma search_from_attached pre s :
  search_from (compiled ATTACHED_RE) pre s
  = attached_match <$> first_marker_from pre s.
Proof.
  revert pre. induction s as [|c s IH]; intros pre.
  - unfold search_from, first_marker_from.
    rewrite (rmatch_attached (λ s' caps, Build_match_obj pre caps s')).
    by destruct (marker_at []) as [[f post]|].
  - unfold search_from; fold search_from.
    unfold first_marker_from; fold first_marker_from.
    rewrite (rmatch_attached (λ s' caps, Build_match_obj pre caps s')).
    destruct (marker_at (c :: s)) as [[f post]|]; [done|]. apply IH.
Qed.

Lemma re_search_attached s :
  re_search (compiled ATTACHED_RE) s = attached_match <$> first_marker s.
Proof. apply search_from_attached. Qed.

Lemma re_match_attached s :
  is_Some (re_match (compiled ATTACHED_RE) s) ↔ is_Some (marker_at s).
Proof.
  unfold re_match.
  rewrite (rmatch_attached (λ s' caps, Build_match_obj [] caps s')).
  destruct (marker_at s) as [[f post]|]; [by split; eauto|].
  split; by intros [? ?].
Qed.

Lemma first_marker_from_Some pre0 s p file post :
  first_marker_from pre0 s = Some (p, file, post) →
  ∃ pre, p = pre0 ++ pre ∧ s = pre ++ marker file ++ post ∧
         marker_at (marker file ++ post) = Some (file, post) ∧
         ∀ pre1 c pre2, pre = pre1 ++ c :: pre2 →
                        marker_at (c :: pre2 ++ marker file ++ post) = None.
Proof.
  revert pre0. induction s as [|c s IH]; intros pre0.
  - unfold first_marker_from.
    destruct (marker_at []) as [[f post']|] eqn:Hm; [|done].
    intros [= <- <- <-]. exists []. rewrite app_nil_r.
    pose proof (marker_at_Some _ _ _ Hm) as (Heq & _).
    split; [done|]. split; [done|]. split; [by rewrite <- Heq|].
    by intros [|??] ???.
  - unfold first_marker_from; fold first_marker_from.
    destruct (marker_at (c :: s)) as [[f post']|] eqn:Hm.
    + intros [= <- <- <-]. exists []. rewrite app_nil_r.
      pose proof (marker_at_Some _ _ _ Hm) as (Heq & _).
      split; [done|]. split; [done|]. split; [by rewrite <- Heq|].
      by intros [|??] ???.
    + intros (pre & -> & -> & Hat & Hnone)%IH.
      exists (c :: pre). rewrite <- app_assoc. split; [done|].
      split; [done|]. split; [done|].
      intros [|c' pre1] c'' pre2 Heq; simplify_eq/=; [done|].
      by eapply Hnone.
Qed.

Lemma first_marker_Some s pre file post :
  first_marker s = Some (pre, file, post) →
  s = pre ++ marker file ++ post ∧
  marker_at (marker file ++ post) = Some (file, post) ∧
  ∀ pre1 c pre2, pre = pre1 ++ c :: pre2 →
                 marker_at (c :: pre2 ++ marker file ++ post) = None.
Proof. by intros (pre' & -> & -> & Hat & Hnone)%first_marker_from_Some. Qed.

Lemma first_marker_from_None pre0 s :
  first_marker_from pre0 s = None →
  ∀ pre t, s = pre ++ t → marker_at t = None.
Proof.
  revert pre0. induction s as [|c s IH]; intros pre0.
  - unfold first_marker_from.
    destruct (marker_at []) as [[f post']|] eqn:Hm; [done|].
    intros _ pre t Heq. symmetry in Heq.
    by apply app_eq_nil in Heq as [_ ->].
  - unfold first_marker_from; fold first_marker_from.
    destruct (marker_at (c :: s)) as [[f post']|] eqn:Hm; [done|].
    intros Hnone [|c' pre] t Heq; simplify_eq/=; [done|].
    by eapply IH.
Qed.

(** The pattern finds a marker exactly when the string has one. *)
Lemma has_marker_first_marker s : has_marker s ↔ is_Some (first_marker s).
Proof.
  split.
  - intros (pre & file & post & -> & Hne & Hnl).
    destruct (first_marker (pre ++ marker file ++ post)) eqn:Hf; [done|].
    pose proof (first_marker_from_None _ _ Hf pre _ eq_refl) as Hnone.
    destruct (marker_at_complete file post Hne Hnl) as [? Hs]. congruence.
  - intros [[[pre file] post] Hf].
    apply first_marker_from_Some in Hf as (pre' & _ & -> & Hat & _).
    apply marker_at_Some in Hat as (_ & Hne & Hnl & _).
    by exists pre', file, post.
Qed.

Lemma has_marker_search s :
  has_marker s ↔ is_Some (re_search (compiled ATTACHED_RE) s).
Proof.
  by rewrite has_marker_first_marker, re_search_attached, fmap_is_Some.
Qed.

Lemma marker_nonempty file : marker file ≠ [].
Proof. done. Qed.

(** [replace_attachment] in terms of the leftmost marker. *)
Lemma replace_attachment_unfold body :
  replace_attachment body
  = match first_marker body with
    | Some (pre, file, post) =>
        replace_from (marker file) (attachment_html file) 0 body
    | None => body
    end.
Proof.
  unfold replace_attachment. rewrite re_search_attached.
  destruct (first_marker body) as [[[pre file] post]|]; [|done].
  change (replace body (marker file) (attachment_html file)
          = replace_from (marker file) (attachment_html file) 0 body).
  by apply replace_nonempty.
Qed.

(** The leftmost marker is replaced; the scan for further copies of its
    text goes on behind it. *)
Lemma replace_attachment_first body pre file post :
  first_marker body = Some (pre, file, post) →
  replace_attachment body
  = pre ++ attachment_html file ++
    replace post (marker file) (attachment_html file).
Proof.
  intros Hf. rewrite replace_attachment_unfold, Hf.
  apply first_marker_Some in Hf as (-> & Hat & Hnone).
  rewrite (replace_nonempty post) by apply marker_nonempty.
  apply replace_from_first; [apply marker_nonempty|].
  intros pre1 c pre2 Heq.
  destruct (startswith _ _) eqn:Hs; [|done].
  apply startswith_true in Hs as [t Ht].
  apply marker_at_Some in Hat as (_ & Hne & Hnl & _).
  destruct (marker_at_complete file t Hne Hnl) as [? Hsome].
  specialize (Hnone _ _ _ Heq). rewrite Ht in Hnone. congruence.
Qed.

Lemma replace_attachment_absent body :
  ¬ has_marker body → replace_attachment body = body.
Proof.
  rewrite has_marker_first_marker, replace_attachment_unfold.
  destruct (first_marker body) as [[[pre file] post]|]; [|done].
  intros []. done.
Qed.

(** ** Counting the markers *)




(** ** The extension *)






Lemma after_last_dot_unique file ext ext' :
  after_last_dot file ext → after_last_dot file ext' → ext = ext'.
Proof.
  intros [(stem & -> & Hni)|[Hni ->]] [(stem' & Heq & Hni')|[Hni' ->]];
    [|set_solver|set_solver|done].
  assert (reverse ext ++ "."%char :: reverse stem
          = reverse ext' ++ "."%char :: reverse stem') as Hrev.
  { apply (f_equal reverse) in Heq.
    by rewrite !reverse_app, !reverse_cons, <- !app_assoc in Heq. }
  apply app_inj_pivot in Hrev as [[[Hin _]|[_ Hin]]|[Hrev _]].
  - apply list_elem_of_In in Hin. by rewrite elem_of_reverse in Hin.
  - apply list_elem_of_In in Hin. by rewrite elem_of_reverse in Hin.
  - by apply (inj reverse).
Qed.

(** The HTML of a file name does not begin like a marker. *)
Lemma attachment_html_not_marker file file' a b :
  attachment_html file ++ a ≠ marker file' ++ b.
Proof.
  intros Heq. apply (f_equal (take 3)) in Heq. revert Heq.
  unfold attachment_html.
  repeat case_match; by vm_compute.
Qed.

(** A string with a marker is changed. *)
Lemma replace_attachment_changes s :
  has_marker s → replace_attachment s ≠ s.
Proof.
  intros [[[pre file] post] Hf]%has_marker_first_marker.
  rewrite (replace_attachment_first _ _ _ _ Hf).
  apply first_marker_Some in Hf as (-> & _).
  intros Heq%app_inv_head. by apply attachment_html_not_marker in Heq.
Qed.

(** ** The claims about [replace_attachment] *)

(** C7, as stated, fails: a second marker with another file name stays
    in the output. *)
Lemma replace_attachment_keeps_second_marker :
  replace_attachment (s_ "<attached: a.jpg> <attached: b.jpg>")
  = py "<a target=`_blank` href=`a.jpg`><img width=`128` height=`128` src=`a.jpg` /></a><br> <attached: b.jpg>"
  ∧ has_marker (replace_attachment (s_ "<attached: a.jpg> <attached: b.jpg>")).
Proof.
  split; [by vm_compute|].
  apply has_marker_search. vm_compute. eauto.
Qed.

(** Nor does a marker with another file name always stay: the copies of
    the first marker text are replaced inside it as well. *)
Lemma replace_attachment_inside_other_marker :
  replace_attachment (s_ "<attached: a> <attached: b<attached: a>>")
  = py "<a target=`_blank` href=`a` />a</a> <attached: b<a target=`_blank` href=`a` />a</a>>".
Proof. by vm_compute. Qed.

(** C7, amended. A body without a marker is returned as it is.
    Otherwise the leftmost marker, read with the shortest file name, is
    replaced by the HTML for that file name, and in the text behind it
    [str.replace] puts the same HTML for the copies of that same marker
    text; no other marker is looked for.  So the text behind the marker
    stays as it is when that marker text does not occur in it again. *)
Theorem replace_attachment_first_marker body :
  (¬ has_marker body ∧ replace_attachment body = body) ∨
  (∃ pre file post,
      body = pre ++ marker file ++ post ∧
      file ≠ [] ∧ (nl ∉ file) ∧ (">"%char ∉ tail file) ∧
      (∀ pre' file' post',
          body = pre' ++ marker file' ++ post' → file' ≠ [] → nl ∉ file' →
          length pre ≤ length pre') ∧
      replace_attachment body
      = pre ++ attachment_html file ++
        replace post (marker file) (attachment_html file) ∧
      ((∀ a b, post ≠ a ++ marker file ++ b) →
       replace_attachment body = pre ++ attachment_html file ++ post)).
Proof.
  destruct (first_marker body) as [[[pre file] post]|] eqn:Hf.
  - right. exists pre, file, post.
    pose proof (replace_attachment_first _ _ _ _ Hf) as Hrep.
    apply first_marker_Some in Hf as (-> & Hat & Hnone).
    apply marker_at_Some in Hat as (_ & Hne & Hnl & Hgt).
    do 4 (split; [done|]). split; [|split; [done|]].
    2: { intros Habsent. rewrite Hrep. do 2 f_equal.
         rewrite replace_nonempty by apply marker_nonempty.
         apply replace_from_absent.
         destruct (contains (marker file) post) eqn:Hc; [|done].
         apply contains_true in Hc as (a & b & ->). by destruct (Habsent a b). }
    intros pre' file' post' Heq Hne' Hnl'.
    destruct (decide (length pre ≤ length pre')) as [|Hlt]; [done|].
    exfalso. apply app_eq_inv in Heq as [(k & -> & Hk)|(k & -> & Hk)].
    + destruct k as [|c k]; [rewrite app_nil_r in Hlt; lia|].
      destruct (marker_at_complete file' post' Hne' Hnl') as [x Hx].
      rewrite Hk in Hx.
      change ((c :: k) ++ marker file ++ post)
        with (c :: k ++ marker file ++ post) in Hx.
      by rewrite (Hnone pre' c k eq_refl) in Hx.
    + rewrite length_app in Hlt. lia.
  - left. assert (¬ has_marker body) as Hno.
    { rewrite has_marker_first_marker, Hf. by intros [? ?]. }
    split; [done|]. by apply replace_attachment_absent.
Qed.

(** C8, as stated, fails: the second pass replaces the marker that the
    first pass left. *)
Lemma replace_attachment_twice_differs :
  replace_attachment
    (replace_attachment (s_ "<attached: a.opus><attached: b.mp4>"))
  ≠ replace_attachment (s_ "<attached: a.opus><attached: b.mp4>").
Proof. by vm_compute. Qed.

(** C8, amended. A string is returned as it is exactly when it has no
    marker; so a second pass changes nothing exactly when the first pass
    left no marker, which is not so for every string. *)
Theorem replace_attachment_idempotent_iff s :
  (replace_attachment s = s ↔ ¬ has_marker s) ∧
  (replace_attachment (replace_attachment s) = replace_attachment s ↔
   ¬ has_marker (replace_attachment s)).
Proof.
  assert (∀ t, replace_attachment t = t ↔ ¬ has_marker t) as Hfix.
  { intros t. split; [|apply replace_attachment_absent].
    intros Heq Hm. by apply (replace_attachment_changes t). }
  split; apply Hfix.
Qed.

(** The amended C8 at a string without a marker and at a string with one. *)
Lemma replace_attachment_idempotent_iff_witness :
  replace_attachment (s_ "Hello") = s_ "Hello" ∧
  replace_attachment (replace_attachment (s_ "<attached: a.jpg> x"))
  = replace_attachment (s_ "<attached: a.jpg> x").
Proof.
  split.
  - apply (proj1 (replace_attachment_idempotent_iff (s_ "Hello"))).
    rewrite has_marker_search. vm_compute. by intros [? ?].
  - apply (proj2 (replace_attachment_idempotent_iff (s_ "<attached: a.jpg> x"))).
    rewrite has_marker_search. vm_compute. by intros [? ?].
Defined.



End AttachmentFacts.

(* ===================================================================== *)
(** * Properties of the Line Parser and the Message Reassembler          *)
(* ===================================================================== *)

Section TextFacts.
Import PyStr.
Implicit Types (s : str).

Lemma lstrip_split s :
  ∃ l, s = l ++ lstrip s ∧ Forall (λ c, isspace c = true) l.
Proof.
  induction s as [|c s (l & IH & Hl)]; [by exists []|]. simpl.
  destruct (isspace c) eqn:Hc; [|by exists []].
  exists (c :: l). split; [by rewrite IH at 1|by constructor].
Qed.

Lemma lstrip_head s c : head (lstrip s) = Some c → isspace c = false.
Proof.
  induction s as [|x s IH]; [done|]. simpl.
  destruct (isspace x) eqn:Hx; [done|]. simpl. by intros [= <-].
Qed.

Lemma rstrip_split s :
  ∃ r, s = rstrip s ++ r ∧ Forall (λ c, isspace c = true) r.
Proof.
  destruct (lstrip_split (reverse s)) as (l & Hs & Hl).
  exists (reverse l). split; [|by apply Forall_reverse].
  unfold rstrip. rewrite <- reverse_app, <- Hs. by rewrite reverse_involutive.
Qed.

Lemma rstrip_last s c : last (rstrip s) = Some c → isspace c = false.
Proof. unfold rstrip. rewrite last_reverse. apply lstrip_head. Qed.

(** [strip] removes the white space at both ends and nothing else. *)
Lemma strip_spec s :
  ∃ l r, s = l ++ strip s ++ r ∧
         Forall (λ c, isspace c = true) l ∧
         Forall (λ c, isspace c = true) r ∧
         (∀ c, head (strip s) = Some c → isspace c = false) ∧
         (∀ c, last (strip s) = Some c → isspace c = false).
Proof.
  destruct (lstrip_split s) as (l & Hs & Hl).
  destruct (rstrip_split (lstrip s)) as (r & Hr & Hr').
  exists l, r. unfold strip. split; [by rewrite <- Hr|].
  split; [done|]. split; [done|]. split; [|apply rstrip_last].
  intros c Hc. apply (lstrip_head s).
  rewrite Hr. by destruct (rstrip (lstrip s)).
Qed.

(** The [repr] of a line of printable characters without quote and
    backslash is the line between single quotes. *)
Lemma repr_plain s :
  Forall (λ c, isprintable c = true ∧ c ≠ squote ∧ c ≠ backslash) s →
  repr s = [squote] ++ s ++ [squote].
Proof.
  intros Hs. unfold repr.
  assert (squote ∉ s) as Hq.
  { rewrite Forall_forall in Hs. intros Hin. by destruct (Hs _ Hin) as (_ & ? & _). }
  rewrite bool_decide_false by done. cbn [andb]. do 2 f_equal.
  clear Hq. induction Hs as [|c s (Hp & Hq & Hb) _ IH]; [done|].
  cbn [fmap list_fmap concat]. rewrite IH. unfold repr_char.
  rewrite decide_False by (intros [?|?]; done).
  rewrite decide_False by (intros ->; done).
  rewrite decide_False by (intros ->; done).
  rewrite decide_False by (intros ->; done).
  by rewrite Hp.
Qed.
End TextFacts.

Section ParsingFacts.
Context `{DateParser}.
Import PyStr Re.
Implicit Types (line : str) (lines : list str) (st : reassembler_state).

Lemma bind_Return_inv {A B} (x : result A) (f : A → result B) b :
  (a ← x; f a) = Return b → ∃ a, x = Return a ∧ f a = Return b.
Proof. destruct x as [a|e]; [by exists a|done]. Qed.

Lemma bind_Raise_inv {A B} (x : result A) (f : A → result B) e :
  (a ← x; f a) = Raise e → x = Raise e ∨ ∃ a, x = Return a ∧ f a = Raise e.
Proof.
  destruct x as [a|e']; simpl; [right; by exists a|].
  intros [= ->]. by left.
Qed.

(** [ParseLine] by cases on the match and on the answer of [dateutil]. *)
Lemma ParseLine_cases line :
  ParseLine line =
  match line_match line with
  | None => Return None
  | Some (m, named) =>
      match dateutil_parse (timestr_of m) with
      | Raise e => Raise e
      | Return d =>
          Return (Some (d,
                        if named then group (m_groups m) "name" else s_ "nobody",
                        replace_attachment (group (m_groups m) "body")))
      end
  end.
Proof.
  unfold ParseLine, line_match, timestr_of.
  destruct (re_match (compiled WHATSAPP_RE) line) as [m|].
  - by destruct (dateutil_parse _).
  - destruct (re_match (compiled FIRSTLINE_RE) line) as [m|]; [|done].
    by destruct (dateutil_parse _).
Qed.

(** What [ParseLine] raises is what [dateutil] raises on the date and
    time text of the match. *)
Lemma ParseLine_Raise_match line e :
  ParseLine line = Raise e ↔
  ∃ m named, line_match line = Some (m, named) ∧
             dateutil_parse (timestr_of m) = Raise e.
Proof.
  rewrite ParseLine_cases. destruct (line_match line) as [[m named]|].
  - destruct (dateutil_parse (timestr_of m)) as [d|e'] eqn:Hd.
    + split; [done|]. intros (m' & named' & [= <- <-] & Hd'). congruence.
    + split.
      * intros [= <-]. by exists m, named.
      * intros (m' & named' & [= <- <-] & Hd'). congruence.
  - split; [done|]. by intros (m' & named' & [=] & _).
Qed.

Lemma ParseLine_Raise line e :
  ParseLine line = Raise e →
  (∃ timestr, e = ParserError timestr) ∨ e = OverflowError.
Proof.
  intros (m & named & _ & [->| ->]%dateutil_parse_raises)%ParseLine_Raise_match;
    eauto.
Qed.

(** ** The loop of [IdentifyMessages] *)

Lemma matched_lines_cons line lines :
  matched_lines (line :: lines)
  = (if is_matched (ParseLine line) then 1 else 0) + matched_lines lines.
Proof.
  unfold matched_lines. rewrite filter_cons.
  destruct (is_matched (ParseLine line)); by case_decide.
Qed.

Lemma IdentifyMessages_step_Return st line st' :
  IdentifyMessages_step st line = Return st' →
  is_Some (in_progress st') ∧
  accounted st' = accounted st + (if is_matched (ParseLine line) then 1 else 0).
Proof.
  unfold IdentifyMessages_step, accounted.
  destruct (ParseLine line) as [[m|]|e]; simpl; [| |done].
  - intros [= <-]. simpl. split; [done|].
    destruct (in_progress st); [rewrite length_app; simpl|]; lia.
  - destruct (in_progress st) as [[[d u] b]|]; [|done].
    intros [= <-]. simpl. split; [done|]. lia.
Qed.

Lemma IdentifyMessages_step_Error st line msg :
  IdentifyMessages_step st line = Raise (Error msg) →
  in_progress st = None ∧ ParseLine line = Return None ∧
  msg = first_line_error line.
Proof.
  unfold IdentifyMessages_step.
  destruct (ParseLine line) as [[m|]|e] eqn:Hp; simpl; [done| |].
  - destruct (in_progress st) as [[[d u] b]|]; [done|]. by intros [= <-].
  - intros [= ->]. by apply ParseLine_Raise in Hp as [[? ?]|?].
Qed.

Lemma IdentifyMessages_loop_Return st lines st' :
  IdentifyMessages_loop st lines = Return st' →
  accounted st' = accounted st + matched_lines lines.
Proof.
  revert st. induction lines as [|line lines IH]; intros st.
  - intros [= <-]. unfold matched_lines. simpl. lia.
  - simpl. intros (st1 & Hstep & Hloop)%bind_Return_inv.
    apply IdentifyMessages_step_Return in Hstep as [_ Hstep].
    rewrite (IH _ Hloop), Hstep, matched_lines_cons. lia.
Qed.

(** With a message in progress the loop does not raise [Error]. *)
Lemma IdentifyMessages_loop_no_Error st lines msg :
  is_Some (in_progress st) →
  IdentifyMessages_loop st lines ≠ Raise (Error msg).
Proof.
  revert st. induction lines as [|line lines IH]; intros st Hsome; [done|].
  simpl. intros [Hstep|(st1 & Hstep & Hloop)]%bind_Raise_inv.
  - apply IdentifyMessages_step_Error in Hstep as (Hnone & _).
    rewrite Hnone in Hsome. by destruct Hsome.
  - apply IdentifyMessages_step_Return in Hstep as [Hsome' _].
    by apply (IH st1).
Qed.
End ParsingFacts.

Section ParsingClaims.
Context `{DateParser}.
Import PyStr Re.
Implicit Types (line : str) (lines : list str) (st : reassembler_state).


(** C1. [IdentifyMessages] returns the empty list on no lines, and it
    raises [Error] exactly when the first line is one that [ParseLine]
    does not match; the message then holds the [repr] of that line and of
    the texts of both patterns. *)
Theorem IdentifyMessages_first_line_error :
  IdentifyMessages [] = Return [] ∧
  ∀ lines msg,
    IdentifyMessages lines = Raise (Error msg) ↔
    ∃ line lines',
      lines = line :: lines' ∧ ParseLine line = Return None ∧
      msg = s_ "Can't parse the first line: " ++ repr line ++
            s_ ", regexes are FIRSTLINE_RE=" ++ repr (source FIRSTLINE_RE) ++
            s_ " and WHATSAPP_RE=" ++ repr (source WHATSAPP_RE).
Proof.
  split; [done|]. intros lines msg. split.
  - unfold IdentifyMessages.
    intros [Hloop|(st & Hloop & Hfin)]%bind_Raise_inv;
      [|by destruct (in_progress st)].
    destruct lines as [|line lines']; [done|]. exists line, lines'.
    simpl in Hloop.
    apply bind_Raise_inv in Hloop as [Hstep|(st1 & Hstep & Hloop)].
    + by apply IdentifyMessages_step_Error in Hstep as (_ & ? & ?).
    + apply IdentifyMessages_step_Return in Hstep as [Hsome _].
      by apply IdentifyMessages_loop_no_Error in Hloop.
  - intros (line & lines' & -> & Hp & ->).
    unfold IdentifyMessages. cbn [IdentifyMessages_loop].
    unfold IdentifyMessages_step. rewrite Hp. reflexivity.
Qed.

(** C2. When [IdentifyMessages] returns, it returns as many messages as
    there are lines on which [ParseLine] returns a match. *)
Theorem IdentifyMessages_count lines msgs :
  IdentifyMessages lines = Return msgs →
  length msgs = matched_lines lines.
Proof.
  unfold IdentifyMessages. intros (st & Hloop & Hfin)%bind_Return_inv.
  apply IdentifyMessages_loop_Return in Hloop.
  unfold accounted in Hloop. simpl in Hloop.
  destruct (in_progress st); injection Hfin as <-;
    [rewrite length_app; simpl|]; lia.
Qed.

(** C3, amended. A continuation line appends to the body in progress a
    line break and then the line without the white space at both of its
    ends. *)
Theorem continuation_line_appended st line d u b :
  in_progress st = Some (d, u, b) →
  ParseLine line = Return None →
  IdentifyMessages_step st line
  = Return {| messages := messages st;
              in_progress := Some (d, u, b ++ [nl] ++ strip line) |} ∧
  ∃ l r, line = l ++ strip line ++ r ∧
         Forall (λ c, isspace c = true) l ∧
         Forall (λ c, isspace c = true) r ∧
         (∀ c, head (strip line) = Some c → isspace c = false) ∧
         (∀ c, last (strip line) = Some c → isspace c = false).
Proof.
  intros Hcur Hp. split; [|apply strip_spec].
  unfold IdentifyMessages_step. by rewrite Hp, Hcur.
Qed.

End ParsingClaims.

(** ** The claims at concrete inputs *)

(** C1 at a file whose first line is no message. *)
Lemma IdentifyMessages_first_line_error_witness :
  IdentifyMessages [s_ "random unparseable text"]
  = Raise (Error (s_ "Can't parse the first line: " ++
                  PyStr.repr (s_ "random unparseable text") ++
                  s_ ", regexes are FIRSTLINE_RE=" ++
                  PyStr.repr (source FIRSTLINE_RE) ++
                  s_ " and WHATSAPP_RE=" ++
                  PyStr.repr (source WHATSAPP_RE))).
Proof.
  apply (proj2 IdentifyMessages_first_line_error).
  exists (s_ "random unparseable text"), [].
  split; [reflexivity|]. split; [by vm_compute|reflexivity].
Defined.

(** C2 at three lines that make two messages. *)
Lemma IdentifyMessages_count_witness :
  IdentifyMessages [s_ "1/2/20, 10:00 AM - Alice: Hello"; s_ "World";
                    s_ "[1.2.20 10:01:12] Bob: Hi"]
  = Return [(s_ "1/2/20 10:00 AM", s_ "Alice", s_ "Hello" ++ [PyStr.nl] ++ s_ "World");
            (s_ "1.2.20 10:01:12", s_ "Bob", s_ "Hi")] ∧
  2 = matched_lines [s_ "1/2/20, 10:00 AM - Alice: Hello"; s_ "World";
                     s_ "[1.2.20 10:01:12] Bob: Hi"].
Proof.
  assert (IdentifyMessages
            [s_ "1/2/20, 10:00 AM - Alice: Hello"; s_ "World";
             s_ "[1.2.20 10:01:12] Bob: Hi"]
          = Return [(s_ "1/2/20 10:00 AM", s_ "Alice",
                     s_ "Hello" ++ [PyStr.nl] ++ s_ "World");
                    (s_ "1.2.20 10:01:12", s_ "Bob", s_ "Hi")]) as Hrun
    by (by vm_compute).
  split; [exact Hrun|].
  exact (IdentifyMessages_count _ _ Hrun).
Defined.

(** C3, as stated, fails: the white space in front of a continuation
    line is removed as well. *)
Lemma continuation_line_loses_leading_space :
  ParseLine (s_ "  World") = Return None ∧
  IdentifyMessages_step
    (@Build_reassembler_state text_dates []
       (Some (s_ "1/2/20 10:00 AM", s_ "Alice", s_ "Hello")))
    (s_ "  World")
  = Return (@Build_reassembler_state text_dates []
              (Some (s_ "1/2/20 10:00 AM", s_ "Alice",
                     s_ "Hello" ++ [PyStr.nl] ++ s_ "World"))) ∧
  s_ "Hello" ++ [PyStr.nl] ++ s_ "World"
  ≠ s_ "Hello" ++ [PyStr.nl] ++ PyStr.rstrip (s_ "  World").
Proof. split; [by vm_compute|]. split; by vm_compute. Qed.


(** The amended C3 at a line with white space at both ends. *)
Lemma continuation_line_appended_witness :
  IdentifyMessages_step
    (@Build_reassembler_state text_dates []
       (Some (s_ "1/2/20 10:00 AM", s_ "Alice", s_ "Hello")))
    (s_ "  World  ")
  = Return (@Build_reassembler_state text_dates []
              (Some (s_ "1/2/20 10:00 AM", s_ "Alice",
                     s_ "Hello" ++ [PyStr.nl] ++
                     PyStr.strip (s_ "  World  ")))).
Proof.
  apply (continuation_line_appended
           (@Build_reassembler_state text_dates []
       (Some (s_ "1/2/20 10:00 AM", s_ "Alice", s_ "Hello")))
           (s_ "  World  ") (s_ "1/2/20 10:00 AM") (s_ "Alice") (s_ "Hello")).
  - reflexivity.
  - by vm_compute.
Defined.

(* ===================================================================== *)
(** * Properties of the Renderer                                         *)
(* ===================================================================== *)

Section PaletteFacts.
Import PyStr Re Template.















End PaletteFacts.

Section RendererFacts.
Context `{DateParser} `{OsPath} `{DictAttributes}.
Import PyStr Re Template.
#[local] Opaque tmpl_title tmpl_style tmpl_container tmpl_chatbox
  tmpl_username tmpl_date tmpl_messages tmpl_message tmpl_message_end
  tmpl_chatbox_end tmpl_end.
Implicit Types (idx : gmap str nat) (run : str * list (message datetime)).

(** The text of every run is part of the text of the runs. *)
Lemma render_runs_block idx runs blocks run :
  render_runs idx runs = Return blocks → run ∈ runs →
  ∃ block before behind,
    render_run idx run = Return block ∧ blocks = before ++ block ++ behind.
Proof.
  revert blocks. induction runs as [|r runs IH]; intros blocks Hr Hin.
  - by apply elem_of_nil in Hin.
  - simpl in Hr. apply bind_Return_inv in Hr as (a & Ha & Hr).
    apply bind_Return_inv in Hr as (b & Hb & [= <-]).
    apply elem_of_cons in Hin as [->|Hin].
    + exists a, [], b. by split.
    + destruct (IH b Hb Hin) as (block & before & behind & Hblock & ->).
      exists block, (a ++ before), behind. split; [done|].
      by rewrite <- !app_assoc.
Qed.

Lemma FormatHTML_Return data html :
  FormatHTML data = Return html →
  ∃ blocks,
    render_runs (user_idx data) (by_user data) = Return blocks ∧
    html = tmpl_title ++ input_basename data ++
           tmpl_style ++ input_basename data ++
           tmpl_container ++ blocks ++ tmpl_end.
Proof.
  unfold FormatHTML.
  destruct (render_runs (user_idx data) (by_user data)) as [blocks|e];
    [|done].
  unfold mbind, result_bind. intros Heq. exists blocks. split; [done|].
  injection Heq as Heq. by symmetry.
Qed.



Lemma render_run_Return idx user msgs block :
  render_run idx (user, msgs) = Return block →
  ∃ m msgs',
    msgs = m :: msgs' ∧
    block = tmpl_chatbox ++ render_user_idx idx user ++
            tmpl_username ++ user ++
            tmpl_date ++ datetime_str m.1.1 ++
            tmpl_messages ++ concat (render_message <$> msgs) ++
            tmpl_chatbox_end.
Proof.
  unfold render_run, render_first_date.
  destruct msgs as [|m msgs']; [done|]. simpl. intros [= <-]. by exists m, msgs'.
Qed.




End RendererFacts.



(* ===================================================================== *)
(** * Further properties: the matcher and the patterns                   *)
(* ===================================================================== *)

Section MatcherFacts.
Import PyStr Re.
Context {R : Type}.
Implicit Types (k : str → captures → option R) (s w rest : str).

Lemma greedy_sound p s (k : str → option R) x :
  greedy p s k = Some x →
  ∃ w rest, s = w ++ rest ∧ Forall (λ c, p c = true) w ∧ k rest = Some x.
Proof.
  induction s as [|c s IH]; simpl.
  - intros Hk. by exists [], [].
  - destruct (p c) eqn:Hc; [|intros Hk; by exists [], (c :: s)].
    destruct (greedy p s k) as [y|] eqn:Hg.
    + intros [= ->]. destruct (IH eq_refl) as (w & rest & -> & Hw & Hk).
      exists (c :: w), rest. split; [done|]. split; [by constructor|done].
    + intros Hk. by exists [], (c :: s).
Qed.

Lemma reluctant_sound p s (k : str → option R) x :
  reluctant p s k = Some x →
  ∃ w rest, s = w ++ rest ∧ Forall (λ c, p c = true) w ∧ k rest = Some x.
Proof.
  induction s as [|c s IH]; simpl.
  - destruct (k []) eqn:Hk; [|done]. intros [= ->]. by exists [], [].
  - destruct (k (c :: s)) eqn:Hk.
    + intros [= ->]. by exists [], (c :: s).
    + destruct (p c) eqn:Hc; [|done].
      intros (w & rest & -> & Hw & Hk')%IH.
      exists (c :: w), rest. split; [done|]. split; [by constructor|done].
Qed.

(** Whatever the matcher returns comes from a text that the pattern
    accepts. *)
Lemma rmatch_sound r s caps k x :
  rmatch r s caps k = Some x →
  ∃ w rest caps',
    s = w ++ rest ∧ matches r w rest caps caps' ∧ k rest caps' = Some x.
Proof.
  revert s caps k x.
  induction r as [w0|p|r1 IH1 r2 IH2|r1 IH1 r2 IH2|r1 IH1|p|p|p|name r1 IH1|];
    intros s caps k x; cbn [rmatch].
  - destruct (strip_prefix w0 s) as [s'|] eqn:Hp; [|done].
    apply strip_prefix_Some in Hp as ->. intros Hk.
    exists w0, s', caps. split; [done|]. split; [by constructor|done].
  - destruct s as [|c s]; [done|]. destruct (p c) eqn:Hc; [|done].
    intros Hk. exists [c], s, caps. split; [done|]. split; [by constructor|done].
  - intros (w1 & rest1 & caps1 & -> & Hm1 & Hk)%IH1.
    apply IH2 in Hk as (w2 & rest & caps2 & -> & Hm2 & Hk).
    exists (w1 ++ w2), rest, caps2. rewrite <- app_assoc.
    split; [done|]. split; [by econstructor|done].
  - destruct (rmatch r1 s caps k) as [y|] eqn:H1.
    + intros [= ->]. apply IH1 in H1 as (w & rest & caps' & -> & Hm & Hk).
      exists w, rest, caps'. split; [done|]. split; [by apply matches_Alt_l|done].
    + intros (w & rest & caps' & -> & Hm & Hk)%IH2.
      exists w, rest, caps'. split; [done|]. split; [by apply matches_Alt_r|done].
  - destruct (rmatch r1 s caps k) as [y|] eqn:H1.
    + intros [= ->]. apply IH1 in H1 as (w & rest & caps' & -> & Hm & Hk).
      exists w, rest, caps'. split; [done|]. split; [by apply matches_Opt_some|done].
    + intros Hk. exists [], s, caps. split; [done|]. split; [apply matches_Opt_none|done].
  - destruct s as [|c s]; [done|]. destruct (p c) eqn:Hc; [|done].
    intros (w & rest & -> & Hw & Hk)%greedy_sound.
    exists (c :: w), rest, caps. split; [done|]. split; [by constructor|done].
  - destruct s as [|c s]; [done|]. destruct (p c) eqn:Hc; [|done].
    intros (w & rest & -> & Hw & Hk)%reluctant_sound.
    exists (c :: w), rest, caps. split; [done|]. split; [by constructor|done].
  - intros (w & rest & -> & Hw & Hk)%greedy_sound.
    exists w, rest, caps. split; [done|]. split; [by constructor|done].
  - intros (w & rest & caps' & -> & Hm & Hk)%IH1.
    rewrite take_app_suffix in Hk.
    exists w, rest, ((name, w) :: caps'). repeat split; [|done].
    by constructor.
  - case_decide as Hs; [|done]. intros Hk.
    exists [], s, caps. split; [done|]. split; [by constructor|done].
Qed.
End MatcherFacts.

Section MatcherComplete.
Import PyStr Re.
Context {R : Type}.
Implicit Types (k : str → captures → option R) (s w rest : str).

Lemma greedy_base p s (k : str → option R) :
  is_Some (k s) → is_Some (greedy p s k).
Proof.
  intros Hk. destruct s as [|c s]; [done|]. simpl.
  destruct (p c); [|done]. by destruct (greedy p s k).
Qed.

Lemma greedy_complete p w rest (k : str → option R) :
  Forall (λ c, p c = true) w → is_Some (k rest) →
  is_Some (greedy p (w ++ rest) k).
Proof.
  intros Hw Hk. induction Hw as [|c w Hc _ IH]; [by apply greedy_base|].
  simpl. rewrite Hc. by destruct IH as [y ->].
Qed.

Lemma reluctant_complete p w rest (k : str → option R) :
  Forall (λ c, p c = true) w → is_Some (k rest) →
  is_Some (reluctant p (w ++ rest) k).
Proof.
  intros Hw Hk. induction Hw as [|c w Hc _ IH].
  - destruct Hk as [y Hy]. destruct rest; simpl; by rewrite Hy.
  - simpl. destruct (k (c :: w ++ rest)); [done|]. by rewrite Hc.
Qed.

(** A text that the pattern accepts is matched, in this or another
    way, when the continuation accepts what follows. *)
Lemma rmatch_complete r w rest caps0 caps1 k :
  matches r w rest caps0 caps1 →
  (∀ caps, is_Some (k rest caps)) →
  ∀ caps, is_Some (rmatch r (w ++ rest) caps k).
Proof.
  intros Hm. revert k.
  induction Hm as [w rest c0|p c rest c0 Hc|r1 r2 w1 w2 rest c0 c1 c2 _ IH1 _ IH2
                  |r1 r2 w rest c0 c1 _ IH|r1 r2 w rest c0 c1 _ IH
                  |r w rest c0 c1 _ IH|r rest c0
                  |p c w rest c0 Hc Hw|p c w rest c0 Hc Hw|p w rest c0 Hw
                  |name r w rest c0 c1 _ IH|rest c0 Hrest];
    intros k Hk caps; cbn [rmatch].
  - by rewrite strip_prefix_app.
  - simpl. by rewrite Hc.
  - rewrite <- app_assoc. apply IH1. intros caps'. by apply IH2.
  - by destruct (IH k Hk caps) as [y ->].
  - destruct (rmatch r1 (w ++ rest) caps k); [done|]. by apply IH.
  - by destruct (IH k Hk caps) as [y ->].
  - simpl. by destruct (rmatch r rest caps k).
  - simpl. rewrite Hc. by apply greedy_complete.
  - simpl. rewrite Hc. by apply reluctant_complete.
  - by apply greedy_complete.
  - apply IH. intros caps'. apply Hk.
  - simpl. by rewrite decide_True.
Qed.
End MatcherComplete.

Section MatchFacts.
Import PyStr Re.

(** [re.match] succeeds exactly on the strings that begin with a text
    that the pattern accepts. *)
Lemma re_match_is_Some r s :
  is_Some (re_match r s) ↔
  ∃ w rest caps', s = w ++ rest ∧ matches r w rest [] caps'.
Proof.
  unfold re_match. split.
  - intros [m Hm]. apply rmatch_sound in Hm as (w & rest & caps' & ? & ? & _).
    by exists w, rest, caps'.
  - intros (w & rest & caps' & -> & Hm).
    by apply (rmatch_complete _ _ _ _ _ _ Hm).
Qed.

Lemma re_match_Some r s m :
  re_match r s = Some m →
  ∃ w, s = w ++ m_post m ∧ matches r w (m_post m) [] (m_groups m).
Proof.
  unfold re_match.
  intros (w & rest & caps' & -> & Hm & [= <-])%rmatch_sound. by exists w.
Qed.

(** Inversion of [matches], one construct at a time. *)
Lemma matches_Lit_inv a w rest c c' :
  matches (Lit a) w rest c c' → w = a ∧ c' = c.
Proof. by inversion 1. Qed.

Lemma matches_Class_inv p w rest c c' :
  matches (Class p) w rest c c' → ∃ x, w = [x] ∧ p x = true ∧ c' = c.
Proof. inversion 1; subst. by eexists. Qed.

Lemma matches_Cat_inv r1 r2 w rest c c2 :
  matches (Cat r1 r2) w rest c c2 →
  ∃ w1 w2 c1, w = w1 ++ w2 ∧ matches r1 w1 (w2 ++ rest) c c1 ∧
              matches r2 w2 rest c1 c2.
Proof. inversion 1; subst. by eexists _, _, _. Qed.

Lemma matches_Alt_inv r1 r2 w rest c c' :
  matches (Alt r1 r2) w rest c c' →
  matches r1 w rest c c' ∨ matches r2 w rest c c'.
Proof. inversion 1; subst; eauto. Qed.

Lemma matches_Opt_inv r w rest c c' :
  matches (Opt r) w rest c c' →
  matches r w rest c c' ∨ (w = [] ∧ c' = c).
Proof. inversion 1; subst; eauto. Qed.

Lemma matches_Plus_inv p w rest c c' :
  matches (Plus p) w rest c c' →
  w ≠ [] ∧ Forall (λ x, p x = true) w ∧ c' = c.
Proof. inversion 1; subst. split; [done|]. split; [by constructor|done]. Qed.

Lemma matches_PlusLazy_inv p w rest c c' :
  matches (PlusLazy p) w rest c c' →
  w ≠ [] ∧ Forall (λ x, p x = true) w ∧ c' = c.
Proof. inversion 1; subst. split; [done|]. split; [by constructor|done]. Qed.

Lemma matches_Star_inv p w rest c c' :
  matches (Star p) w rest c c' → Forall (λ x, p x = true) w ∧ c' = c.
Proof. by inversion 1. Qed.

Lemma matches_Group_inv name r w rest c c' :
  matches (Group name r) w rest c c' →
  ∃ c1, matches r w rest c c1 ∧ c' = (name, w) :: c1.
Proof. inversion 1; subst. by eexists. Qed.

Lemma matches_Eol_inv w rest c c' :
  matches Eol w rest c c' → w = [] ∧ (rest = [] ∨ rest = [nl]) ∧ c' = c.
Proof. by inversion 1. Qed.

(** [matches_Cat] with the texts up to equality. *)
Lemma matches_Cat_eq r1 r2 w w1 w2 rest rest1 c c1 c2 :
  matches r1 w1 rest1 c c1 → matches r2 w2 rest c1 c2 →
  rest1 = w2 ++ rest → w = w1 ++ w2 →
  matches (Cat r1 r2) w rest c c2.
Proof. intros H1 H2 -> ->. by econstructor. Qed.
End MatchFacts.

(* ===================================================================== *)
(** * Further properties: the layout that the patterns accept            *)
(* ===================================================================== *)

Section LayoutFacts.
Import PyStr Re.
Implicit Types (w rest date time name body line head : str) (c : captures).

Ltac inv_matches :=
  repeat match goal with
  | H : matches (Cat _ _) _ _ _ _ |- _ =>
      apply matches_Cat_inv in H as (? & ? & ? & ? & ? & ?)
  | H : matches (Lit _) _ _ _ _ |- _ => apply matches_Lit_inv in H as [? ?]
  | H : matches (Class _) _ _ _ _ |- _ =>
      apply matches_Class_inv in H as (? & ? & ? & ?)
  | H : matches (Group _ _) _ _ _ _ |- _ =>
      apply matches_Group_inv in H as (? & ? & ?)
  | H : matches (Plus _) _ _ _ _ |- _ =>
      apply matches_Plus_inv in H as (? & ? & ?)
  | H : matches (PlusLazy _) _ _ _ _ |- _ =>
      apply matches_PlusLazy_inv in H as (? & ? & ?)
  | H : matches (Star _) _ _ _ _ |- _ => apply matches_Star_inv in H as [? ?]
  | H : matches Eol _ _ _ _ |- _ => apply matches_Eol_inv in H as (? & ? & ?)
  | H : matches (Opt _) _ _ _ _ |- _ =>
      apply matches_Opt_inv in H as [H|[? ?]]
  | H : matches (Alt _ _) _ _ _ _ |- _ => apply matches_Alt_inv in H as [H|H]
  end; subst.

Lemma Forall_none_of cs w :
  Forall (λ x, none_of cs x = true) w ↔ ∀ x, x ∈ cs → x ∉ w.
Proof.
  rewrite Forall_forall. unfold none_of. split.
  - intros Hw x Hx Hin. specialize (Hw _ Hin).
    apply negb_true_iff, bool_decide_eq_false in Hw. done.
  - intros Hw x Hin. apply negb_true_iff, bool_decide_eq_false.
    intros Hx. by apply (Hw x).
Qed.

Lemma Forall_dot w : Forall (λ x, dot x = true) w ↔ nl ∉ w.
Proof.
  rewrite Forall_forall. unfold dot. split.
  - intros Hw Hin. specialize (Hw _ Hin).
    by apply negb_true_iff, bool_decide_eq_false in Hw.
  - intros Hw x Hin. apply negb_true_iff, bool_decide_eq_false.
    by intros ->.
Qed.

Lemma matches_DATE_RE w rest c c' :
  matches (compiled DATE_RE) w rest c c' ↔
  date_text w ∧ c' = ("date"%string, w) :: c.
Proof.
  unfold DATE_RE, date_text. cbn [compiled]. split.
  - intros Hm. by inv_matches.
  - intros [[Hne Hw] ->]. apply matches_Group. destruct w as [|x w]; [done|].
    apply Forall_cons in Hw as [? ?]. by apply matches_Plus.
Qed.

Lemma matches_TIME_RE w rest c c' :
  matches (compiled TIME_RE) w rest c c' ↔
  ∃ t ampm,
    w = t ++ ampm ∧ t ≠ [] ∧ Forall (λ x, time_char x = true) t ∧
    ((ampm = [] ∧ c' = ("time"%string, w) :: c) ∨
     (ampm ∈ [s_ " AM"; s_ " PM"] ∧
      c' = ("time"%string, w) :: ("3"%string, ampm) :: c)).
Proof.
  unfold TIME_RE. cbn [compiled]. split.
  - intros Hm. inv_matches.
    + eexists _, _. split; [done|]. split; [done|]. split; [done|]. right.
      split; [|done]. match goal with H : one_of _ _ = true |- _ =>
        apply bool_decide_eq_true in H; set_unfold in H;
        destruct H as [->|[->|[]]] end; set_solver.
    + eexists _, []. split; [done|]. split; [done|]. split; [done|]. by left.
  - intros (t & ampm & -> & Hne & Ht & Hcase).
    destruct t as [|x t]; [done|]. apply Forall_cons in Ht as [? ?].
    destruct Hcase as [[-> ->]|[Hin ->]]; apply matches_Group.
    + eapply matches_Cat; [by apply matches_Plus|apply matches_Opt_none].
    + eapply matches_Cat; [by apply matches_Plus|].
      apply matches_Opt_some, matches_Group.
      set_unfold in Hin. destruct Hin as [->|[->|[]]].
      * eapply (matches_Cat _ _ (s_ " ") (s_ "AM")); [apply matches_Lit|].
        eapply (matches_Cat _ _ (s_ "A") (s_ "M"));
          [by apply matches_Class|apply matches_Lit].
      * eapply (matches_Cat _ _ (s_ " ") (s_ "PM")); [apply matches_Lit|].
        eapply (matches_Cat _ _ (s_ "P") (s_ "M"));
          [by apply matches_Class|apply matches_Lit].
Qed.
Lemma matches_SEPARATOR_RE w rest c c' :
  matches (compiled SEPARATOR_RE) w rest c c' ↔
  w ∈ [s_ " - "; s_ ": "; s_ " "] ∧ c' = ("4"%string, w) :: c.
Proof.
  unfold SEPARATOR_RE. cbn [compiled]. split.
  - intros Hm. inv_matches; (split; [set_solver|done]).
  - intros [Hin ->]. apply matches_Group. set_unfold in Hin.
    destruct Hin as [->|[->|[->|[]]]].
    + apply matches_Alt_l, matches_Lit.
    + apply matches_Alt_r, matches_Alt_l, matches_Lit.
    + apply matches_Alt_r, matches_Alt_r, matches_Lit.
Qed.

Lemma matches_NAME_RE w rest c c' :
  matches (compiled NAME_RE) w rest c c' ↔
  w ≠ [] ∧ (":"%char ∉ w) ∧ c' = ("name"%string, w) :: c.
Proof.
  unfold NAME_RE. cbn [compiled]. split.
  - intros (c1 & Hm & ->)%matches_Group_inv.
    apply matches_PlusLazy_inv in Hm as (Hne & Hall & ->).
    split; [done|]. split; [|done].
    apply Forall_none_of with (x := ":"%char) in Hall; [done|set_solver].
  - intros (Hne & Hw & ->). apply matches_Group.
    assert (Forall (λ x, none_of (s_ ":") x = true) w) as Hall.
    { apply Forall_none_of. intros x Hx. set_unfold in Hx.
      by destruct Hx as [->|[]]. }
    destruct Hall; [done|]. by apply matches_PlusLazy.
Qed.

Lemma matches_BODY_RE w rest c c' :
  matches (compiled BODY_RE) w rest c c' ↔
  (nl ∉ w) ∧ rest ∈ [[]; [nl]] ∧ c' = ("body"%string, w) :: c.
Proof.
  unfold BODY_RE. cbn [compiled]. split.
  - intros Hm. inv_matches. rewrite app_nil_r in *.
    split; [by apply Forall_dot|]. split; [|done].
    match goal with H : _ ∨ _ |- _ => destruct H as [-> | ->] end; set_solver.
  - intros (Hw & Hrest & ->). apply matches_Group.
    rewrite <- (app_nil_r w) at 1.
    eapply matches_Cat; [by apply matches_Star, Forall_dot|].
    apply matches_Eol. set_unfold in Hrest.
    destruct Hrest as [->|[->|[]]]; eauto.
Qed.

Lemma matches_DATETIME_RE_sound w rest c c' :
  matches (compiled DATETIME_RE) w rest c c' →
  ∃ date time, datetime_text date time w ∧ datetime_groups date time c c'.
Proof.
  unfold DATETIME_RE. cbn [compiled pcat].
  intros (ob & w1 & c1 & -> & Hob & Hm)%matches_Cat_inv.
  apply matches_Cat_inv in Hm as (date & w2 & c2 & -> & Hdate & Hm).
  apply matches_Cat_inv in Hm as (cs & w3 & c3 & -> & Hcs & Hm).
  apply matches_Cat_inv in Hm as (time & cb & c4 & -> & Htime & Hcb).
  apply matches_DATE_RE in Hdate as [Hdate ->].
  apply matches_TIME_RE in Htime as (t & ampm & Heq & Hne & Ht & Hcase).
  apply matches_Cat_inv in Hcs as (comma & sp & c5 & -> & Hcomma & Hsp).
  apply matches_Lit_inv in Hsp as [-> ->].
  exists date, time. split.
  - exists ob, comma, cb. rewrite <- !app_assoc. split; [done|].
    split.
    { apply matches_Opt_inv in Hob as [[-> _]%matches_Lit_inv|[-> _]];
        set_solver. }
    split.
    { apply matches_Opt_inv in Hcomma as [[-> _]%matches_Lit_inv|[-> _]];
        set_solver. }
    split.
    { apply matches_Opt_inv in Hcb as [[-> _]%matches_Lit_inv|[-> _]];
        set_solver. }
    split; [done|]. exists t, ampm. split; [done|]. split; [done|].
    split; [done|]. destruct Hcase as [[-> _]|[? _]]; set_solver.
  - assert (c1 = c) as ->.
    { by apply matches_Opt_inv in Hob as [[_ ?]%matches_Lit_inv|[_ ?]]. }
    assert (c5 = ("date"%string, date) :: c) as ->.
    { by apply matches_Opt_inv in Hcomma as [[_ ?]%matches_Lit_inv|[_ ?]]. }
    assert (c' = c4) as ->.
    { by apply matches_Opt_inv in Hcb as [[_ ?]%matches_Lit_inv|[_ ?]]. }
    destruct Hcase as [[_ ->]|[_ ->]]; [by left|right; by eexists].
Qed.

Lemma matches_Opt_Lit a w rest c :
  w ∈ [[]; a] → matches (Opt (Lit a)) w rest c c.
Proof.
  intros Hw. set_unfold in Hw. destruct Hw as [->|[->|[]]].
  - apply matches_Opt_none.
  - apply matches_Opt_some, matches_Lit.
Qed.

Lemma matches_DATETIME_RE_complete date time w rest c :
  datetime_text date time w →
  ∃ c', matches (compiled DATETIME_RE) w rest c c'.
Proof.
  intros (ob & comma & cb & -> & Hob & Hcomma & Hcb & Hdate & Htime).
  destruct Htime as (t & ampm & -> & Hne & Ht & Hampm).
  assert (∃ c', matches (compiled TIME_RE) (t ++ ampm) (cb ++ rest)
                  (("date"%string, date) :: c) c') as [c' Htime].
  { set_unfold in Hampm. destruct Hampm as [->|Hampm].
    - eexists. apply matches_TIME_RE. exists t, []. eauto 10.
    - eexists. apply matches_TIME_RE. exists t, ampm.
      split; [done|]. split; [done|]. split; [done|]. right.
      split; [set_solver|done]. }
  exists c'. unfold DATETIME_RE. cbn [compiled pcat].
  eapply matches_Cat; [by apply matches_Opt_Lit|].
  eapply matches_Cat; [by apply matches_DATE_RE|].
  eapply (matches_Cat_eq _ _ _ (comma ++ s_ " ") ((t ++ ampm) ++ cb));
    [|
     |reflexivity
     |by rewrite <- !app_assoc].
  { eapply matches_Cat; [by apply matches_Opt_Lit|apply matches_Lit]. }
  eapply matches_Cat; [done|by apply matches_Opt_Lit].
Qed.

(** ** [WHATSAPP_RE] and [FIRSTLINE_RE] *)

Lemma datetime_groups_group date time c c' :
  datetime_groups date time c c' →
  group c' "date" = date ∧ group c' "time" = time.
Proof. by intros [->|[a ->]]. Qed.

(** A match of [WHATSAPP_RE] is a line laid out as a date and time, a
    separator, a name, a colon and a body, and its groups are these
    parts. *)
Lemma re_match_WHATSAPP_RE_sound line m :
  re_match (compiled WHATSAPP_RE) line = Some m →
  named_line (group (m_groups m) "date") (group (m_groups m) "time")
    (group (m_groups m) "name") (group (m_groups m) "body") line.
Proof.
  intros (w & -> & Hm)%re_match_Some. revert Hm.
  generalize (m_post m) (m_groups m). intros eol caps.
  unfold WHATSAPP_RE. cbn [compiled pcat].
  intros (head & w1 & c1 & -> & Hhead & Hm)%matches_Cat_inv.
  apply matches_Cat_inv in Hm as (sep & w2 & c2 & -> & Hsep & Hm).
  apply matches_Cat_inv in Hm as (name & w3 & c3 & -> & Hname & Hm).
  apply matches_Cat_inv in Hm as (colon & body & c4 & -> & Hcolon & Hbody).
  apply matches_DATETIME_RE_sound in Hhead as (date & time & Hdt & Hg).
  apply matches_SEPARATOR_RE in Hsep as [Hsep ->].
  apply matches_NAME_RE in Hname as (Hne & Hname & ->).
  apply matches_Lit_inv in Hcolon as [-> ->].
  apply matches_BODY_RE in Hbody as (Hbody & Heol & ->).
  apply datetime_groups_group in Hg as [Hd Ht].
  cbn [group]. rewrite Hd, Ht.
  exists head, sep, eol. by rewrite <- !app_assoc.
Qed.

Lemma re_match_WHATSAPP_RE_complete date time name body line :
  named_line date time name body line →
  is_Some (re_match (compiled WHATSAPP_RE) line).
Proof.
  intros (head & sep & eol & -> & Hdt & Hsep & Hne & Hname & Hbody & Heol).
  destruct (matches_DATETIME_RE_complete date time head
              (sep ++ name ++ s_ ": " ++ body ++ eol) [] Hdt) as [c1 Hhead].
  apply re_match_is_Some.
  exists (head ++ sep ++ name ++ s_ ": " ++ body), eol. eexists.
  split; [by rewrite <- !app_assoc|].
  unfold WHATSAPP_RE. cbn [compiled pcat].
  eapply (matches_Cat_eq _ _ _ head (sep ++ name ++ s_ ": " ++ body));
    [exact Hhead| |by rewrite <- !app_assoc|done].
  eapply matches_Cat; [by apply matches_SEPARATOR_RE|].
  eapply matches_Cat; [by apply matches_NAME_RE|].
  eapply matches_Cat; [apply matches_Lit|]. by apply matches_BODY_RE.
Qed.

Lemma re_match_FIRSTLINE_RE_sound line m :
  re_match (compiled FIRSTLINE_RE) line = Some m →
  unnamed_line (group (m_groups m) "date") (group (m_groups m) "time")
    (group (m_groups m) "body") line.
Proof.
  intros (w & -> & Hm)%re_match_Some. revert Hm.
  generalize (m_post m) (m_groups m). intros eol caps.
  unfold FIRSTLINE_RE. cbn [compiled pcat].
  intros (head & w1 & c1 & -> & Hhead & Hm)%matches_Cat_inv.
  apply matches_Cat_inv in Hm as (sep & body & c2 & -> & Hsep & Hbody).
  apply matches_DATETIME_RE_sound in Hhead as (date & time & Hdt & Hg).
  apply matches_SEPARATOR_RE in Hsep as [Hsep ->].
  apply matches_BODY_RE in Hbody as (Hbody & Heol & ->).
  apply datetime_groups_group in Hg as [Hd Ht].
  cbn [group]. rewrite Hd, Ht.
  exists head, sep, eol. by rewrite <- !app_assoc.
Qed.

Lemma re_match_FIRSTLINE_RE_complete date time body line :
  unnamed_line date time body line →
  is_Some (re_match (compiled FIRSTLINE_RE) line).
Proof.
  intros (head & sep & eol & -> & Hdt & Hsep & Hbody & Heol).
  destruct (matches_DATETIME_RE_complete date time head
              (sep ++ body ++ eol) [] Hdt) as [c1 Hhead].
  apply re_match_is_Some.
  exists (head ++ sep ++ body), eol. eexists.
  split; [by rewrite <- !app_assoc|].
  unfold FIRSTLINE_RE. cbn [compiled pcat].
  eapply (matches_Cat_eq _ _ _ head (sep ++ body));
    [exact Hhead| |by rewrite <- !app_assoc|done].
  eapply matches_Cat; [by apply matches_SEPARATOR_RE|].
  by apply matches_BODY_RE.
Qed.
End LayoutFacts.

(* ===================================================================== *)
(** * Further properties of the patterns and of ParseLine                *)
(* ===================================================================== *)

Section LayoutTheorems.
Import PyStr Re.
Implicit Types (line date time name body : str).

(** X1. [WHATSAPP_RE] matches exactly the lines laid out as
    [date time], a separator, a non-empty name without colon, [": "] and
    a body without line break, up to an optional final line break; the
    groups of the match are the parts of such a layout. *)
Theorem WHATSAPP_RE_layout line :
  match re_match (compiled WHATSAPP_RE) line with
  | Some m =>
      named_line (group (m_groups m) "date") (group (m_groups m) "time")
        (group (m_groups m) "name") (group (m_groups m) "body") line
  | None => ∀ date time name body, ¬ named_line date time name body line
  end.
Proof.
  destruct (re_match (compiled WHATSAPP_RE) line) as [m|] eqn:Hm.
  - by apply re_match_WHATSAPP_RE_sound.
  - intros date time name body Hl.
    apply re_match_WHATSAPP_RE_complete in Hl as [m' Hm']. congruence.
Qed.

(** X2. [FIRSTLINE_RE] matches exactly the lines laid out as
    [date time], a separator and a body without line break, up to an
    optional final line break; the groups of the match are the parts of
    such a layout. *)
Theorem FIRSTLINE_RE_layout line :
  match re_match (compiled FIRSTLINE_RE) line with
  | Some m =>
      unnamed_line (group (m_groups m) "date") (group (m_groups m) "time")
        (group (m_groups m) "body") line
  | None => ∀ date time body, ¬ unnamed_line date time body line
  end.
Proof.
  destruct (re_match (compiled FIRSTLINE_RE) line) as [m|] eqn:Hm.
  - by apply re_match_FIRSTLINE_RE_sound.
  - intros date time body Hl.
    apply re_match_FIRSTLINE_RE_complete in Hl as [m' Hm']. congruence.
Qed.

(** A date and time text opens with a bracket or with a character of a
    date. *)
Lemma datetime_text_head date time head :
  datetime_text date time head →
  ∃ c rest, head = c :: rest ∧ (c = "["%char ∨ date_char c = true).
Proof.
  intros (ob & comma & cb & -> & Hob & _ & _ & [Hne Hdate] & _).
  set_unfold in Hob. destruct Hob as [->|[->|[]]].
  - destruct date as [|c date]; [done|].
    apply Forall_cons in Hdate as [Hc _]. exists c. eexists.
    split; [reflexivity|by right].
  - exists "["%char. eexists. split; [reflexivity|by left].
Qed.

Lemma named_line_head date time name body line :
  named_line date time name body line →
  ∃ c rest, line = c :: rest ∧ (c = "["%char ∨ date_char c = true).
Proof.
  intros (head & sep & eol & -> & Hdt & _).
  apply datetime_text_head in Hdt as (c & rest & -> & Hc).
  exists c. eexists. by split.
Qed.

Lemma unnamed_line_head date time body line :
  unnamed_line date time body line →
  ∃ c rest, line = c :: rest ∧ (c = "["%char ∨ date_char c = true).
Proof.
  intros (head & sep & eol & -> & Hdt & _).
  apply datetime_text_head in Hdt as (c & rest & -> & Hc).
  exists c. eexists. by split.
Qed.
End LayoutTheorems.

Section ParseLineFacts.
Context `{DateParser}.
Import PyStr Re.
Implicit Types (line date time name body : str).

(** A tuple returned by [ParseLine] is made of the groups of the match
    that [ParseLine] works with. *)
Lemma ParseLine_Some_match line d u b :
  ParseLine line = Return (Some (d, u, b)) →
  ∃ m named,
    line_match line = Some (m, named) ∧
    dateutil_parse (timestr_of m) = Return d ∧
    u = (if named then group (m_groups m) "name" else s_ "nobody") ∧
    b = replace_attachment (group (m_groups m) "body").
Proof.
  rewrite ParseLine_cases.
  destruct (line_match line) as [[m named]|]; [|done].
  destruct (dateutil_parse (timestr_of m)) as [d'|e] eqn:Hd; [|done].
  intros [= <- <- <-]. by exists m, named.
Qed.

(** The match that [ParseLine] works with has the layout of its
    pattern. *)
Lemma line_match_layout line m named :
  line_match line = Some (m, named) →
  if named
  then named_line (group (m_groups m) "date") (group (m_groups m) "time")
         (group (m_groups m) "name") (group (m_groups m) "body") line
  else unnamed_line (group (m_groups m) "date") (group (m_groups m) "time")
         (group (m_groups m) "body") line.
Proof.
  unfold line_match.
  destruct (re_match (compiled WHATSAPP_RE) line) as [m'|] eqn:Hw.
  - intros [= <- <-]. by apply re_match_WHATSAPP_RE_sound.
  - destruct (re_match (compiled FIRSTLINE_RE) line) as [m'|] eqn:Hf; [|done].
    intros [= <- <-]. by apply re_match_FIRSTLINE_RE_sound.
Qed.

(** The first-line pattern is tried only on a line that has no layout
    with a name. *)
Lemma line_match_unnamed line m :
  line_match line = Some (m, false) →
  ∀ date time name body, ¬ named_line date time name body line.
Proof.
  unfold line_match.
  destruct (re_match (compiled WHATSAPP_RE) line) as [m'|] eqn:Hw; [done|].
  intros _ date time name body Hl.
  apply re_match_WHATSAPP_RE_complete in Hl as [m' Hm']. congruence.
Qed.

(** A line of neither layout is matched by neither pattern. *)
Lemma line_match_no_layout line :
  (∀ date time name body, ¬ named_line date time name body line) →
  (∀ date time body, ¬ unnamed_line date time body line) →
  line_match line = None.
Proof.
  intros Hn Hu.
  destruct (line_match line) as [[m named]|] eqn:Hm; [|done].
  apply line_match_layout in Hm. destruct named; [by apply Hn in Hm|].
  by apply Hu in Hm.
Qed.

(** X3. A tuple returned by [ParseLine] comes from a layout of the
    line: the date is what [dateutil] returns for the date text, a space
    and the time text of that layout, and the body is its body after
    [replace_attachment].  The sender is the name of that layout when the
    line has a layout with a name; it is [nobody] only on a line that has
    no layout with a name, and then the layout is one without name. *)
Theorem ParseLine_message_layout line d u b :
  ParseLine line = Return (Some (d, u, b)) →
  ∃ date time body,
    dateutil_parse (date ++ s_ " " ++ time) = Return d ∧
    b = replace_attachment body ∧
    (named_line date time u body line ∨
     ((∀ date' time' name' body', ¬ named_line date' time' name' body' line) ∧
      u = s_ "nobody" ∧ unnamed_line date time body line)).
Proof.
  intros (m & named & Hm & Hd & -> & ->)%ParseLine_Some_match.
  pose proof (line_match_layout _ _ _ Hm) as Hl.
  exists (group (m_groups m) "date"), (group (m_groups m) "time"),
         (group (m_groups m) "body").
  split; [exact Hd|]. split; [done|].
  destruct named; [by left|]. right.
  split; [by eapply line_match_unnamed|done].
Qed.

(** X4. [ParseLine] returns [None], which makes the line a continuation
    line, exactly on the lines that have neither layout. *)
Theorem ParseLine_None_iff_no_layout line :
  ParseLine line = Return None ↔
  (∀ date time name body, ¬ named_line date time name body line) ∧
  (∀ date time body, ¬ unnamed_line date time body line).
Proof.
  rewrite ParseLine_cases. split.
  - unfold line_match.
    destruct (re_match (compiled WHATSAPP_RE) line) as [m|] eqn:Hw.
    { by destruct (dateutil_parse _). }
    destruct (re_match (compiled FIRSTLINE_RE) line) as [m|] eqn:Hf.
    { by destruct (dateutil_parse _). }
    intros _. split.
    + intros date time name body Hl.
      apply re_match_WHATSAPP_RE_complete in Hl as [m' Hm']. congruence.
    + intros date time body Hl.
      apply re_match_FIRSTLINE_RE_complete in Hl as [m' Hm']. congruence.
  - intros [Hn Hu]. by rewrite line_match_no_layout.
Qed.

(** X5. A line that opens with a character other than a digit, [/], [-],
    [.] and [[] is never the start of a message, and neither is the empty
    line: [ParseLine] returns [None] on it and does not ask [dateutil]. *)
Theorem ParseLine_not_a_start c line :
  is_digit c = false → c ∉ s_ "/-.[" →
  ParseLine (c :: line) = Return None ∧ ParseLine [] = Return None.
Proof.
  intros Hdigit Hc. split; [|done].
  assert (¬ (c = "["%char ∨ date_char c = true)) as Hno.
  { unfold date_char, one_of. rewrite Hdigit. simpl.
    rewrite bool_decide_eq_true. set_solver. }
  rewrite ParseLine_cases, line_match_no_layout; [done| |].
  - intros date time name body
      (c' & rest & [= <- <-] & Hc')%named_line_head. done.
  - intros date time body
      (c' & rest & [= <- <-] & Hc')%unnamed_line_head. done.
Qed.
End ParseLineFacts.

(** X3 at a line of an export. *)
Lemma ParseLine_message_layout_witness :
  ∃ date time body,
    dateutil_parse (DateParser := text_dates) (date ++ s_ " " ++ time)
    = Return (s_ "1/2/20 10:00 AM") ∧
    s_ "Hello" = replace_attachment body ∧
    (named_line date time (s_ "Alice") body
       (s_ "1/2/20, 10:00 AM - Alice: Hello") ∨
     ((∀ date' time' name' body',
         ¬ named_line date' time' name' body'
             (s_ "1/2/20, 10:00 AM - Alice: Hello")) ∧
      s_ "Alice" = s_ "nobody" ∧
      unnamed_line date time body (s_ "1/2/20, 10:00 AM - Alice: Hello"))).
Proof.
  apply (ParseLine_message_layout (H := text_dates)
           (s_ "1/2/20, 10:00 AM - Alice: Hello")).
  by vm_compute.
Defined.

(** X5 at a line of plain text. *)
Lemma ParseLine_not_a_start_witness :
  ParseLine (H := text_dates) (s_ "World") = Return None ∧
  ParseLine (H := text_dates) [] = Return None.
Proof.
  apply (ParseLine_not_a_start (H := text_dates) "W"%char (s_ "orld")).
  - reflexivity.
  - apply (bool_decide_unpack _). vm_compute. exact I.
Defined.

(* ===================================================================== *)
(** * Further properties of replace_attachment: line breaks              *)
(* ===================================================================== *)

Section LineBreakFacts.
Import PyStr Re.
Implicit Types (s old new file : str).

Lemma filter_absent (P : ascii → Prop) `{∀ c, Decision (P c)} s :
  (∀ c, c ∈ s → ¬ P c) → filter P s = [].
Proof.
  induction s as [|c s IH]; [done|]. intros Hs.
  rewrite filter_cons_False by (apply Hs; set_solver).
  apply IH. intros c' Hc'. apply Hs. set_solver.
Qed.

(** Replacing a text by another, neither of which has a character of
    some kind, keeps the characters of that kind. *)
Lemma replace_from_filter (P : ascii → Prop) `{∀ c, Decision (P c)}
    old new n s :
  old ≠ [] → filter P old = [] → filter P new = [] →
  filter P (replace_from old new n s) = filter P (drop n s).
Proof.
  intros Hne Hold Hnew. revert n.
  induction s as [|c s IH]; intros n.
  - by rewrite drop_nil.
  - destruct n as [|n]; [|apply IH].
    cbn [replace_from drop].
    destruct (startswith (c :: s) old) eqn:Hs.
    + apply startswith_true in Hs as [t Ht].
      destruct old as [|a old']; [done|].
      injection Ht as -> ->.
      rewrite filter_app, Hnew, IH.
      replace (length (a :: old') - 1) with (length old') by (simpl; lia).
      rewrite drop_app_length. cbn [app].
      change (a :: old' ++ t) with ((a :: old') ++ t).
      by rewrite filter_app, Hold.
    + rewrite !filter_cons, IH. by rewrite drop_0.
Qed.

Lemma attachment_html_line_break file :
  nl ∉ file → nl ∉ attachment_html file.
Proof.
  intros Hfile. unfold attachment_html.
  assert (∀ t : string, bool_decide (nl ∉ py t) = true → nl ∉ py t) as Hpy.
  { intros t Ht. by apply bool_decide_eq_true in Ht. }
  repeat case_bool_decide;
    rewrite ?not_elem_of_app; repeat split; try done;
    by apply Hpy; vm_compute.
Qed.

Lemma marker_line_break file : nl ∉ file → nl ∉ marker file.
Proof.
  intros Hfile. unfold marker. rewrite !not_elem_of_app.
  split; [|split; [done|]]; apply (bool_decide_unpack _); by vm_compute.
Qed.

Lemma replace_attachment_filter s :
  filter (λ c, c = nl) (replace_attachment s) = filter (λ c, c = nl) s.
Proof.
  rewrite replace_attachment_unfold.
  destruct (first_marker s) as [[[pre file] post]|] eqn:Hf; [|done].
  apply first_marker_Some in Hf as (_ & Hat & _).
  apply marker_at_Some in Hat as (_ & _ & Hnl & _).
  rewrite replace_from_filter, drop_0; [done|apply marker_nonempty| |].
  - apply filter_absent. intros c Hc ->. by apply marker_line_break in Hc.
  - apply filter_absent. intros c Hc ->.
    by apply attachment_html_line_break in Hc.
Qed.

Lemma replace_attachment_line_break s :
  nl ∈ replace_attachment s ↔ nl ∈ s.
Proof.
  pose proof (replace_attachment_filter s) as Heq.
  split; intros Hin.
  - assert (nl ∈ filter (λ c, c = nl) (replace_attachment s)) as Hin'
      by by apply list_elem_of_filter.
    rewrite Heq in Hin'. by apply list_elem_of_filter in Hin' as [_ ?].
  - assert (nl ∈ filter (λ c, c = nl) s) as Hin'
      by by apply list_elem_of_filter.
    rewrite <- Heq in Hin'. by apply list_elem_of_filter in Hin' as [_ ?].
Qed.

(** X7. [replace_attachment] neither adds nor removes a line break: the
    text it returns has as many line breaks as the text it is given. *)
Theorem replace_attachment_keeps_line_breaks s :
  length (filter (λ c, c = nl) (replace_attachment s))
  = length (filter (λ c, c = nl) s) ∧
  (nl ∈ replace_attachment s ↔ nl ∈ s).
Proof.
  split; [by rewrite replace_attachment_filter|].
  apply replace_attachment_line_break.
Qed.

(** ** A line break at the end *)

Lemma strip_prefix_snoc old s c :
  c ∉ old →
  strip_prefix old (s ++ [c]) = (λ t, t ++ [c]) <$> strip_prefix old s.
Proof.
  revert s. induction old as [|a old IH]; intros s Hc; [done|].
  apply not_elem_of_cons in Hc as [Hca Hc].
  destruct s as [|x s]; simpl.
  - by rewrite decide_False.
  - case_decide; [by apply IH|done].
Qed.

Lemma startswith_snoc old s c :
  c ∉ old → old ≠ [] → startswith (s ++ [c]) old = startswith s old.
Proof.
  intros Hc Hne. unfold startswith. rewrite strip_prefix_snoc by done.
  apply bool_decide_ext. by rewrite fmap_is_Some.
Qed.

Lemma replace_from_snoc old new n s c :
  c ∉ old → old ≠ [] → n ≤ length s →
  replace_from old new n (s ++ [c]) = replace_from old new n s ++ [c].
Proof.
  intros Hc Hne. revert n. induction s as [|x s IH]; intros n Hn.
  - simpl in Hn. assert (n = 0) as -> by lia.
    cbn [app replace_from].
    rewrite <- (app_nil_l [c]), startswith_snoc by done.
    destruct old as [|a old]; [done|]. done.
  - destruct n as [|n]; [|simpl in *; apply IH; lia].
    change ((x :: s) ++ [c]) with (x :: (s ++ [c])).
    cbn [replace_from].
    change (x :: (s ++ [c])) with ((x :: s) ++ [c]).
    rewrite startswith_snoc by done.
    destruct (startswith (x :: s) old) eqn:Hs.
    + apply startswith_true in Hs as [t Ht].
      rewrite IH; [by rewrite <- app_assoc|].
      apply (f_equal length) in Ht. rewrite length_app in Ht. simpl in Ht. lia.
    + rewrite IH by lia. done.
Qed.

Lemma scan_file_snoc t :
  scan_file (t ++ [nl])
  = (λ m : str * str, (m.1, m.2 ++ [nl])) <$> scan_file t.
Proof.
  induction t as [|x t IH]; [done|]. cbn [app scan_file].
  case_decide; [done|]. destruct (dot x); [|done].
  rewrite IH. by destruct (scan_file t) as [[f post]|].
Qed.

Lemma marker_at_snoc s :
  marker_at (s ++ [nl])
  = (λ m : str * str, (m.1, m.2 ++ [nl])) <$> marker_at s.
Proof.
  unfold marker_at. rewrite strip_prefix_snoc
    by (apply (bool_decide_unpack _); by vm_compute).
  destruct (strip_prefix (s_ "<attached: ") s) as [[|c t]|]; [done| |done].
  cbn [fmap option_fmap option_map app]. destruct (dot c); [|done].
  rewrite scan_file_snoc. by destruct (scan_file t) as [[f post]|].
Qed.

Lemma first_marker_from_snoc pre s :
  first_marker_from pre (s ++ [nl])
  = (λ m : str * str * str, (m.1, m.2 ++ [nl])) <$> first_marker_from pre s.
Proof.
  revert pre. induction s as [|c s IH]; intros pre; [done|].
  change ((c :: s) ++ [nl]) with (c :: (s ++ [nl])).
  cbn [first_marker_from].
  change (c :: (s ++ [nl])) with ((c :: s) ++ [nl]).
  rewrite marker_at_snoc.
  destruct (marker_at (c :: s)) as [[f post]|]; [done|]. apply IH.
Qed.

(** X8. [replace_attachment] leaves the line break at the end of a line
    where it is: the result on a line with its line break is the result
    on the line without it, and then the line break. *)
Theorem replace_attachment_line_end s :
  replace_attachment (s ++ [nl]) = replace_attachment s ++ [nl].
Proof.
  rewrite !replace_attachment_unfold. unfold first_marker.
  rewrite first_marker_from_snoc.
  destruct (first_marker_from [] s) as [[[pre file] post]|] eqn:Hf; [|done].
  cbn [fmap option_fmap option_map fst snd].
  apply first_marker_Some in Hf as (_ & Hat & _).
  apply marker_at_Some in Hat as (_ & _ & Hnl & _).
  apply replace_from_snoc; [by apply marker_line_break|done|lia].
Qed.
End LineBreakFacts.

Section ParseLineResult.
Context `{DateParser}.
Import PyStr Re.

(** X6. In a tuple returned by [ParseLine] the sender is not empty and
    has no colon, and the body has no line break. *)
Theorem ParseLine_sender_and_body line d u b :
  ParseLine line = Return (Some (d, u, b)) →
  u ≠ [] ∧ (":"%char ∉ u) ∧ (nl ∉ b).
Proof.
  intros (m & named & Hl & _ & -> & ->)%ParseLine_Some_match.
  apply line_match_layout in Hl. rewrite replace_attachment_line_break.
  destruct named.
  - destruct Hl as (head & sep & eol & _ & _ & _ & Hne & Hcolon & Hnl & _).
    done.
  - destruct Hl as (head & sep & eol & _ & _ & _ & Hnl & _).
    split; [done|]. split; [|done].
    apply (bool_decide_unpack _). by vm_compute.
Qed.
End ParseLineResult.

(** X6 at a line of an export. *)
Lemma ParseLine_sender_and_body_witness :
  s_ "Alice" ≠ [] ∧ (":"%char ∉ s_ "Alice") ∧ (PyStr.nl ∉ s_ "Hello").
Proof.
  apply (ParseLine_sender_and_body (H := text_dates)
           (s_ "1/2/20, 10:00 AM - Alice: Hello") (s_ "1/2/20 10:00 AM")).
  by vm_compute.
Defined.

(* ===================================================================== *)
(** * Further properties of IdentifyMessages                             *)
(* ===================================================================== *)

Section ReassemblerFacts.
Context `{DateParser}.
Import PyStr Re.
Implicit Types (line : str) (lines conts : list str) (st : reassembler_state).
Implicit Types (msg first : message datetime) (ms : list (message datetime)).

Lemma IdentifyMessages_step_start st line msg :
  ParseLine line = Return (Some msg) →
  IdentifyMessages_step st line
  = Return {| messages := state_messages st; in_progress := Some msg |}.
Proof.
  intros Hp. unfold IdentifyMessages_step, state_messages. rewrite Hp.
  destruct (in_progress st); simpl; by rewrite ?app_nil_r.
Qed.

Lemma IdentifyMessages_step_continuation st line d u b :
  ParseLine line = Return None → in_progress st = Some (d, u, b) →
  IdentifyMessages_step st line
  = Return {| messages := messages st;
              in_progress := Some (d, u, b ++ continuation line) |}.
Proof. intros Hp Hcur. unfold IdentifyMessages_step. by rewrite Hp, Hcur. Qed.

Lemma IdentifyMessages_state_messages lines :
  IdentifyMessages lines
  = st ← IdentifyMessages_loop {| messages := []; in_progress := None |} lines;
    Return (state_messages st).
Proof.
  unfold IdentifyMessages.
  destruct (IdentifyMessages_loop _ lines) as [st|e]; [|done]. simpl.
  unfold state_messages. destruct (in_progress st); simpl; by rewrite ?app_nil_r.
Qed.

Lemma IdentifyMessages_loop_app st l1 l2 :
  IdentifyMessages_loop st (l1 ++ l2)
  = st1 ← IdentifyMessages_loop st l1; IdentifyMessages_loop st1 l2.
Proof.
  revert st. induction l1 as [|line l1 IH]; intros st; [done|]. simpl.
  destruct (IdentifyMessages_step st line) as [st1|e]; [|done]. apply IH.
Qed.

(** The messages emitted before do not influence the loop. *)
Lemma IdentifyMessages_loop_prefix pre ms ip lines :
  IdentifyMessages_loop {| messages := pre ++ ms; in_progress := ip |} lines
  = st ← IdentifyMessages_loop {| messages := ms; in_progress := ip |} lines;
    Return {| messages := pre ++ messages st; in_progress := in_progress st |}.
Proof.
  revert ms ip. induction lines as [|line lines IH]; intros ms ip; [done|].
  cbn [IdentifyMessages_loop]. unfold IdentifyMessages_step.
  destruct (ParseLine line) as [[m|]|e]; simpl; [| |done].
  - destruct ip as [cur|]; [|apply IH]. rewrite <- app_assoc. apply IH.
  - destruct ip as [[[d u] b]|]; [|done]. apply IH.
Qed.

Lemma IdentifyMessages_loop_continuations ms d u b conts :
  Forall (λ line, ParseLine line = Return None) conts →
  IdentifyMessages_loop {| messages := ms; in_progress := Some (d, u, b) |}
    conts
  = Return {| messages := ms;
              in_progress :=
                Some (d, u, b ++ concat (continuation <$> conts)) |}.
Proof.
  intros Hconts. revert b.
  induction Hconts as [|line conts Hline _ IH]; intros b.
  - simpl. by rewrite app_nil_r.
  - cbn [IdentifyMessages_loop].
    rewrite (IdentifyMessages_step_continuation _ line d u b) by done.
    cbn [mbind result_bind]. rewrite IH. cbn [fmap list_fmap concat].
    by rewrite <- app_assoc.
Qed.

(** X9. A file can be cut in front of any line on which [ParseLine] does
    not return [None]: the messages of the file are the messages of the
    part before the cut and then those of the part behind it, and an
    exception of the first part, or else of the second, is the exception
    of the file. *)
Theorem IdentifyMessages_cut_at_start l1 line l2 :
  ParseLine line ≠ Return None →
  IdentifyMessages (l1 ++ line :: l2)
  = a ← IdentifyMessages l1; b ← IdentifyMessages (line :: l2); Return (a ++ b).
Proof.
  intros Hp. rewrite !IdentifyMessages_state_messages, IdentifyMessages_loop_app.
  destruct (IdentifyMessages_loop _ l1) as [st1|e]; [|done].
  cbn [mbind result_bind IdentifyMessages_loop].
  destruct (ParseLine line) as [[m|]|e] eqn:Hline; [|done|].
  - rewrite !(IdentifyMessages_step_start _ _ _ Hline).
    cbn [mbind result_bind].
    change (state_messages {| messages := []; in_progress := None |})
      with (@nil (message datetime)).
    rewrite <- (app_nil_r (state_messages st1)) at 1.
    rewrite IdentifyMessages_loop_prefix.
    destruct (IdentifyMessages_loop _ l2) as [st2|e]; [|done]. simpl.
    unfold state_messages at 1. simpl. by rewrite <- app_assoc.
  - unfold IdentifyMessages_step. rewrite Hline. done.
Qed.

(** X10. A line that [ParseLine] gives a tuple for, followed by lines for
    which it returns [None], makes one message: the date and the sender
    of the first line, and its body followed, for every further line, by
    a line break and the line stripped of the white space at its ends. *)
Theorem IdentifyMessages_one_message line conts d u b :
  ParseLine line = Return (Some (d, u, b)) →
  Forall (λ l, ParseLine l = Return None) conts →
  IdentifyMessages (line :: conts)
  = Return [(d, u, b ++ concat ((λ l, [nl] ++ strip l) <$> conts))].
Proof.
  intros Hline Hconts. rewrite IdentifyMessages_state_messages.
  cbn [IdentifyMessages_loop].
  rewrite (IdentifyMessages_step_start _ _ _ Hline).
  cbn [mbind result_bind].
  by rewrite (IdentifyMessages_loop_continuations _ _ _ _ _ Hconts).
Qed.

(** ** The messages and the lines they start at *)

Lemma message_starts_cons line lines :
  message_starts (line :: lines)
  = (if ParseLine line is Return (Some m) then [m] else []) ++
    message_starts lines.
Proof.
  unfold message_starts. cbn [omap list_omap].
  by destruct (ParseLine line) as [[m|]|e].
Qed.

Lemma grown_from_refl msg : grown_from msg msg.
Proof. by split. Qed.

Lemma IdentifyMessages_loop_starts st lines st' firsts :
  IdentifyMessages_loop st lines = Return st' →
  Forall2 grown_from (state_messages st) firsts →
  Forall2 grown_from (state_messages st') (firsts ++ message_starts lines).
Proof.
  revert st firsts. induction lines as [|line lines IH]; intros st firsts.
  - intros [= <-] Hst. unfold message_starts. simpl. by rewrite app_nil_r.
  - cbn [IdentifyMessages_loop].
    intros (st1 & Hstep & Hloop)%bind_Return_inv Hst.
    rewrite message_starts_cons.
    destruct (ParseLine line) as [[m|]|e] eqn:Hline.
    + rewrite (IdentifyMessages_step_start _ _ _ Hline) in Hstep.
      injection Hstep as <-. rewrite (assoc_L (++)).
      apply (IH _ _ Hloop). unfold state_messages at 1. simpl.
      apply Forall2_app; [done|].
      constructor; [apply grown_from_refl|constructor].
    + simpl. apply (IH _ _ Hloop). clear IH Hloop.
      unfold IdentifyMessages_step in Hstep. rewrite Hline in Hstep.
      simpl in Hstep. unfold state_messages in *.
      destruct (in_progress st) as [[[d u] b]|]; [|done].
      injection Hstep as <-. simpl in *.
      apply Forall2_app_inv_l in Hst as (fs & f & Hfs & Hf & ->).
      apply Forall2_cons_inv_l in Hf as (f1 & f' & [Hd Hb] & Hnil & ->).
      apply Forall2_nil_inv_l in Hnil as ->.
      apply Forall2_app; [done|].
      constructor; [|constructor]. split; [done|].
      simpl in *. by apply prefix_app_r.
    + unfold IdentifyMessages_step in Hstep. by rewrite Hline in Hstep.
Qed.

(** X11. The messages that [IdentifyMessages] returns are, in file
    order, one for each line that [ParseLine] gives a tuple for: a
    message has the date and the sender of that tuple, and its body
    starts with the body of that tuple. *)
Theorem IdentifyMessages_message_starts lines msgs :
  IdentifyMessages lines = Return msgs →
  Forall2 (λ msg first, msg.1 = first.1 ∧ first.2 `prefix_of` msg.2)
    msgs (message_starts lines).
Proof.
  rewrite IdentifyMessages_state_messages.
  intros (st & Hloop & [= <-])%bind_Return_inv.
  by apply (IdentifyMessages_loop_starts _ _ _ [] Hloop).
Qed.

(** ** When [IdentifyMessages] returns, and what it raises *)

Lemma IdentifyMessages_loop_returns st lines :
  is_Some (in_progress st) →
  Forall (λ line, ∃ r, ParseLine line = Return r) lines →
  ∃ st', IdentifyMessages_loop st lines = Return st'.
Proof.
  intros Hst Hlines. revert st Hst.
  induction Hlines as [|line lines [r Hline] _ IH]; intros st Hst;
    [by eexists|].
  cbn [IdentifyMessages_loop]. unfold IdentifyMessages_step. rewrite Hline.
  destruct r as [m|]; simpl; [by apply IH|].
  destruct Hst as [[[d u] b] ->]. by apply IH.
Qed.

Lemma IdentifyMessages_loop_Return_lines st lines st' :
  IdentifyMessages_loop st lines = Return st' →
  Forall (λ line, ∃ r, ParseLine line = Return r) lines ∧
  (in_progress st = None →
   ∀ line, head lines = Some line → ParseLine line ≠ Return None).
Proof.
  revert st. induction lines as [|line lines IH]; intros st; [done|].
  cbn [IdentifyMessages_loop].
  intros (st1 & Hstep & Hloop)%bind_Return_inv.
  apply IH in Hloop as [Hlines _]. unfold IdentifyMessages_step in Hstep.
  destruct (ParseLine line) as [[m|]|e] eqn:Hline; [| |done].
  - split; [constructor; eauto|]. intros _ l [= <-]. by rewrite Hline.
  - split; [constructor; eauto|]. intros Hnone. rewrite Hnone in Hstep. done.
Qed.

(** From the start, the loop returns when [ParseLine] returns on all
    lines, and a tuple on the first. *)
Lemma IdentifyMessages_loop_returns_init lines :
  Forall (λ line, ∃ r, ParseLine line = Return r) lines →
  (∀ line, head lines = Some line → ParseLine line ≠ Return None) →
  ∃ st, IdentifyMessages_loop {| messages := []; in_progress := None |} lines
        = Return st.
Proof.
  intros Hlines Hhead. destruct lines as [|line lines]; [by eexists|].
  apply Forall_cons in Hlines as [[r Hline] Hlines].
  destruct r as [m|]; [|by destruct (Hhead line)].
  cbn [IdentifyMessages_loop].
  rewrite (IdentifyMessages_step_start _ _ _ Hline).
  cbn [mbind result_bind].
  by apply IdentifyMessages_loop_returns.
Qed.

(** X12. [IdentifyMessages] returns a list exactly when [ParseLine]
    raises on no line and returns a tuple on the first line, if there is
    one. *)
Theorem IdentifyMessages_returns_iff lines :
  (∃ msgs, IdentifyMessages lines = Return msgs) ↔
  Forall (λ line, ∃ r, ParseLine line = Return r) lines ∧
  (∀ line, head lines = Some line → ParseLine line ≠ Return None).
Proof.
  rewrite IdentifyMessages_state_messages. split.
  - intros [msgs (st & Hloop & _)%bind_Return_inv].
    apply IdentifyMessages_loop_Return_lines in Hloop as [Hlines Hhead].
    split; [done|]. by apply Hhead.
  - intros [Hlines Hhead].
    destruct (IdentifyMessages_loop_returns_init lines) as [st ->];
      [done..|].
    by eexists.
Qed.


(** An exception of the loop is the [Error] for a first line without
    match, or what [ParseLine] raises on a line. *)
Lemma IdentifyMessages_loop_Raise st lines e :
  IdentifyMessages_loop st lines = Raise e →
  (in_progress st = None ∧
   ∃ line lines',
     lines = line :: lines' ∧ ParseLine line = Return None ∧
     e = Error (first_line_error line)) ∨
  (∃ l1 line l2,
     lines = l1 ++ line :: l2 ∧ ParseLine line = Raise e ∧
     Forall (λ l, ∃ r, ParseLine l = Return r) l1 ∧
     (in_progress st = None →
      ∀ l, head l1 = Some l → ParseLine l ≠ Return None)).
Proof.
  revert st. induction lines as [|line lines IH]; intros st; [done|].
  cbn [IdentifyMessages_loop].
  intros [Hstep|(st1 & Hstep & Hloop)]%bind_Raise_inv.
  - unfold IdentifyMessages_step in Hstep.
    destruct (ParseLine line) as [[m|]|e'] eqn:Hline; [done| |].
    + destruct (in_progress st) as [[[d u] b]|] eqn:Hcur; [done|].
      injection Hstep as <-. left. split; [done|]. by exists line, lines.
    + injection Hstep as ->. right. exists [], line, lines.
      split; [done|]. split; [done|]. by split.
  - pose proof (IdentifyMessages_step_Return _ _ _ Hstep) as [Hsome _].
    apply IH in Hloop
      as [[Hnone _]|(l1 & line' & l2 & -> & Hline' & Hl1 & _)].
    { rewrite Hnone in Hsome. by destruct Hsome. }
    right. exists (line :: l1), line', l2.
    split; [done|]. split; [done|].
    unfold IdentifyMessages_step in Hstep.
    destruct (ParseLine line) as [[m|]|e'] eqn:Hline; [| |done].
    + split; [constructor; eauto|]. intros _ l [= <-]. by rewrite Hline.
    + split; [constructor; eauto|]. intros Hnone. by rewrite Hnone in Hstep.
Qed.

(** X13. [IdentifyMessages] raises in two cases only.  It raises [Error],
    with the message of line 93, when [ParseLine] returns [None] on the
    first line.  It raises what [ParseLine] raises on a line, when
    [ParseLine] returns on all lines before that one and returns a tuple
    on the first of them: an exception of [dateutil] is passed on as it
    is. *)
Theorem IdentifyMessages_raises_iff lines e :
  IdentifyMessages lines = Raise e ↔
  (∃ line lines',
     lines = line :: lines' ∧ ParseLine line = Return None ∧
     e = Error (first_line_error line)) ∨
  (∃ l1 line l2,
     lines = l1 ++ line :: l2 ∧ ParseLine line = Raise e ∧
     Forall (λ l, ∃ r, ParseLine l = Return r) l1 ∧
     (∀ l, head l1 = Some l → ParseLine l ≠ Return None)).
Proof.
  rewrite IdentifyMessages_state_messages. split.
  - intros [Hloop|(st & _ & [=])]%bind_Raise_inv.
    apply IdentifyMessages_loop_Raise in Hloop
      as [[_ Hfirst]|(l1 & line & l2 & -> & Hline & Hl1 & Hhead)];
      [by left|].
    right. exists l1, line, l2. split; [done|]. split; [done|].
    split; [done|]. by apply Hhead.
  - intros [(line & lines' & -> & Hline & ->)
           |(l1 & line & l2 & -> & Hline & Hl1 & Hhead)].
    + cbn [IdentifyMessages_loop]. unfold IdentifyMessages_step.
      by rewrite Hline.
    + rewrite IdentifyMessages_loop_app.
      destruct (IdentifyMessages_loop_returns_init l1) as [st ->];
        [done..|].
      cbn [mbind result_bind IdentifyMessages_loop].
      unfold IdentifyMessages_step. by rewrite Hline.
Qed.
End ReassemblerFacts.

(** X9 at a file of two messages, cut in front of the second. *)
Lemma IdentifyMessages_cut_at_start_witness :
  IdentifyMessages (H := text_dates)
    ([s_ "1/2/20, 10:00 AM - Alice: Hello"; s_ "World"] ++
     s_ "[1.2.20 10:01:12] Bob: Hi" :: [s_ "there"])
  = a ← IdentifyMessages (H := text_dates)
          [s_ "1/2/20, 10:00 AM - Alice: Hello"; s_ "World"];
    b ← IdentifyMessages (H := text_dates)
          (s_ "[1.2.20 10:01:12] Bob: Hi" :: [s_ "there"]);
    Return (a ++ b).
Proof.
  apply (IdentifyMessages_cut_at_start (H := text_dates)).
  by vm_compute.
Defined.

(** X10 at a message of three lines. *)
Lemma IdentifyMessages_one_message_witness :
  IdentifyMessages (H := text_dates)
    (s_ "1/2/20, 10:00 AM - Alice: Hello" :: [s_ "  big "; s_ "World"])
  = Return [(s_ "1/2/20 10:00 AM", s_ "Alice",
             s_ "Hello" ++
             concat ((λ l, [PyStr.nl] ++ PyStr.strip l) <$>
                     [s_ "  big "; s_ "World"]))].
Proof.
  apply (IdentifyMessages_one_message (H := text_dates)).
  - by vm_compute.
  - repeat constructor.
Defined.

(** X11 at a file of two messages. *)
Lemma IdentifyMessages_message_starts_witness :
  Forall2 (λ msg first : message str,
             msg.1 = first.1 ∧ first.2 `prefix_of` msg.2)
    [(s_ "1/2/20 10:00 AM", s_ "Alice", s_ "Hello" ++ [PyStr.nl] ++ s_ "World");
     (s_ "1.2.20 10:01:12", s_ "Bob", s_ "Hi")]
    (message_starts (H := text_dates)
       [s_ "1/2/20, 10:00 AM - Alice: Hello"; s_ "World";
        s_ "[1.2.20 10:01:12] Bob: Hi"]).
Proof.
  apply (IdentifyMessages_message_starts (H := text_dates)).
  by vm_compute.
Defined.

(* ===================================================================== *)
(** * Further properties of TemplateData                                 *)
(* ===================================================================== *)

Section IndexRange.
Context {datetime : Type} `{OsPath}.
Implicit Types (msgs : list (message datetime)) (us : list str).

Lemma index_range_init : index_range (∅, 1).
Proof.
  split; [|split; [|split]]; simpl.
  - done.
  - intros u n. by rewrite lookup_empty.
  - intros n. lia.
  - intros u v n. by rewrite lookup_empty.
Qed.

Lemma index_range_assign p u : index_range p → index_range (assign p u).
Proof.
  intros (Hpos & Hlt & Hall & Hinj). unfold assign.
  destruct (p.1 !! u) as [k|] eqn:Hu; [done|].
  split; [|split; [|split]]; simpl.
  - lia.
  - intros v n. destruct (decide (v = u)) as [->|Hne].
    + rewrite lookup_insert_eq. intros [= <-]. lia.
    + rewrite lookup_insert_ne by done. intros Hv%Hlt. lia.
  - intros n Hn. destruct (decide (n = p.2)) as [->|Hne].
    + exists u. by rewrite lookup_insert_eq.
    + destruct (Hall n) as [v Hv]; [lia|]. exists v.
      rewrite lookup_insert_ne; [done|]. intros <-. congruence.
  - intros v w n.
    destruct (decide (v = u)) as [->|Hv], (decide (w = u)) as [->|Hw];
      [done|..].
    + rewrite lookup_insert_eq, lookup_insert_ne by done.
      intros [= <-] Hw'%Hlt. lia.
    + rewrite lookup_insert_eq, lookup_insert_ne by done.
      intros Hv'%Hlt [= <-]. lia.
    + rewrite !lookup_insert_ne by done. apply Hinj.
Qed.

Lemma index_range_loop p us :
  index_range p → index_range (foldl assign p us).
Proof.
  revert p. induction us as [|u us IH]; intros p Hp; [done|].
  simpl. by apply IH, index_range_assign.
Qed.

(** The finished loop of [TemplateData], as a loop over the senders. *)
Lemma TemplateData_index_of msgs fn :
  (user_idx (TemplateData msgs fn),
   S (size (list_to_set (sender <$> msgs) : gset str)))
  = foldl assign (∅, 1) (sender <$> msgs).
Proof.
  pose proof (index_inv_loop [] (∅, 1) (sender <$> msgs) index_inv_init)
    as [_ Hnext]. simpl in Hnext.
  rewrite <- Hnext, <- (assign_groupby sender).
  change (∅, 1) with (index_of (datetime:=datetime) TemplateData_init).
  rewrite <- TemplateData_loop_assign. unfold TemplateData, index_of. simpl.
  by destruct (foldl TemplateData_step _ _).
Qed.

(** X14. [user_idx] numbers the senders of the messages: its keys are
    the senders, different senders have different indices, and the
    indices in use are the numbers from 1 to the number of senders. *)
Theorem TemplateData_user_idx_bijection msgs fn :
  dom (user_idx (TemplateData msgs fn))
  = (list_to_set (sender <$> msgs) : gset str) ∧
  (∀ u v n, user_idx (TemplateData msgs fn) !! u = Some n →
            user_idx (TemplateData msgs fn) !! v = Some n → u = v) ∧
  (∀ n, (∃ u, user_idx (TemplateData msgs fn) !! u = Some n) ↔
        1 ≤ n ≤ size (list_to_set (sender <$> msgs) : gset str)).
Proof.
  pose proof (index_range_loop (∅, 1) (sender <$> msgs) index_range_init)
    as (_ & Hlt & Hall & Hinj).
  rewrite <- (TemplateData_index_of msgs fn) in Hlt, Hall, Hinj.
  cbn [fst snd] in Hlt, Hall, Hinj.
  split; [|split; [done|]].
  - apply set_eq. intros u.
    rewrite elem_of_dom, elem_of_list_to_set. unfold is_Some.
    setoid_rewrite (TemplateData_index_inv msgs fn). split.
    + intros [n Hn]. by eapply nth_distinct_elem.
    + apply nth_distinct_exists.
  - intros n. split.
    + intros [u Hu%Hlt]. lia.
    + intros Hn. apply Hall. lia.
Qed.
End IndexRange.

(* ===================================================================== *)
(** * Further properties of FormatHTML and of main                       *)
(* ===================================================================== *)

Section PageFacts.
Context `{DateParser} `{OsPath} `{DictAttributes}.
Import PyStr Re Template.
Implicit Types (idx : gmap str nat) (run : str * list (message datetime)).
Implicit Types (runs : list (str * list (message datetime))).

(** The text of the template around a message and around a date. *)
Lemma tmpl_message_text :
  ∃ ws, tmpl_message = ws ++ py "<div style=`margin-left: 20px`>".
Proof. exists (take 17 tmpl_message). vm_compute. reflexivity. Qed.

Lemma tmpl_message_end_text :
  ∃ ws, tmpl_message_end = py "</div><br>" ++ ws.
Proof. exists (drop 10 tmpl_message_end). vm_compute. reflexivity. Qed.



#[local] Opaque tmpl_title tmpl_style tmpl_container tmpl_chatbox
  tmpl_username tmpl_date tmpl_messages tmpl_message tmpl_message_end
  tmpl_chatbox_end tmpl_end.



Lemma concat_elem_block {A B} (f : A → list B) (l : list A) x :
  x ∈ l → ∃ before behind, concat (f <$> l) = before ++ f x ++ behind.
Proof.
  intros (l1 & l2 & ->)%list_elem_of_split.
  exists (concat (f <$> l1)), (concat (f <$> l2)).
  by rewrite fmap_app, concat_app.
Qed.

(** The block of a run of a rendered page. *)
Lemma FormatHTML_block (data : template_data datetime) html user msgs :
  FormatHTML data = Return html → (user, msgs) ∈ by_user data →
  ∃ m msgs' before behind,
    msgs = m :: msgs' ∧
    html = before ++
           tmpl_date ++ datetime_str m.1.1 ++
           tmpl_messages ++ concat (render_message <$> msgs) ++ behind.
Proof.
  intros (blocks & Hblocks & ->)%FormatHTML_Return Hrun.
  destruct (render_runs_block _ _ _ _ Hblocks Hrun)
    as (block & before & behind & Hblock & ->).
  apply render_run_Return in Hblock as (m & msgs' & -> & ->).
  exists m, msgs'.
  exists (tmpl_title ++ input_basename data ++ tmpl_style ++
          input_basename data ++ tmpl_container ++ before ++
          tmpl_chatbox ++ render_user_idx (user_idx data) user ++
          tmpl_username ++ user),
         (tmpl_chatbox_end ++ behind ++ tmpl_end).
  split; [done|].
  generalize tmpl_title tmpl_style tmpl_container tmpl_chatbox tmpl_username
    tmpl_date tmpl_messages tmpl_chatbox_end tmpl_end
    (concat (render_message <$> m :: msgs')).
  intros. by rewrite <- !app_assoc.
Qed.

(** X17. The page shows the body of every message of every run as it
    is, between [<div style="margin-left: 20px">] and [</div><br>]:
    nothing in it is escaped. *)
Theorem FormatHTML_body_verbatim (data : template_data datetime)
    html user msgs m :
  FormatHTML data = Return html →
  (user, msgs) ∈ by_user data → m ∈ msgs →
  ∃ before behind,
    html = before ++ py "<div style=`margin-left: 20px`>" ++ m.2 ++
           py "</div><br>" ++ behind.
Proof.
  intros Hhtml Hrun Hm.
  destruct (FormatHTML_block _ _ _ _ Hhtml Hrun)
    as (m0 & msgs' & before & behind & _ & ->).
  destruct (concat_elem_block render_message msgs m Hm)
    as (before' & behind' & ->).
  unfold render_message.
  destruct tmpl_message_text as [ws1 ->].
  destruct tmpl_message_end_text as [ws2 ->].
  exists (before ++ tmpl_date ++ datetime_str m0.1.1 ++ tmpl_messages ++
          before' ++ ws1),
         (ws2 ++ behind' ++ behind).
  generalize (py "<div style=`margin-left: 20px`>") (py "</div><br>")
    tmpl_date tmpl_messages.
  intros. by rewrite <- !app_assoc.
Qed.


End PageFacts.

(** X17 at a page of one message whose body is markup. *)
Lemma FormatHTML_body_verbatim_witness :
  ∃ before behind,
    Template.tmpl_title ++ s_ "chat.txt" ++ Template.tmpl_style ++
    s_ "chat.txt" ++ Template.tmpl_container ++
    (Template.tmpl_chatbox ++ s_ "1" ++ Template.tmpl_username ++
     s_ "Alice" ++ Template.tmpl_date ++ s_ "1/2/20 10:00" ++
     Template.tmpl_messages ++
     (Template.tmpl_message ++ s_ "<b>Hello</b> & bye" ++
      Template.tmpl_message_end) ++
     Template.tmpl_chatbox_end) ++ Template.tmpl_end
    = before ++ py "<div style=`margin-left: 20px`>" ++
      s_ "<b>Hello</b> & bye" ++ py "</div><br>" ++ behind.
Proof.
  apply (FormatHTML_body_verbatim (H := text_dates)
           (TemplateData [(s_ "1/2/20 10:00", s_ "Alice",
                           s_ "<b>Hello</b> & bye")] (s_ "logs/chat.txt"))
           _ (s_ "Alice")
           [(s_ "1/2/20 10:00", s_ "Alice", s_ "<b>Hello</b> & bye")]
           (s_ "1/2/20 10:00", s_ "Alice", s_ "<b>Hello</b> & bye")).
  - vm_compute. reflexivity.
  - vm_compute. left.
  - left.
Defined.


(* ===================================================================== *)
(** * Further properties: which layout the patterns take                 *)
(* ===================================================================== *)

Section MatcherOrder.
Import PyStr Re.
Context {R : Type}.
Implicit Types (k : str → captures → option R) (s w rest : str).

(** A failed greedy repetition has failed behind every run. *)
Lemma greedy_None p s (kk : str → option R) w rest :
  greedy p s kk = None → s = w ++ rest → Forall (λ c, p c = true) w →
  kk rest = None.
Proof.
  revert w. induction s as [|c s IH]; intros w Hg Hs Hw.
  - symmetry in Hs. apply app_eq_nil in Hs as [-> ->]. done.
  - cbn [greedy] in Hg. destruct w as [|c' w].
    + simpl in Hs. subst rest. destruct (p c); [|done].
      by destruct (greedy p s kk).
    + injection Hs as <- Hs. apply Forall_cons in Hw as [Hc Hw].
      rewrite Hc in Hg. destruct (greedy p s kk) eqn:Hg'; [done|].
      by apply (IH w).
Qed.

(** A greedy repetition takes the longest run behind which the rest of
    the pattern matches. *)
Lemma greedy_first p s (kk : str → option R) x :
  greedy p s kk = Some x →
  ∃ w rest,
    s = w ++ rest ∧ Forall (λ c, p c = true) w ∧ kk rest = Some x ∧
    ∀ w' rest', s = w' ++ rest' → Forall (λ c, p c = true) w' →
                length w < length w' → kk rest' = None.
Proof.
  revert x. induction s as [|c s IH]; intros x; cbn [greedy].
  - intros Hk. exists [], []. split; [done|]. split; [done|]. split; [done|].
    intros w' rest' Hs _ Hlen. symmetry in Hs.
    apply app_eq_nil in Hs as [-> _]. simpl in Hlen. lia.
  - destruct (p c) eqn:Hc.
    + destruct (greedy p s kk) as [y|] eqn:Hg.
      * intros [= ->].
        destruct (IH _ eq_refl) as (w & rest & -> & Hw & Hk & Hfirst).
        exists (c :: w), rest. split; [done|]. split; [by constructor|].
        split; [done|]. intros w' rest' Hs Hw' Hlen.
        destruct w' as [|c' w']; [simpl in Hlen; lia|].
        injection Hs as <- Hs. apply Forall_cons in Hw' as [_ Hw'].
        apply (Hfirst w' rest' Hs Hw'). simpl in Hlen. lia.
      * intros Hk. exists [], (c :: s). split; [done|]. split; [done|].
        split; [done|]. intros w' rest' Hs Hw' Hlen.
        destruct w' as [|c' w']; [simpl in Hlen; lia|].
        injection Hs as <- Hs. apply Forall_cons in Hw' as [_ Hw'].
        by apply (greedy_None p s kk w').
    + intros Hk. exists [], (c :: s). split; [done|]. split; [done|].
      split; [done|]. intros w' rest' Hs Hw' Hlen.
      destruct w' as [|c' w']; [simpl in Hlen; lia|].
      injection Hs as <- Hs. apply Forall_cons in Hw' as [Hc' _]. congruence.
Qed.

(** A failed match has failed behind every text that the pattern
    accepts. *)
Lemma rmatch_None r w rest caps0 caps1 caps k :
  rmatch r (w ++ rest) caps k = None → matches r w rest caps0 caps1 →
  ¬ ∀ caps', is_Some (k rest caps').
Proof.
  intros Hnone Hm Hk.
  destruct (rmatch_complete _ _ _ _ _ _ Hm Hk caps) as [x Hx]. congruence.
Qed.
End MatcherOrder.

Section SeparatorOrder.
Import PyStr Re.
Context {R : Type}.
Implicit Types (k : str → captures → option R) (s w rest sep cb : str).

(** The separators, by their first characters. *)
Lemma separator_head sep rest :
  sep ∈ [s_ " - "; s_ ": "; s_ " "] →
  ∃ c t, sep ++ rest = c :: t ∧ (c = " "%char ∨ c = ":"%char).
Proof.
  intros Hsep. set_unfold in Hsep.
  destruct Hsep as [->|[->|[->|[]]]]; eexists _, _; (split; [reflexivity|]);
    auto.
Qed.

(** [SEPARATOR_RE] takes the longest separator behind which the rest of
    the pattern matches. *)
Lemma SEPARATOR_RE_first k s c x :
  rmatch (compiled SEPARATOR_RE) s c k = Some x →
  ∃ sep rest,
    s = sep ++ rest ∧ sep ∈ [s_ " - "; s_ ": "; s_ " "] ∧
    k rest (("4"%string, sep) :: c) = Some x ∧
    ∀ sep' rest',
      s = sep' ++ rest' → sep' ∈ [s_ " - "; s_ ": "; s_ " "] →
      (∀ caps, is_Some (k rest' caps)) → length sep' ≤ length sep.
Proof.
  unfold SEPARATOR_RE. cbn [compiled rmatch].
  destruct (strip_prefix (s_ " - ") s) as [r1|] eqn:H1.
  - apply strip_prefix_Some in H1 as ->.
    destruct (k r1 _) as [y|] eqn:Hk1.
    + intros [= ->]. exists (s_ " - "), r1. split; [done|].
      split; [set_solver|]. rewrite take_app_suffix in Hk1.
      split; [done|]. intros sep' rest' _ Hsep' _. set_unfold in Hsep'.
      destruct Hsep' as [->|[->|[->|[]]]]; simpl; lia.
    + (* [" - "] failed behind it; [": "] does not start here *)
      change (strip_prefix (s_ ": ") (s_ " - " ++ r1)) with (@None str).
      cbn [strip_prefix]. change (s_ " - " ++ r1) with (s_ " " ++ (s_ "- " ++ r1)).
      rewrite strip_prefix_app.
      intros Hk. exists (s_ " "), (s_ "- " ++ r1). split; [done|].
      split; [set_solver|]. rewrite take_app_suffix in Hk. split; [done|].
      intros sep' rest' Hs Hsep' Hok. set_unfold in Hsep'.
      destruct Hsep' as [->|[->|[->|[]]]]; [|done|simpl; lia].
      injection Hs as <-. destruct (Hok (("4"%string,
        take (length (s_ " - " ++ r1) - length r1) (s_ " - " ++ r1)) :: c))
        as [y Hy]. congruence.
  - destruct (strip_prefix (s_ ": ") s) as [r2|] eqn:H2.
    + apply strip_prefix_Some in H2 as ->.
      destruct (k r2 _) as [y|] eqn:Hk2.
      * intros [= ->]. exists (s_ ": "), r2. split; [done|].
        split; [set_solver|]. rewrite take_app_suffix in Hk2.
        split; [done|]. intros sep' rest' Hs Hsep' _. set_unfold in Hsep'.
        destruct Hsep' as [->|[->|[->|[]]]]; [done|simpl; lia|done].
      * change (strip_prefix (s_ " ") (s_ ": " ++ r2)) with (@None str). done.
    + destruct (strip_prefix (s_ " ") s) as [r3|] eqn:H3; [|done].
      apply strip_prefix_Some in H3 as ->.
      intros Hk. exists (s_ " "), r3. split; [done|].
      split; [set_solver|]. rewrite take_app_suffix in Hk. split; [done|].
      intros sep' rest' Hs Hsep' Hok. set_unfold in Hsep'.
      destruct Hsep' as [->|[->|[->|[]]]]; [|done|simpl; lia].
      rewrite Hs, strip_prefix_app in H1. done.
Qed.
End SeparatorOrder.

Section BracketOrder.
Import PyStr Re.
Context {R : Type}.
Implicit Types (k : str → captures → option R) (s w rest sep cb : str).

(** The closing bracket and the separator: a text has the bracket or has
    it not, and the longest separator is taken. *)
Lemma bracket_separator_first k s c x :
  rmatch (Opt (Lit (s_ "]"))) s c
    (λ s5 c5, rmatch (compiled SEPARATOR_RE) s5 c5 k) = Some x →
  ∃ cb sep rest,
    s = cb ++ sep ++ rest ∧ cb ∈ [[]; s_ "]"] ∧
    sep ∈ [s_ " - "; s_ ": "; s_ " "] ∧
    k rest (("4"%string, sep) :: c) = Some x ∧
    ∀ cb' sep' rest',
      s = cb' ++ sep' ++ rest' → cb' ∈ [[]; s_ "]"] →
      sep' ∈ [s_ " - "; s_ ": "; s_ " "] →
      (∀ caps, is_Some (k rest' caps)) →
      length (cb' ++ sep') ≤ length (cb ++ sep).
Proof.
  cbn [rmatch].
  destruct (strip_prefix (s_ "]") s) as [s5|] eqn:Hb.
  - apply strip_prefix_Some in Hb as ->.
    destruct (rmatch (compiled SEPARATOR_RE) s5 c k) as [y|] eqn:Hsep.
    + intros [= ->].
      apply SEPARATOR_RE_first in Hsep as (sep & rest & -> & Hsep & Hk & Hfirst).
      exists (s_ "]"), sep, rest. split; [done|]. split; [set_solver|].
      split; [done|]. split; [done|].
      intros cb' sep' rest' Hs Hcb' Hsep' Hok. set_unfold in Hcb'.
      destruct Hcb' as [->|[->|[]]].
      * destruct (separator_head sep' rest' Hsep') as (c' & t & Ht & Hc').
        simpl in Hs. rewrite Ht in Hs. injection Hs as <- _.
        by destruct Hc'.
      * injection Hs as Hs. rewrite !length_app. simpl.
        pose proof (Hfirst sep' rest' Hs Hsep' Hok). lia.
    + (* no separator behind the bracket, and none at the bracket *)
      intros (sep & rest & Hs & Hsep' & _)%SEPARATOR_RE_first.
      destruct (separator_head sep rest Hsep') as (c' & t & Ht & Hc').
      rewrite Ht in Hs. injection Hs as <- _. by destruct Hc'.
  - intros (sep & rest & -> & Hsep & Hk & Hfirst)%SEPARATOR_RE_first.
    exists [], sep, rest. split; [done|]. split; [set_solver|].
    split; [done|]. split; [done|].
    intros cb' sep' rest' Hs Hcb' Hsep' Hok. set_unfold in Hcb'.
    destruct Hcb' as [->|[->|[]]].
    + simpl in *. by apply (Hfirst sep' rest').
    + assert (strip_prefix (s_ "]") (sep ++ rest) = Some (sep' ++ rest'))
        by (rewrite Hs; apply (strip_prefix_app (s_ "]"))).
      congruence.
Qed.

(** The rest of the pattern matches behind a bracket and a separator
    when it matches behind them. *)
Lemma bracket_separator_ok k cb sep rest c :
  cb ∈ [[]; s_ "]"] → sep ∈ [s_ " - "; s_ ": "; s_ " "] →
  (∀ caps, is_Some (k rest caps)) →
  is_Some (rmatch (Opt (Lit (s_ "]"))) (cb ++ sep ++ rest) c
             (λ s5 c5, rmatch (compiled SEPARATOR_RE) s5 c5 k)).
Proof.
  intros Hcb Hsep Hk.
  assert (matches (Cat (Opt (Lit (s_ "]"))) (compiled SEPARATOR_RE))
            (cb ++ sep) rest c (("4"%string, sep) :: c)) as Hm.
  { eapply matches_Cat; [by apply matches_Opt_Lit|].
    by apply matches_SEPARATOR_RE. }
  pose proof (rmatch_complete _ _ _ _ _ k Hm Hk c) as Hs.
  by rewrite <- app_assoc in Hs.
Qed.
End BracketOrder.

Section TimeOrder.
Import PyStr Re.
Context {R : Type}.
Implicit Types (k : str → captures → option R) (s w rest sep cb t ampm : str).

Lemma matches_AMPM_RE w rest c c' :
  matches AMPM_RE w rest c c' ↔
  w ∈ [s_ " AM"; s_ " PM"] ∧ c' = ("3"%string, w) :: c.
Proof.
  unfold AMPM_RE. split.
  - intros (c1 & Hm & ->)%matches_Group_inv.
    apply matches_Cat_inv in Hm as (w1 & w2 & c2 & -> & H1 & Hm).
    apply matches_Cat_inv in Hm as (w3 & w4 & c3 & -> & H3 & H4).
    apply matches_Lit_inv in H1 as [-> ->].
    apply matches_Lit_inv in H4 as [-> ->].
    apply matches_Class_inv in H3 as (a & -> & Ha & ->).
    split; [|done]. unfold one_of in Ha. apply bool_decide_eq_true in Ha.
    set_unfold in Ha. destruct Ha as [->|[->|[]]]; set_solver.
  - intros [Hw ->]. apply matches_Group. set_unfold in Hw.
    destruct Hw as [->|[->|[]]].
    + eapply (matches_Cat _ _ (s_ " ") (s_ "AM")); [apply matches_Lit|].
      eapply (matches_Cat _ _ (s_ "A") (s_ "M")); [|apply matches_Lit].
      by apply matches_Class.
    + eapply (matches_Cat _ _ (s_ " ") (s_ "PM")); [apply matches_Lit|].
      eapply (matches_Cat _ _ (s_ "P") (s_ "M")); [|apply matches_Lit].
      by apply matches_Class.
Qed.

Lemma TIME_RE_unfold k s c :
  rmatch (compiled TIME_RE) s c k
  = match s with
    | c0 :: s0 =>
        if time_char c0
        then greedy time_char s0
               (λ s1, rmatch (Opt AMPM_RE) s1 c
                        (λ s' c', k s' (("time"%string,
                                         take (length s - length s') s) :: c')))
        else None
    | [] => None
    end.
Proof. reflexivity. Qed.

Lemma rmatch_Opt_unfold r s c k :
  rmatch (Opt r) s c k
  = match rmatch r s c k with Some x => Some x | None => k s c end.
Proof. reflexivity. Qed.

(** A run of characters of a class that stops inside another run of it
    is followed by a character of the class. *)
Lemma run_shorter (p : ascii → bool) t t' X Y :
  Forall (λ c, p c = true) t → t' ++ X = t ++ Y → length t' < length t →
  ∃ c1 X', X = c1 :: X' ∧ p c1 = true.
Proof.
  intros Ht Heq Hlen.
  apply app_eq_inv in Heq as [(d & -> & ->)|(d & -> & ->)].
  - rewrite length_app in Hlen. lia.
  - destruct d as [|c1 d]; [rewrite app_nil_r in Hlen; lia|].
    apply Forall_app in Ht as [_ Ht]. apply Forall_cons in Ht as [Hc1 _].
    by exists c1, (d ++ Y).
Qed.

(** What follows the digits and colons of a time in a layout: if it
    opens with a digit or colon, it is the separator [: ]. *)
Lemma after_time_colon ampm cb sep rest c1 X :
  ampm ∈ [[]; s_ " AM"; s_ " PM"] → cb ∈ [[]; s_ "]"] →
  sep ∈ [s_ " - "; s_ ": "; s_ " "] →
  ampm ++ cb ++ sep ++ rest = c1 :: X → time_char c1 = true →
  ampm = [] ∧ cb = [] ∧ sep = s_ ": ".
Proof.
  intros Hampm Hcb Hsep Heq Hc1. set_unfold in Hampm. set_unfold in Hcb.
  set_unfold in Hsep.
  destruct Hampm as [->|[->|[->|[]]]];
    [|injection Heq as <- _; by vm_compute in Hc1..].
  destruct Hcb as [->|[->|[]]]; [|injection Heq as <- _; by vm_compute in Hc1].
  destruct Hsep as [->|[->|[->|[]]]]; [|done|];
    injection Heq as <- _; by vm_compute in Hc1.
Qed.

(** The rest of the pattern matches behind [ AM] or [ PM], a bracket
    and a separator when it matches behind them. *)
Lemma ampm_ok k ampm cb sep rest c (f : str → captures → captures) :
  ampm ∈ [[]; s_ " AM"; s_ " PM"] → cb ∈ [[]; s_ "]"] →
  sep ∈ [s_ " - "; s_ ": "; s_ " "] →
  (∀ caps, is_Some (k rest caps)) →
  is_Some (rmatch (Opt AMPM_RE) (ampm ++ cb ++ sep ++ rest) c
             (λ s' c', rmatch (Opt (Lit (s_ "]"))) s' (f s' c')
                         (λ s5 c5, rmatch (compiled SEPARATOR_RE) s5 c5 k))).
Proof.
  intros Hampm Hcb Hsep Hk.
  assert (∃ c', matches (Opt AMPM_RE) ampm (cb ++ sep ++ rest) c c')
    as [c' Hm].
  { set_unfold in Hampm. destruct Hampm as [->|Hampm].
    - eexists. apply matches_Opt_none.
    - eexists. apply matches_Opt_some, matches_AMPM_RE.
      split; [set_solver|done]. }
  apply (rmatch_complete _ _ _ _ _ _ Hm).
  intros caps. by apply bracket_separator_ok.
Qed.
End TimeOrder.

Section TimeFirst.
Import PyStr Re.
Context {R : Type}.
Implicit Types (k : str → captures → option R) (s w rest sep cb t ampm : str).

(** [TIME_RE] with what follows it up to the separator: of the layouts
    behind which the rest of the pattern matches, the one taken ends
    last, and among those that end there it has the longest time. *)
Lemma TIME_RE_first k s c x :
  rmatch (compiled TIME_RE) s c
    (λ s4 c4, rmatch (Opt (Lit (s_ "]"))) s4 c4
                (λ s5 c5, rmatch (compiled SEPARATOR_RE) s5 c5 k)) = Some x →
  ∃ time cb sep rest c4,
    s = time ++ cb ++ sep ++ rest ∧ time_text time ∧
    cb ∈ [[]; s_ "]"] ∧ sep ∈ [s_ " - "; s_ ": "; s_ " "] ∧
    (c4 = ("time"%string, time) :: c ∨
     ∃ a, c4 = ("time"%string, time) :: ("3"%string, a) :: c) ∧
    k rest (("4"%string, sep) :: c4) = Some x ∧
    ∀ time' cb' sep' rest',
      s = time' ++ cb' ++ sep' ++ rest' → time_text time' →
      cb' ∈ [[]; s_ "]"] → sep' ∈ [s_ " - "; s_ ": "; s_ " "] →
      (∀ caps, is_Some (k rest' caps)) →
      length (time' ++ cb' ++ sep') ≤ length (time ++ cb ++ sep) ∧
      (length (time' ++ cb' ++ sep') = length (time ++ cb ++ sep) →
       length time' ≤ length time).
Proof.
  rewrite TIME_RE_unfold. destruct s as [|c0 s0]; [done|].
  destruct (time_char c0) eqn:Hc0; [|done].
  intros (w & R0 & -> & Hw & HkR & Hlonger)%greedy_first.
  assert (Forall (λ c, time_char c = true) (c0 :: w)) as Ht by by constructor.
  rewrite rmatch_Opt_unfold in HkR.
  (* the alternatives with a longer or a shorter run of digits and colons *)
  assert (∀ t' ampm' cb' sep' rest',
            c0 :: w ++ R0 = (t' ++ ampm') ++ cb' ++ sep' ++ rest' →
            t' ≠ [] → Forall (λ c, time_char c = true) t' →
            ampm' ∈ [[]; s_ " AM"; s_ " PM"] → cb' ∈ [[]; s_ "]"] →
            sep' ∈ [s_ " - "; s_ ": "; s_ " "] →
            (∀ caps, is_Some (k rest' caps)) →
            (length t' < length (c0 :: w) ∧
             ampm' = [] ∧ cb' = [] ∧ sep' = s_ ": ") ∨
            (t' = c0 :: w ∧ R0 = ampm' ++ cb' ++ sep' ++ rest')) as Halt.
  { intros t' ampm' cb' sep' rest' Heq Hne' Ht' Hampm' Hcb' Hsep' Hok.
    rewrite <- app_assoc in Heq.
    destruct (decide (length t' < length (c0 :: w))) as [Hlt|Hge].
    - left. split; [done|].
      change (c0 :: w ++ R0) with ((c0 :: w) ++ R0) in Heq. symmetry in Heq.
      destruct (run_shorter _ _ _ _ _ Ht Heq Hlt) as (c1 & X & HX & Hc1).
      by apply (after_time_colon _ _ _ rest' c1 X).
    - right. destruct (decide (length t' = length (c0 :: w))) as [Hlen|Hne].
      { change (c0 :: w ++ R0) with ((c0 :: w) ++ R0) in Heq.
        symmetry in Heq. by apply app_inj_1 in Heq as [-> ->]. }
      exfalso. destruct t' as [|c0' w']; [done|].
      injection Heq as <- Heq. apply Forall_cons in Ht' as [_ Hw'].
      assert (length w < length w') as Hlen by (simpl in *; lia).
      pose proof (Hlonger w' _ Heq Hw' Hlen) as Hnone.
      cbv beta in Hnone.
      destruct (ampm_ok k ampm' cb' sep' rest' c
                  (λ s' c', ("time"%string,
                             take (length (c0 :: w ++ R0) - length s')
                               (c0 :: w ++ R0)) :: c')
                  Hampm' Hcb' Hsep' Hok) as [y Hy].
      congruence. }
  destruct (rmatch AMPM_RE R0 c _) as [y|] eqn:Hampm.
  - (* with [ AM] or [ PM] *)
    injection HkR as ->.
    apply rmatch_sound in Hampm as (wa & s4 & c' & -> & Hwa & Hk4).
    apply matches_AMPM_RE in Hwa as [Hwa ->].
    assert (take (length (c0 :: w ++ wa ++ s4) - length s4)
              (c0 :: w ++ wa ++ s4) = (c0 :: w) ++ wa) as Htake.
    { change (c0 :: w ++ wa ++ s4) with ((c0 :: w) ++ wa ++ s4).
      rewrite (app_assoc (c0 :: w) wa s4). apply take_app_suffix. }
    rewrite Htake in Hk4. clear Htake.
    apply bracket_separator_first in Hk4
      as (cb & sep & rest & -> & Hcb & Hsep & Hk & Hfirst).
    exists ((c0 :: w) ++ wa), cb, sep, rest. eexists.
    split; [by rewrite <- !app_assoc|].
    split; [exists (c0 :: w), wa; split; [done|]; split; [done|];
            split; [done|]; set_solver|].
    split; [done|]. split; [done|]. split; [right; by eexists|].
    split; [done|].
    intros time' cb' sep' rest' Heq (t' & ampm' & -> & Hne' & Ht' & Hampm')
      Hcb' Hsep' Hok.
    destruct (Halt t' ampm' cb' sep' rest' Heq Hne' Ht' Hampm' Hcb' Hsep' Hok)
      as [(Hlt & -> & -> & ->)|[-> HR]].
    + rewrite !length_app in *. simpl in *.
      assert (1 ≤ length sep)
        by (set_unfold in Hsep; destruct Hsep as [->|[->|[->|[]]]]; simpl; lia).
      lia.
    + set_unfold in Hampm'. destruct Hampm' as [->|Hampm'].
      * (* the alternative has no [ AM]: its separator is the blank *)
        simpl in HR.
        assert (cb' = [] ∧ sep' = s_ " ") as [-> ->].
        { set_unfold in Hwa. set_unfold in Hcb'. set_unfold in Hsep'.
          destruct Hcb' as [->|[->|[]]];
            [|destruct Hwa as [->|[->|[]]]; done].
          split; [done|].
          destruct Hsep' as [->|[->|[->|[]]]]; [|..|done];
            destruct Hwa as [->|[->|[]]]; done. }
        rewrite !length_app. simpl.
        assert (length wa = 3)
          by (set_unfold in Hwa; by destruct Hwa as [->|[->|[]]]).
        lia.
      * assert (ampm' = wa ∧ cb ++ sep ++ rest = cb' ++ sep' ++ rest')
          as [-> Hs4].
        { set_unfold in Hwa.
          destruct Hampm' as [->|[->|[]]], Hwa as [->|[->|[]]];
            by injection HR as <-. }
        pose proof (Hfirst _ sep' rest' Hs4 Hcb' Hsep' Hok) as Hle.
        rewrite !length_app in *. simpl in *. lia.
  - (* without [ AM] and [ PM] *)
    assert (take (length (c0 :: w ++ R0) - length R0) (c0 :: w ++ R0)
            = c0 :: w) as Htake by apply (take_app_suffix (c0 :: w) R0).
    rewrite Htake in HkR. clear Htake.
    apply bracket_separator_first in HkR
      as (cb & sep & rest & -> & Hcb & Hsep & Hk & Hfirst).
    exists (c0 :: w), cb, sep, rest. eexists.
    split; [done|].
    split; [exists (c0 :: w), []; rewrite app_nil_r; split; [done|];
            split; [done|]; split; [done|]; set_solver|].
    split; [done|]. split; [done|]. split; [by left|].
    split; [done|].
    intros time' cb' sep' rest' Heq (t' & ampm' & -> & Hne' & Ht' & Hampm')
      Hcb' Hsep' Hok.
    destruct (Halt t' ampm' cb' sep' rest' Heq Hne' Ht' Hampm' Hcb' Hsep' Hok)
      as [(Hlt & -> & -> & ->)|[-> HR]].
    + rewrite !length_app in *. simpl in *.
      assert (1 ≤ length sep)
        by (set_unfold in Hsep; destruct Hsep as [->|[->|[->|[]]]]; simpl; lia).
      lia.
    + set_unfold in Hampm'. destruct Hampm' as [->|Hampm'].
      * simpl in HR. pose proof (Hfirst _ sep' rest' HR Hcb' Hsep' Hok) as Hle.
        rewrite !length_app in *. simpl in *. lia.
      * (* [ AM] would have been taken *)
        exfalso. rewrite HR in Hampm.
        assert (matches AMPM_RE ampm' (cb' ++ sep' ++ rest') c
                  (("3"%string, ampm') :: c)) as Hm
          by (apply matches_AMPM_RE; split; [set_solver|done]).
        apply (rmatch_None _ _ _ _ _ _ _ Hampm Hm).
        intros caps. by apply bracket_separator_ok.
Qed.
End TimeFirst.

Section DatetimeFirst.
Import PyStr Re.
Context {R : Type}.
Implicit Types (k : str → captures → option R) (s w rest sep cb : str).
Implicit Types (date time head ob comma : str).

(** Two runs of characters of a class, each followed by a character
    outside the class, are the same run. *)
Lemma run_unique (p : ascii → bool) d d' A A' :
  Forall (λ c, p c = true) d → Forall (λ c, p c = true) d' →
  d ++ A = d' ++ A' →
  (∀ c t, A = c :: t → p c = false) → (∀ c t, A' = c :: t → p c = false) →
  d = d' ∧ A = A'.
Proof.
  intros Hd Hd' Heq HA HA'.
  apply app_eq_inv in Heq as [(e & -> & ->)|(e & -> & ->)].
  - destruct e as [|c e]; [by rewrite app_nil_r|].
    apply Forall_app in Hd as [_ He]. apply Forall_cons in He as [Hc _].
    rewrite (HA' c (e ++ A) eq_refl) in Hc. done.
  - destruct e as [|c e]; [by rewrite app_nil_r|].
    apply Forall_app in Hd' as [_ He]. apply Forall_cons in He as [Hc _].
    rewrite (HA c (e ++ A') eq_refl) in Hc. done.
Qed.

(** The bracket, the date and the comma of a layout are those of every
    layout of the line. *)
Lemma datetime_prefix_unique ob date comma X ob' date' comma' X' :
  ob ++ date ++ comma ++ s_ " " ++ X = ob' ++ date' ++ comma' ++ s_ " " ++ X' →
  ob ∈ [[]; s_ "["] → ob' ∈ [[]; s_ "["] →
  date_text date → date_text date' →
  comma ∈ [[]; s_ ","] → comma' ∈ [[]; s_ ","] →
  ob = ob' ∧ date = date' ∧ comma = comma' ∧ X = X'.
Proof.
  intros Heq Hob Hob' [Hne Hd] [Hne' Hd'] Hcomma Hcomma'.
  assert (ob = ob' ∧
          date ++ comma ++ s_ " " ++ X = date' ++ comma' ++ s_ " " ++ X')
    as [-> Heq'].
  { set_unfold in Hob. set_unfold in Hob'.
    destruct Hob as [->|[->|[]]], Hob' as [->|[->|[]]]; simpl in Heq.
    - done.
    - destruct date as [|c date]; [done|]. injection Heq as -> _.
      apply Forall_cons in Hd as [Hc _]. by vm_compute in Hc.
    - destruct date' as [|c date']; [done|]. injection Heq as <- _.
      apply Forall_cons in Hd' as [Hc _]. by vm_compute in Hc.
    - by injection Heq. }
  split; [done|].
  apply (run_unique date_char) in Heq' as [-> Heq']; [|done|done|..].
  - split; [done|]. set_unfold in Hcomma. set_unfold in Hcomma'.
    destruct Hcomma as [->|[->|[]]], Hcomma' as [->|[->|[]]];
      simpl in Heq'; by simplify_eq.
  - intros c t Hc. set_unfold in Hcomma.
    destruct Hcomma as [->|[->|[]]]; injection Hc as <- _; by vm_compute.
  - intros c t Hc. set_unfold in Hcomma'.
    destruct Hcomma' as [->|[->|[]]]; injection Hc as <- _; by vm_compute.
Qed.

Lemma DATETIME_RE_unfold (K : str → captures → option R) line c :
  rmatch (compiled DATETIME_RE) line c K
  = rmatch (Cat (Opt (Lit (s_ "[")))
              (Cat (compiled DATE_RE) (Cat (Opt (Lit (s_ ","))) (Lit (s_ " ")))))
      line c
      (λ s3 c3, rmatch (compiled TIME_RE) s3 c3
                  (λ s4 c4, rmatch (Opt (Lit (s_ "]"))) s4 c4 K)).
Proof. reflexivity. Qed.

(** [DATETIME_RE] and [SEPARATOR_RE]: of the layouts behind which the
    rest of the pattern matches, the one taken has the longest date and
    time with separator, and among those of that length the longest
    time. *)
Lemma DATETIME_RE_first k line c x :
  rmatch (compiled DATETIME_RE) line c
    (λ s5 c5, rmatch (compiled SEPARATOR_RE) s5 c5 k) = Some x →
  ∃ date time head sep rest c6,
    line = head ++ sep ++ rest ∧ datetime_text date time head ∧
    sep ∈ [s_ " - "; s_ ": "; s_ " "] ∧
    datetime_groups date time c c6 ∧
    k rest (("4"%string, sep) :: c6) = Some x ∧
    ∀ date' time' head' sep' rest',
      line = head' ++ sep' ++ rest' → datetime_text date' time' head' →
      sep' ∈ [s_ " - "; s_ ": "; s_ " "] →
      (∀ caps, is_Some (k rest' caps)) →
      date' = date ∧
      length (head' ++ sep') ≤ length (head ++ sep) ∧
      (length (head' ++ sep') = length (head ++ sep) →
       length time' ≤ length time) ∧
      (length time' = length time → time' = time).
Proof.
  rewrite DATETIME_RE_unfold.
  intros (w & s3 & c3 & -> & Hw & Htime)%rmatch_sound.
  apply matches_Cat_inv in Hw as (ob & w1 & c1 & -> & Hob & Hw).
  apply matches_Cat_inv in Hw as (date & w2 & c2 & -> & Hdate & Hw).
  apply matches_Cat_inv in Hw as (comma & sp & c4 & -> & Hcomma & Hsp).
  apply matches_Lit_inv in Hsp as [-> ->].
  apply matches_DATE_RE in Hdate as [Hdate ->].
  assert (ob ∈ [[]; s_ "["] ∧ c1 = c) as [Hob' ->].
  { apply matches_Opt_inv in Hob as [[-> ->]%matches_Lit_inv|[-> ->]];
      (split; [set_solver|done]). }
  assert (comma ∈ [[]; s_ ","] ∧ c4 = ("date"%string, date) :: c)
    as [Hcomma' ->].
  { apply matches_Opt_inv in Hcomma as [[-> ->]%matches_Lit_inv|[-> ->]];
      (split; [set_solver|done]). }
  clear Hob Hcomma.
  apply TIME_RE_first in Htime
    as (time & cb & sep & rest & c6 & -> & Htt & Hcb & Hsep & Hc6 & Hk & Hfirst).
  exists date, time, (ob ++ date ++ comma ++ s_ " " ++ time ++ cb), sep, rest, c6.
  split; [by rewrite <- !app_assoc|].
  split; [by exists ob, comma, cb|]. split; [done|].
  split; [done|]. split; [done|].
  intros date' time' head' sep' rest' Heq
    (ob' & comma' & cb' & -> & Hob'' & Hcomma'' & Hcb' & Hdate' & Htt')
    Hsep' Hok.
  rewrite <- !app_assoc in Heq.
  apply datetime_prefix_unique in Heq as (<- & <- & <- & Heq); [|done..].
  split; [done|].
  destruct (Hfirst time' cb' sep' rest' Heq Htt' Hcb' Hsep' Hok)
    as [Hle Heqlen].
  rewrite !length_app in *. split; [lia|]. split; [intros ?; apply Heqlen; lia|].
  intros Hlen. by apply app_inj_1 in Heq as [? _].
Qed.
End DatetimeFirst.

Section LayoutTaken.
Import PyStr Re.
Implicit Types (line date time name body head sep eol : str).

(** A pattern made of [DATETIME_RE], [SEPARATOR_RE] and a tail: of the
    ways to lay out the line, the match takes the one whose tail starts
    last, and among those the one with the longest time. *)
Lemma layout_first tail line m :
  re_match (Cat (compiled DATETIME_RE) (Cat (compiled SEPARATOR_RE) tail)) line
  = Some m →
  ∃ date time head sep wt c6,
    line = head ++ sep ++ wt ++ m_post m ∧ datetime_text date time head ∧
    sep ∈ [s_ " - "; s_ ": "; s_ " "] ∧
    datetime_groups date time [] c6 ∧
    matches tail wt (m_post m) (("4"%string, sep) :: c6) (m_groups m) ∧
    ∀ date' time' head' sep' wt' post' ca cb,
      line = head' ++ sep' ++ wt' ++ post' → datetime_text date' time' head' →
      sep' ∈ [s_ " - "; s_ ": "; s_ " "] → matches tail wt' post' ca cb →
      date' = date ∧
      length (head' ++ sep') ≤ length (head ++ sep) ∧
      (length (head' ++ sep') = length (head ++ sep) →
       length time' ≤ length time) ∧
      (length time' = length time → time' = time).
Proof.
  unfold re_match.
  change (rmatch (Cat (compiled DATETIME_RE) (Cat (compiled SEPARATOR_RE) tail))
            line [] ?K)
    with (rmatch (compiled DATETIME_RE) line []
            (λ s5 c5, rmatch (compiled SEPARATOR_RE) s5 c5
                        (λ s6 c6, rmatch tail s6 c6 K))).
  intros (date & time & head & sep & rest & c6 & -> & Hdt & Hsep & Hg & Hk
          & Hfirst)%DATETIME_RE_first.
  apply rmatch_sound in Hk as (wt & post & caps & -> & Htail & [= <-]).
  exists date, time, head, sep, wt, c6. cbn [m_post m_groups].
  do 5 (split; [done|]).
  intros date' time' head' sep' wt' post' ca cb Heq Hdt' Hsep' Htail'.
  apply (Hfirst date' time' head' sep' (wt' ++ post') Heq Hdt' Hsep').
  intros caps'. by apply (rmatch_complete _ _ _ _ _ _ Htail').
Qed.

(** The end of a line after a body is the same in every layout. *)
Lemma last_body Y body : nl ∉ body → last (Y ++ " "%char :: body) ≠ Some nl.
Proof.
  intros Hnl. destruct body as [|b body _] using rev_ind.
  - by rewrite last_snoc.
  - change (Y ++ " "%char :: body ++ [b]) with (Y ++ (" "%char :: body) ++ [b]).
    rewrite app_assoc, last_snoc. intros [= ->]. set_solver.
Qed.

Lemma last_named X name body :
  nl ∉ body → last (X ++ name ++ s_ ": " ++ body) ≠ Some nl.
Proof.
  intros Hnl.
  change (X ++ name ++ s_ ": " ++ body)
    with (X ++ name ++ s_ ":" ++ " "%char :: body).
  rewrite !app_assoc. by apply last_body.
Qed.

Lemma last_unnamed X sep body :
  sep ∈ [s_ " - "; s_ ": "; s_ " "] → nl ∉ body →
  last (X ++ sep ++ body) ≠ Some nl.
Proof.
  intros Hsep Hnl. set_unfold in Hsep. destruct Hsep as [->|[->|[->|[]]]].
  - change (X ++ s_ " - " ++ body) with (X ++ s_ " -" ++ " "%char :: body).
    rewrite app_assoc. by apply last_body.
  - change (X ++ s_ ": " ++ body) with (X ++ s_ ":" ++ " "%char :: body).
    rewrite app_assoc. by apply last_body.
  - by apply last_body.
Qed.

Lemma eol_unique Z Z' eol eol' :
  Z ++ eol = Z' ++ eol' → last Z ≠ Some nl → last Z' ≠ Some nl →
  eol ∈ [[]; [nl]] → eol' ∈ [[]; [nl]] → eol = eol'.
Proof.
  intros Heq HZ HZ' Heol Heol'. set_unfold in Heol. set_unfold in Heol'.
  destruct Heol as [->|[->|[]]], Heol' as [->|[->|[]]]; [done| | |done].
  - rewrite app_nil_r in Heq. subst Z. by rewrite last_snoc in HZ.
  - rewrite app_nil_r in Heq. subst Z'. by rewrite last_snoc in HZ'.
Qed.

Lemma separator_blank sep :
  sep ∈ [s_ " - "; s_ ": "; s_ " "] → ∃ sep0, sep = sep0 ++ s_ " ".
Proof.
  intros Hsep. set_unfold in Hsep. destruct Hsep as [->|[->|[->|[]]]].
  - by exists (s_ " -").
  - by exists (s_ ":").
  - by exists [].
Qed.
End LayoutTaken.

Section LayoutTakenTheorems.
Import PyStr Re.
Implicit Types (line date time name body head sep eol : str).

(** X20. When [WHATSAPP_RE] matches a line, every layout of that line
    with a name has the date of the match, and its name and body
    together are at least as long as those of the match: the match takes
    the name that starts last.  A layout whose name and body are
    together as long has the name and the body of the match, and a time
    no longer than that of the match; a time as long as that of the
    match is the time of the match. *)
Theorem WHATSAPP_RE_takes_latest_name line m date time name body :
  re_match (compiled WHATSAPP_RE) line = Some m →
  named_line date time name body line →
  date = group (m_groups m) "date" ∧
  length (group (m_groups m) "name") + length (group (m_groups m) "body")
  ≤ length name + length body ∧
  (length name + length body
   = length (group (m_groups m) "name") + length (group (m_groups m) "body") →
   name = group (m_groups m) "name" ∧ body = group (m_groups m) "body" ∧
   length time ≤ length (group (m_groups m) "time")) ∧
  (length time = length (group (m_groups m) "time") →
   time = group (m_groups m) "time").
Proof.
  change (compiled WHATSAPP_RE)
    with (Cat (compiled DATETIME_RE)
            (Cat (compiled SEPARATOR_RE)
               (Cat (compiled NAME_RE)
                  (Cat (Lit (s_ ": ")) (compiled BODY_RE))))).
  intros (date0 & time0 & head & sep & wt & c6 & Hline & Hdt & Hsep & Hg
          & Htail & Hfirst)%layout_first
         (head' & sep' & eol' & Hline' & Hdt' & Hsep' & Hne' & Hcolon' & Hnl'
          & Heol').
  (* the groups of the match *)
  apply matches_Cat_inv in Htail as (name0 & w1 & c1 & -> & Hname0 & Htail).
  apply matches_Cat_inv in Htail as (colon & body0 & c2 & -> & Hcolon & Hbody0).
  apply matches_NAME_RE in Hname0 as (Hne0 & Hcolon0 & ->).
  apply matches_Lit_inv in Hcolon as [-> ->].
  apply matches_BODY_RE in Hbody0 as (Hnl0 & Heol0 & Hgroups).
  apply datetime_groups_group in Hg as [Hgd Hgt].
  rewrite Hgroups. cbn [group]. rewrite Hgd, Hgt. clear Hgroups Hgd Hgt.
  repeat case_decide; try done.
  (* the other layout is a way to match *)
  assert (matches (Cat (compiled NAME_RE)
                     (Cat (Lit (s_ ": ")) (compiled BODY_RE)))
            (name ++ s_ ": " ++ body) eol' []
            (("body"%string, body) :: ("name"%string, name) :: [])) as Htail'.
  { eapply matches_Cat; [by apply matches_NAME_RE|].
    eapply matches_Cat; [apply matches_Lit|]. by apply matches_BODY_RE. }
  assert (line = head' ++ sep' ++ (name ++ s_ ": " ++ body) ++ eol') as Hline''
    by (by rewrite Hline', <- !app_assoc).
  destruct (Hfirst date time head' sep' _ eol' _ _ Hline'' Hdt' Hsep' Htail')
    as (-> & Hle & Heqlen & Htime).
  clear Hfirst Htail' Hline''.
  (* the end of the line *)
  rewrite <- !app_assoc in Hline.
  assert (eol' = m_post m) as ->.
  { apply (eol_unique ((head' ++ sep') ++ name ++ s_ ": " ++ body)
             ((head ++ sep) ++ name0 ++ s_ ": " ++ body0));
      [|by apply last_named..|done|done].
    rewrite <- !app_assoc. by rewrite <- Hline', Hline. }
  split; [done|].
  assert (length (head ++ sep) + length name0 + length body0
          = length (head' ++ sep') + length name + length body) as Hlen.
  { pose proof (f_equal length Hline) as Hl. rewrite Hline' in Hl.
    rewrite !length_app in Hl. rewrite !length_app. simpl in Hl. lia. }
  split; [lia|]. split; [|done].
  intros Heq. assert (length (head' ++ sep') = length (head ++ sep)) as Hpre
    by lia.
  split; [|split; [|by apply Heqlen]].
  all: rewrite Hline' in Hline.
  all: rewrite !(app_assoc head'), !(app_assoc head) in Hline.
  all: rewrite <- !app_assoc in Hline.
  all: rewrite !(app_assoc head' sep'), !(app_assoc head sep) in Hline.
  all: apply app_inj_1 in Hline as [_ Hrest]; [|done].
  all: apply (run_unique (none_of (s_ ":"))) in Hrest as [-> Hrest];
    [|by apply Forall_none_of; set_solver
     |by apply Forall_none_of; set_solver
     |by intros c t [= <- _]
     |by intros c t [= <- _]].
  - done.
  - injection Hrest as Hrest. by apply app_inv_tail in Hrest.
Qed.

(** X21. When [FIRSTLINE_RE] matches a line, every layout of that line
    without a name has the date of the match, and a body at least as
    long as that of the match: the match takes the body that starts
    last.  A layout whose body is as long has the body of the match, and
    a time no longer than that of the match; a time as long as that of
    the match is the time of the match. *)
Theorem FIRSTLINE_RE_takes_latest_body line m date time body :
  re_match (compiled FIRSTLINE_RE) line = Some m →
  unnamed_line date time body line →
  date = group (m_groups m) "date" ∧
  length (group (m_groups m) "body") ≤ length body ∧
  (length body = length (group (m_groups m) "body") →
   body = group (m_groups m) "body" ∧
   length time ≤ length (group (m_groups m) "time")) ∧
  (length time = length (group (m_groups m) "time") →
   time = group (m_groups m) "time").
Proof.
  change (compiled FIRSTLINE_RE)
    with (Cat (compiled DATETIME_RE)
            (Cat (compiled SEPARATOR_RE) (compiled BODY_RE))).
  intros (date0 & time0 & head & sep & body0 & c6 & Hline & Hdt & Hsep & Hg
          & Hbody0 & Hfirst)%layout_first
         (head' & sep' & eol' & Hline' & Hdt' & Hsep' & Hnl' & Heol').
  apply matches_BODY_RE in Hbody0 as (Hnl0 & Heol0 & Hgroups).
  apply datetime_groups_group in Hg as [Hgd Hgt].
  rewrite Hgroups. cbn [group]. rewrite Hgd, Hgt. clear Hgroups Hgd Hgt.
  repeat case_decide; try done.
  assert (matches (compiled BODY_RE) body eol' []
            (("body"%string, body) :: [])) as Htail'
    by (by apply matches_BODY_RE).
  destruct (Hfirst date time head' sep' _ eol' _ _ Hline' Hdt' Hsep' Htail')
    as (-> & Hle & Heqlen & Htime).
  clear Hfirst Htail'.
  assert (eol' = m_post m) as ->.
  { apply (eol_unique (head' ++ sep' ++ body) (head ++ sep ++ body0));
      [|by apply last_unnamed..|done|done].
    rewrite <- !app_assoc. by rewrite <- Hline', Hline. }
  split; [done|].
  assert (length (head ++ sep) + length body0
          = length (head' ++ sep') + length body) as Hlen.
  { pose proof (f_equal length Hline) as Hl. rewrite Hline' in Hl.
    rewrite !length_app in Hl. rewrite !length_app. lia. }
  split; [lia|]. split; [|done].
  intros Heq. split; [|apply Heqlen; lia].
  rewrite Hline', !(app_assoc head' sep'), !(app_assoc head sep) in Hline.
  apply app_inj_1 in Hline as [_ Hrest]; [|lia].
  by apply app_inv_tail in Hrest.
Qed.
End LayoutTakenTheorems.

(** X20 at a line with a colon after the time: the layout given has the
    time [10:00]; the match has the same date, name and body. *)
Lemma WHATSAPP_RE_takes_latest_name_witness :
  ∃ m, re_match (compiled WHATSAPP_RE) (s_ "1/2/20, 10:00: AM: b") = Some m ∧
       s_ "1/2/20" = group (m_groups m) "date" ∧
       length (group (m_groups m) "name") + length (group (m_groups m) "body")
       ≤ length (s_ "AM") + length (s_ "b") ∧
       (length (s_ "AM") + length (s_ "b")
        = length (group (m_groups m) "name")
          + length (group (m_groups m) "body") →
        s_ "AM" = group (m_groups m) "name" ∧
        s_ "b" = group (m_groups m) "body" ∧
        length (s_ "10:00") ≤ length (group (m_groups m) "time")) ∧
       (length (s_ "10:00") = length (group (m_groups m) "time") →
        s_ "10:00" = group (m_groups m) "time").
Proof.
  destruct (re_match (compiled WHATSAPP_RE) (s_ "1/2/20, 10:00: AM: b"))
    as [m|] eqn:Hm; [|by vm_compute in Hm].
  exists m. split; [done|].
  apply (WHATSAPP_RE_takes_latest_name (s_ "1/2/20, 10:00: AM: b") m
           (s_ "1/2/20") (s_ "10:00") (s_ "AM") (s_ "b")); [done|].
  exists (s_ "1/2/20, 10:00"), (s_ ": "), [].
  split; [done|]. split.
  - exists [], (s_ ","), []. split; [done|].
    split; [set_solver|]. split; [set_solver|]. split; [set_solver|]. split.
    + split; [done|]. apply Forall_forall. intros c Hc. set_unfold in Hc.
      by repeat destruct Hc as [->|Hc].
    + exists (s_ "10:00"), []. split; [done|]. split; [done|].
      split; [|set_solver].
      apply Forall_forall. intros c Hc. set_unfold in Hc.
      by repeat destruct Hc as [->|Hc].
  - split; [set_solver|]. split; [done|].
    split; [|split; [|set_solver]]; apply (bool_decide_unpack _);
      vm_compute; exact I.
Defined.

(** X21 at a line with a dash: the layout given starts the body at the
    dash; the match starts it later. *)
Lemma FIRSTLINE_RE_takes_latest_body_witness :
  ∃ m, re_match (compiled FIRSTLINE_RE) (s_ "[1/2/20 10:00] - joined") = Some m ∧
       s_ "1/2/20" = group (m_groups m) "date" ∧
       length (group (m_groups m) "body") ≤ length (s_ "- joined") ∧
       (length (s_ "- joined") = length (group (m_groups m) "body") →
        s_ "- joined" = group (m_groups m) "body" ∧
        length (s_ "10:00") ≤ length (group (m_groups m) "time")) ∧
       (length (s_ "10:00") = length (group (m_groups m) "time") →
        s_ "10:00" = group (m_groups m) "time").
Proof.
  destruct (re_match (compiled FIRSTLINE_RE) (s_ "[1/2/20 10:00] - joined"))
    as [m|] eqn:Hm; [|by vm_compute in Hm].
  exists m. split; [done|].
  apply (FIRSTLINE_RE_takes_latest_body (s_ "[1/2/20 10:00] - joined") m
           (s_ "1/2/20") (s_ "10:00") (s_ "- joined")); [done|].
  exists (s_ "[1/2/20 10:00]"), (s_ " "), [].
  split; [done|]. split.
  - exists (s_ "["), [], (s_ "]"). split; [done|].
    split; [set_solver|]. split; [set_solver|]. split; [set_solver|]. split.
    + split; [done|]. apply Forall_forall. intros c Hc. set_unfold in Hc.
      by repeat destruct Hc as [->|Hc].
    + exists (s_ "10:00"), []. split; [done|]. split; [done|].
      split; [|set_solver].
      apply Forall_forall. intros c Hc. set_unfold in Hc.
      by repeat destruct Hc as [->|Hc].
  - split; [set_solver|].
    split; [|set_solver]. apply (bool_decide_unpack _). vm_compute. exact I.
Defined.
